(** * Zif networking core: a shallow embedding of the DHT entry, the routing
    table, the entry store, the framed reader, the query handler, the resolver
    and the peer manager, with the properties stated about them.

    Go values are embedded as follows.
    - [string] and [[]byte] are byte sequences: a Go [string] is a Rocq
      [string] (a list of 8-bit characters), a [[]byte] is a [list byte];
      [string(b)] is [string_of_list_byte b].
    - [int], [int64] and [uint64] are [Z]; the only wrap-around the code
      relies on ([int(e.Updated)]) is written out.
    - [error] is the inductive [error]; the [nil] error is [None].
    - a pointer that may be [nil] is an [option].
    - a slice is a header (backing array, length) over a store of arrays, so
      that an [append] that writes in place is seen by every other slice on
      the same array. *)

From Stdlib Require Import ZArith NArith Lia Bool Ascii String List.
From Stdlib Require Import Init.Byte Strings.Byte DecimalString.
From stdpp Require Import base tactics option list.

Import ListNotations.
Local Open Scope string_scope.
Local Open Scope Z_scope.

(** ** Go primitives *)

Definition bytes := list byte.

(** [errors.New(msg)] and the package-level error values that the code
    compares with [==]. *)
Inductive error : Type :=
| errors_New (msg : string)
| RecursionLimit
| PeerUnreachable
| PeerDisconnected
| sql_ErrNoRows
| io_EOF
| AddressResolutionError.

(** [len(s)] of a string and of a slice, as a Go [int]. *)
Definition len_string (s : string) : Z := Z.of_nat (String.length s).
Definition len {A} (l : list A) : Z := Z.of_nat (List.length l).

(** [strconv.Itoa]. *)
Definition strconv_Itoa (i : Z) : string := NilZero.string_of_int (Z.to_int i).

(** [int(u)] for a [uint64] [u]: the two's complement reading of the bits. *)
Definition int_of_uint64 (u : Z) : Z :=
  let w := u mod 2 ^ 64 in if w <? 2 ^ 63 then w else w - 2 ^ 64.

Definition byte_of_Z (z : Z) : byte :=
  match Byte.of_N (Z.to_N (z mod 256)) with Some b => b | None => x00 end.

(** [string(i)] for an integer [i]: the UTF-8 encoding of the code point [i],
    and of U+FFFD when [i] is not a valid code point. *)
Definition RuneError : Z := 65533.

Definition utf8_EncodeRune (r : Z) : bytes :=
  if (0 <=? r) && (r <=? 127) then [byte_of_Z r]
  else if (0 <=? r) && (r <=? 2047) then
    [byte_of_Z (Z.lor 192 (Z.shiftr r 6));
     byte_of_Z (Z.lor 128 (Z.land r 63))]
  else
    let r := if (r <? 0) || (1114111 <? r) || ((55296 <=? r) && (r <=? 57343))
             then RuneError else r in
    if r <=? 65535 then
      [byte_of_Z (Z.lor 224 (Z.shiftr r 12));
       byte_of_Z (Z.lor 128 (Z.land (Z.shiftr r 6) 63));
       byte_of_Z (Z.lor 128 (Z.land r 63))]
    else
      [byte_of_Z (Z.lor 240 (Z.shiftr r 18));
       byte_of_Z (Z.lor 128 (Z.land (Z.shiftr r 12) 63));
       byte_of_Z (Z.lor 128 (Z.land (Z.shiftr r 6) 63));
       byte_of_Z (Z.lor 128 (Z.land r 63))].

Definition string_of_int (i : Z) : string :=
  string_of_list_byte (utf8_EncodeRune i).

(** ** Address *)

#[global] Instance byte_eq_dec : EqDecision byte := Byte.byte_eq_dec.

Module Address.

Record t := Build { Raw : bytes }.

Definition byte_xor (a b : byte) : byte :=
  byte_of_Z (Z.lxor (Z.of_N (Byte.to_N a)) (Z.of_N (Byte.to_N b))).

(** Modelled from the spec: [Address.Xor] is not in the sources; the spec
    gives it as the bytewise exclusive or of the two raw addresses. *)
Definition Xor (a b : t) : t :=
  Build (List.map (fun p => byte_xor (fst p) (snd p)) (List.combine (Raw a) (Raw b))).

(** Number of zero bits of one byte before its first set bit. *)
Definition byte_leading_zeroes (b : byte) : nat :=
  (8 - N.to_nat (N.size (Byte.to_N b)))%nat.

Fixpoint leading_zero_bits (l : bytes) : nat :=
  match l with
  | [] => 0%nat
  | b :: l' =>
      if N.eqb (Byte.to_N b) 0 then (8 + leading_zero_bits l')%nat
      else byte_leading_zeroes b
  end.

(** Modelled from the spec: [Address.LeadingZeroes] is not in the sources;
    the spec gives it as the number of leading zero bits of the 20 bytes,
    used as the bucket index. *)
Definition LeadingZeroes (a : t) : nat := leading_zero_bits (Raw a).

(** Modelled from the spec: [Address.Equals] is not in the sources; equality
    of the raw bytes. *)
Definition Equals (a b : t) : bool :=
  bool_decide (Raw a = Raw b).

Fixpoint bytes_less (x y : bytes) : bool :=
  match x, y with
  | a :: x', b :: y' =>
      if N.ltb (Byte.to_N a) (Byte.to_N b) then true
      else if N.ltb (Byte.to_N b) (Byte.to_N a) then false
      else bytes_less x' y'
  | _, _ => false
  end.

(** Modelled from the spec: [Address.Less] is not in the sources; the spec
    orders distances lexicographically. *)
Definition Less (a b : t) : bool := bytes_less (Raw a) (Raw b).

End Address.

#[global] Instance Address_eq_dec : EqDecision Address.t.
Proof. intros [a] [b]. destruct (decide (a = b)); [left | right]; congruence. Defined.

(** ** Libraries and helpers outside the repository sources

    The code calls into packages whose text is not part of the sources read
    here.  They are taken as an interface; every general statement below holds
    for each implementation of it. *)
Class Externals := {
  (** [ed25519.Verify(publicKey, message, sig)] of golang.org/x/crypto. *)
  ed25519_Verify : bytes -> bytes -> bytes -> bool;
  (** [Address.String()]: the display form of an address, or an error. *)
  Address_String : Address.t -> string * option error;
  (** [DecodeAddress(s)]: the address displayed as [s], or an error. *)
  DecodeAddress : string -> Address.t * option error;
}.

(** ** Entry *)

Definition MaxEntryNameLength : Z := 32.
Definition MaxEntryDescLength : Z := 160.
Definition MaxEntryPublicAddressLength : Z := 253.
Definition MaxEntrySeeds : Z := 100000.
Definition ed25519_PublicKeySize : Z := 32.
Definition ed25519_SignatureSize : Z := 64.

Module Entry.

Record t := Build {
  Address : Address.t;
  Name : string;
  Desc : string;
  PublicAddress : string;
  PublicKey : bytes;
  PostCount : Z;
  Updated : Z;
  Signature : bytes;
  CollectionHash : bytes;
  Port : Z;
  Seeds : list bytes;
  Seeding : list bytes;
  Seen : Z;
  distance : Address.t
}.

(** The entry [e] with its [Seeds] field replaced. *)
Definition with_Seeds (s : list bytes) (e : t) : t :=
  Build (Address e) (Name e) (Desc e) (PublicAddress e) (PublicKey e) (PostCount e)
    (Updated e) (Signature e) (CollectionHash e) (Port e) s (Seeding e) (Seen e)
    (distance e).

(** The entry [e] with its [Port] field replaced. *)
Definition with_Port (p : Z) (e : t) : t :=
  Build (Address e) (Name e) (Desc e) (PublicAddress e) (PublicKey e) (PostCount e)
    (Updated e) (Signature e) (CollectionHash e) p (Seeds e) (Seeding e) (Seen e)
    (distance e).

(** The entry [e] with its [PublicAddress] field replaced. *)
Definition with_PublicAddress (a : string) (e : t) : t :=
  Build (Address e) (Name e) (Desc e) a (PublicKey e) (PostCount e)
    (Updated e) (Signature e) (CollectionHash e) (Port e) (Seeds e) (Seeding e)
    (Seen e) (distance e).

Section WithExternals.
Context `{X : Externals}.

(** [func (e Entry) String() (string, error)] *)
Definition String (e : t) : string * option error :=
  let str := "" in
  let '(addressString, err) := Address_String (Address e) in
  match err with
  | Some err => ("", Some err)
  | None =>
      let postCount := strconv_Itoa (PostCount e) in
      let updated := strconv_Itoa (int_of_uint64 (Updated e)) in
      let str := str ++ addressString in
      let str := str ++ Name e in
      let str := str ++ Desc e in
      let str := str ++ PublicAddress e in
      let str := str ++ string_of_list_byte (PublicKey e) in
      let str := str ++ string_of_int (Port e) in
      let str := str ++ postCount in
      let str := str ++ updated in
      let str := str ++ string_of_list_byte (CollectionHash e) in
      let str := fold_left (fun str i => str ++ string_of_list_byte i) (Seeding e) str in
      (str, None)
  end.

(** [func (e Entry) Bytes() ([]byte, error)] *)
Definition Bytes (e : t) : bytes * option error :=
  let '(ret, err) := String e in
  (list_byte_of_string ret, err).

(** [func (entry *Entry) Verify() error] *)
Definition Verify (entry : option t) : option error :=
  match entry with
  | None => Some (errors_New "Entry is nil")
  | Some entry =>
      if negb (len (Address.Raw (Address entry)) =? 20) then
        Some (errors_New "Address size invalid")
      else if len_string (Name entry) >? MaxEntryNameLength then
        Some (errors_New "Entry name is too long")
      else if len_string (Desc entry) >? MaxEntryDescLength then
        Some (errors_New "Entry description is too long")
      else if len (Seeds entry) >? MaxEntrySeeds then
        Some (errors_New "Entry has too many seeds")
      else if len (PublicKey entry) <? ed25519_PublicKeySize then
        Some (errors_New ("Public key too small: " ++ strconv_Itoa (len (PublicKey entry))))
      else if len (Signature entry) <? ed25519_SignatureSize then
        Some (errors_New "Signature too small")
      else
        let '(data, _) := Bytes entry in
        let verified := ed25519_Verify (PublicKey entry) data (Signature entry) in
        if negb verified then
          Some (errors_New "Failed to verify signature")
        else if len_string (PublicAddress entry) =? 0 then
          Some (errors_New "Public address must be set")
        else if len_string (PublicAddress entry) >=? MaxEntryPublicAddressLength then
          Some (errors_New "Public address is too large (253 char max)")
        else if Port entry >? 65535 then
          Some (errors_New ("Port too large (" ++ string_of_int (Port entry) ++ ")"))
        else None
  end.

End WithExternals.

End Entry.

(** The content of a message: the value that was msgpack-encoded into it.
    Modelled from the spec: [Message.Write] and [Message.Read] are not in the
    sources; the spec has [Content] carry the msgpack encoding of a payload
    whose schema depends on the header, and has encoding followed by decoding
    give the payload back, so the content is represented by the payload.
    [PUnset] is the content of a message that was never written to, [PNil]
    the encoding of a [nil] pointer. *)
Inductive payload : Type :=
| PUnset
| PNil
| PAddress (a : Address.t)
| PEntry (e : Entry.t)
| PEntries (l : list (option Entry.t))
| PString (s : string).


(** [msgpack.Marshal], of gopkg.in/vmihailenco/msgpack.v2, as far as the code
    depends on it: the error, if any, that encoding a value gives. *)
Class Msgpack := {
  Marshal_error : payload -> option error
}.

(** ** Predicates used to state the properties of [Entry] *)

Module EntrySpec.
Import Entry.

Section WithExternals.
Context `{X : Externals}.

(** The signature check of [Verify]: the signature verifies the canonical
    bytes under the entry's public key. *)
Definition signature_ok (e : Entry.t) : bool :=
  ed25519_Verify (PublicKey e) (fst (Bytes e)) (Signature e).

(** Every check of [Verify] other than those on [PublicAddress] and [Port]. *)
Definition checks_before_public_address (e : Entry.t) : Prop :=
  len (Address.Raw (Address e)) = 20 /\
  len_string (Name e) <= MaxEntryNameLength /\
  len_string (Desc e) <= MaxEntryDescLength /\
  len (Seeds e) <= MaxEntrySeeds /\
  ed25519_PublicKeySize <= len (PublicKey e) /\
  ed25519_SignatureSize <= len (Signature e) /\
  signature_ok e = true.

(** The concatenation of the elements of a list of byte slices, as a string. *)
Definition concat_bytes (l : list bytes) : string :=
  fold_right String.append "" (List.map string_of_list_byte l).

End WithExternals.

End EntrySpec.

(** ** A concrete instance of the external interface and concrete entries

    Used to evaluate the code on explicit inputs.  The display form of an
    address is taken to be its raw bytes read as a string, and a signature of
    a message under a key is taken to be the first 64 bytes of the message
    followed by the key and zero padding. *)

Module Sample.

Definition sample_sign (publicKey message : bytes) : bytes :=
  firstn 64 (message ++ publicKey ++ repeat x00 64).

#[local] Instance externals : Externals := {|
  ed25519_Verify publicKey message sig :=
    bool_decide (sig = sample_sign publicKey message);
  Address_String a := (string_of_list_byte (Address.Raw a), None);
  DecodeAddress s := (Address.Build (list_byte_of_string s), None)
|}.

#[local] Instance msgpack : Msgpack := {|
  Marshal_error _ := None
|}.

(** The entry [e] signed under its own public key. *)
Definition signed (e : Entry.t) : Entry.t :=
  Entry.Build (Entry.Address e) (Entry.Name e) (Entry.Desc e) (Entry.PublicAddress e)
    (Entry.PublicKey e) (Entry.PostCount e) (Entry.Updated e)
    (sample_sign (Entry.PublicKey e) (fst (Entry.Bytes e)))
    (Entry.CollectionHash e) (Entry.Port e) (Entry.Seeds e) (Entry.Seeding e)
    (Entry.Seen e) (Entry.distance e).

(** The 20-byte address whose first byte is [b] and whose other bytes are 0. *)
Definition address_of_byte (b : byte) : Address.t :=
  Address.Build (b :: repeat x00 19).

(** An unsigned entry for address [a], reachable at [example.org:5050]. *)
Definition unsigned_entry (a : Address.t) : Entry.t :=
  Entry.Build a "node" "a node" "example.org" (repeat x07 32) 0 1 []
    (repeat x00 32) 5050 [] [] 0 (Address.Build []).

Definition entry1 : Entry.t := signed (unsigned_entry (address_of_byte x01)).

(** A public address of [n] characters. *)
Definition public_address_of_length (n : nat) : string :=
  string_of_list_byte (repeat "a"%byte n).

Definition entry_public_address_253 : Entry.t :=
  signed (Entry.with_PublicAddress (public_address_of_length 253)
            (unsigned_entry (address_of_byte x01))).

Definition entry_port_minus_1 : Entry.t :=
  signed (Entry.with_Port (-1) (unsigned_entry (address_of_byte x01))).


End Sample.

(** ** Outcomes of stateful code

    A Go function either returns (with a new state) or panics.  Loops that
    are not bounded by the length of a list are run on fuel; running out of
    fuel is a third outcome, proved not to happen. *)

Inductive outcome (S A : Type) : Type :=
| Done (a : A) (s : S)
| Panic
| OutOfFuel.

Arguments Done {S A} a s.
Arguments Panic {S A}.
Arguments OutOfFuel {S A}.

Definition M (S A : Type) : Type := S -> outcome S A.

Definition pure {S A} (a : A) : M S A := fun s => Done a s.

Definition bind {S A B} (c : M S A) (k : A -> M S B) : M S B :=
  fun s => match c s with
           | Done a s' => k a s'
           | Panic => Panic
           | OutOfFuel => OutOfFuel
           end.

Definition get {S} : M S S := fun s => Done s s.
Definition put {S} (s : S) : M S unit := fun _ => Done tt s.
Definition panic {S A} : M S A := fun _ => Panic.
Definition out_of_fuel {S A} : M S A := fun _ => OutOfFuel.

(** A computation that never runs out of fuel. *)
Definition terminates {S A} (c : M S A) : Prop := forall s, c s <> OutOfFuel.

(** The value a computation returns, when it returns. *)
Definition returned {S A} (o : outcome S A) : option A :=
  match o with
  | Done a _ => Some a
  | _ => None
  end.

(** The state a computation ends in, when it returns. *)
Definition final_state {S A} (o : outcome S A) : option S :=
  match o with
  | Done _ s => Some s
  | _ => None
  end.

(** [x[i]] on a Go slice or array: a panic when out of range. *)
Definition index_or_panic {S A} (l : list A) (i : nat) : M S A :=
  match l !! i with
  | Some a => pure a
  | None => panic
  end.

Notation "'do' x <- c ; k" := (bind c (fun x => k))
  (at level 10, x pattern, c at level 100, k at level 200).
Notation "c ;; k" := (bind c (fun _ => k))
  (at level 100, k at level 200, right associativity).

(** ** NetDB: the routing table and the entry store *)

Definition BucketSize : Z := 20.

(** Modelled from the spec: the constant [AddressBinarySize] is not in the
    sources; the spec gives addresses 20 raw bytes. *)
Definition AddressBinarySize : Z := 20.

Module Slice.
(** A slice of addresses: its backing array in the store and its length. *)
Record t := Build { array : nat; length : nat }.
End Slice.

(** A row of the SQL table [entry]. *)
Module Row.
Record t := Build {
  id : Z;
  address : string;
  name : string;
  desc : string;
  publicAddress : string;
  port : Z;
  publicKey : bytes;
  signature : bytes;
  collectionHash : bytes;
  postCount : Z;
  seedCount : Z;
  seedingCount : Z;
  updated : Z;
  seen : Z
}.
End Row.

(** A row of the SQL table [seed]. *)
Module SeedRow.
Record t := Build { id : Z; seed : Z; for_ : Z }.
End SeedRow.

(** A row of the full-text table [ftsEntry]. *)
Module FtsRow.
Record t := Build { docid : Z; name : string; desc : string }.
End FtsRow.

Module NetDB.

Record t := Build {
  (** the backing arrays of all the bucket slices ever allocated *)
  store : list (list Address.t);
  table : list Slice.t;
  addr : Address.t;
  (** the SQL tables, in insertion order *)
  entry_rows : list Row.t;
  seed_rows : list SeedRow.t;
  fts_rows : list FtsRow.t
}.

Definition set_table (st : list (list Address.t)) (tb : list Slice.t) (ndb : t) : t :=
  Build st tb (addr ndb) (entry_rows ndb) (seed_rows ndb) (fts_rows ndb).

Definition set_entry_rows (rows : list Row.t) (ndb : t) : t :=
  Build (store ndb) (table ndb) (addr ndb) rows (seed_rows ndb) (fts_rows ndb).

Definition set_seed_rows (rows : list SeedRow.t) (ndb : t) : t :=
  Build (store ndb) (table ndb) (addr ndb) (entry_rows ndb) rows (fts_rows ndb).

Definition set_fts_rows (rows : list FtsRow.t) (ndb : t) : t :=
  Build (store ndb) (table ndb) (addr ndb) (entry_rows ndb) (seed_rows ndb) rows.

(** The elements of a slice, read from the store. *)
Definition elements (st : list (list Address.t)) (s : Slice.t) : list Address.t :=
  take (Slice.length s) (default [] (st !! Slice.array s)).

(** The addresses of bucket [i] of the table. *)
Definition bucket (ndb : t) (i : nat) : list Address.t :=
  match table ndb !! i with
  | Some s => elements (store ndb) s
  | None => []
  end.

(** [NewNetDB]: 160 empty buckets, each a slice of length 0 on its own array
    of capacity [BucketSize]. *)
Definition NewNetDB (addr : Address.t) : t :=
  let n := Z.to_nat (AddressBinarySize * 8) in
  Build (replicate n (replicate (Z.to_nat BucketSize) (Address.Build [])))
        (List.map (fun i => Slice.Build i 0) (seq 0 n))
        addr [] [] [].

(** [append(bucket[:found], bucket[found+1:]...)]: the elements after
    [found] move one place down inside the same array; the slot of the former
    last element keeps its value. *)
Definition shift_down (found length : nat) (arr : list Address.t) : list Address.t :=
  take found arr ++ take (length - found - 1) (drop (S found) arr) ++ drop (length - 1) arr.

(** The position of the first element of the slice equal to [addr], as in
    the search loop of [insertIntoTable]. *)
Definition find_address (addr : Address.t) (l : list Address.t) : option nat :=
  fst <$> list_find (fun i => Address.Equals i addr = true) l.

(** [func (ndb *NetDB) insertIntoTable(addr Address)].  The table file written
    by [SaveTable] is not part of the state. *)
Definition insertIntoTable (addr : Address.t) : M t unit :=
  do ndb <- get;
  let index := Address.LeadingZeroes (Address.Xor addr (NetDB.addr ndb)) in
  do bucket <- index_or_panic (table ndb) index;
  let st := store ndb in
  let '(st, bucket) :=
    match find_address addr (elements st bucket) with
    | Some found =>
        (alter (shift_down found (Slice.length bucket)) (Slice.array bucket) st,
         Slice.Build (Slice.array bucket) (Slice.length bucket - 1))
    | None =>
        if Z.of_nat (Slice.length bucket) =? BucketSize
        then (st, Slice.Build (Slice.array bucket) (Slice.length bucket - 1))
        else (st, bucket)
    end in
  let fresh := addr :: elements st bucket in
  let bucket := Slice.Build (List.length st) (List.length fresh) in
  put (set_table (st ++ [fresh])%list (<[index := bucket]> (table ndb)) ndb).

(** *** The SQL statements *)

(** [SELECT * FROM entry WHERE address=?], first row. *)
Definition select_entry_by_address (rows : list Row.t) (a : string) : option Row.t :=
  List.find (fun r => String.eqb (Row.address r) a) rows.

(** The next value of an [INTEGER PRIMARY KEY]: one more than the largest. *)
Definition next_id (ids : list Z) : Z := 1 + fold_right Z.max 0 ids.

(** [UPDATE entry SET ... WHERE address=?]: every row whose address matches
    is rewritten and counted, whether or not a column changes value (SQLite
    counts the rows the statement visits). *)
Definition update_row (e : Entry.t) (r : Row.t) : Row.t :=
  Row.Build (Row.id r) (Row.address r) (Entry.Name e) (Entry.Desc e)
    (Entry.PublicAddress e) (Entry.Port e) (Entry.PublicKey e) (Entry.Signature e)
    (Entry.CollectionHash e) (Entry.PostCount e) (len (Entry.Seeds e))
    (len (Entry.Seeding e)) (Entry.Updated e) (Entry.Seen e).

Definition exec_update_entry (e : Entry.t) (a : string) (rows : list Row.t)
  : list Row.t * Z :=
  (List.map (fun r => if String.eqb (Row.address r) a then update_row e r else r) rows,
   len (List.filter (fun r => String.eqb (Row.address r) a) rows)).

(** [INSERT OR IGNORE INTO entry ...]: ignored when the address, which is
    [UNIQUE], is already present.  Gives the rows, the number of rows affected
    and the last insert id. *)
Definition exec_insert_entry (e : Entry.t) (a : string) (rows : list Row.t)
  : list Row.t * Z * Z :=
  match select_entry_by_address rows a with
  | Some r => (rows, 0, Row.id r)
  | None =>
      let id := next_id (List.map Row.id rows) in
      ((rows ++ [update_row e (Row.Build id a "" "" "" 0 [] [] [] 0 0 0 0 0)])%list, 1, id)
  end.

(** [INSERT OR IGNORE INTO ftsEntry (docid, name, desc)]. *)
Definition exec_insert_fts (id : Z) (name desc : string) (rows : list FtsRow.t)
  : list FtsRow.t :=
  if existsb (fun r => FtsRow.docid r =? id) rows then rows
  else (rows ++ [FtsRow.Build id name desc])%list.

(** [INSERT OR IGNORE INTO seed (seed, for)], with [UNIQUE(seed, for)]. *)
Definition exec_insert_seed (seedId entryId : Z) (rows : list SeedRow.t)
  : list SeedRow.t :=
  if existsb (fun r => (SeedRow.seed r =? seedId) && (SeedRow.for_ r =? entryId)) rows
  then rows
  else (rows ++ [SeedRow.Build (next_id (List.map SeedRow.id rows)) seedId entryId])%list.

(** [SELECT entry.address FROM entry JOIN seed ON entry.id = seed.seed
    WHERE seed.for = ?] *)
Definition select_seeds (ndb : t) (id : Z) : list string :=
  List.flat_map (fun s =>
      if SeedRow.for_ s =? id
      then List.map Row.address
             (List.filter (fun r => Row.id r =? SeedRow.seed s) (entry_rows ndb))
      else [])
    (seed_rows ndb).

(** [SELECT entry.address FROM entry JOIN seed ON entry.id = seed.for
    WHERE seed.seed = ?] *)
Definition select_seeding (ndb : t) (id : Z) : list string :=
  List.flat_map (fun s =>
      if SeedRow.seed s =? id
      then List.map Row.address
             (List.filter (fun r => Row.id r =? SeedRow.for_ s) (entry_rows ndb))
      else [])
    (seed_rows ndb).

Section WithExternals.
Context `{X : Externals}.

(** The scan loop of [querySeeds] and [querySeeding]: decode every address,
    stop at the first error. *)
Fixpoint decode_addresses (l : list string) (ret : list Address.t)
  : list Address.t * option error :=
  match l with
  | [] => (ret, None)
  | address :: l' =>
      let '(addr, err) := DecodeAddress address in
      match err with
      | Some err => ([], Some err)
      | None => decode_addresses l' (ret ++ [addr])%list
      end
  end.

(** [func (ndb *NetDB) querySeeds(id int) ([]Address, error)] *)
Definition querySeeds (ndb : t) (id : Z) : list Address.t * option error :=
  decode_addresses (select_seeds ndb id) [].

(** [func (ndb *NetDB) querySeeding(id int) ([]Address, error)] *)
Definition querySeeding (ndb : t) (id : Z) : list Address.t * option error :=
  decode_addresses (select_seeding ndb id) [].

(** [func (ndb *NetDB) addSeedToEntry(e *Entry, seedCount, seedingCount, id int) error] *)
Definition addSeedToEntry (ndb : t) (e : Entry.t) (id : Z) : Entry.t * option error :=
  let e := Entry.Build (Entry.Address e) (Entry.Name e) (Entry.Desc e)
             (Entry.PublicAddress e) (Entry.PublicKey e) (Entry.PostCount e)
             (Entry.Updated e) (Entry.Signature e) (Entry.CollectionHash e)
             (Entry.Port e) [] [] (Entry.Seen e) (Entry.distance e) in
  let '(seeds, err) := querySeeds ndb id in
  match err with
  | Some err => (e, Some err)
  | None =>
      let '(seeding, err) := querySeeding ndb id in
      match err with
      | Some err => (e, Some err)
      | None =>
          (Entry.Build (Entry.Address e) (Entry.Name e) (Entry.Desc e)
             (Entry.PublicAddress e) (Entry.PublicKey e) (Entry.PostCount e)
             (Entry.Updated e) (Entry.Signature e) (Entry.CollectionHash e)
             (Entry.Port e) (List.map Address.Raw seeds) (List.map Address.Raw seeding)
             (Entry.Seen e) (Entry.distance e),
           None)
      end
  end.

(** [func (ndb *NetDB) Query(addr Address)], returning the entry pointer, the row id and the error *)
Definition Query (addr : Address.t) : M t (option Entry.t * Z * option error) :=
  let '(addressString, err) := Address_String addr in
  match err with
  | Some err => pure (None, -1, Some err)
  | None =>
      do ndb <- get;
      match select_entry_by_address (entry_rows ndb) addressString with
      | None => pure (None, -1, None)
      | Some row =>
          let '(decoded, err) := DecodeAddress (Row.address row) in
          match err with
          | Some err => pure (None, -1, Some err)
          | None =>
              let ret := Entry.Build (Address.Build (Address.Raw decoded))
                           (Row.name row) (Row.desc row) (Row.publicAddress row)
                           (Row.publicKey row) (Row.postCount row) (Row.updated row)
                           (Row.signature row) (Row.collectionHash row) (Row.port row)
                           [] [] (Row.seen row) (Address.Build []) in
              let '(ret, err) := addSeedToEntry ndb ret (Row.id row) in
              match err with
              | Some err => pure (None, 0, Some err)
              | None =>
                  insertIntoTable (Entry.Address ret) ;;
                  pure (Some ret, Row.id row, None)
              end
          end
      end
  end.

(** [for _, i := range as] of [queryAddresses]: the slice header is read
    once, the element at each position is read from the array when the
    iteration reaches it.  [n] positions remain, starting at [pos]. *)
Fixpoint queryAddresses_range (as_ : Slice.t) (n pos : nat) (ret : list (option Entry.t))
  : M t (list (option Entry.t)) :=
  match n with
  | O => pure ret
  | S n' =>
      do ndb <- get;
      do i <- index_or_panic (default [] (store ndb !! Slice.array as_)) pos;
      do (kv, _, err) <- Query i;
      match err with
      | Some _ => queryAddresses_range as_ n' (S pos) ret
      | None => queryAddresses_range as_ n' (S pos) (ret ++ [kv])%list
      end
  end.

(** [func (ndb *NetDB) queryAddresses(as []Address) Entries] *)
Definition queryAddresses (as_ : Slice.t) : M t (list (option Entry.t)) :=
  queryAddresses_range as_ (Slice.length as_) 0 [].

(** [for _, i := range bucket] of [FindClosest], with its [break]. *)
Fixpoint FindClosest_range (bucket : Slice.t) (n pos : nat) (ret : list (option Entry.t))
  : M t (list (option Entry.t)) :=
  match n with
  | O => pure ret
  | S n' =>
      do ndb <- get;
      do i <- index_or_panic (default [] (store ndb !! Slice.array bucket)) pos;
      if len ret >=? BucketSize then pure ret
      else
        do (kv, _, err) <- Query i;
        match err with
        | Some _ => FindClosest_range bucket n' (S pos) ret
        | None => FindClosest_range bucket n' (S pos) (ret ++ [kv])%list
        end
  end.

(** The outer loop of [FindClosest], at counter [i]. *)
Fixpoint FindClosest_loop (fuel : nat) (addr : Address.t) (index i : Z)
    (ret : list (option Entry.t)) : M t (list (option Entry.t)) :=
  if ((index - i >=? 0) || (index + i <=? len (Address.Raw addr) * 8))
     && (len ret <? BucketSize)
  then
    match fuel with
    | O => out_of_fuel
    | S fuel' =>
        do ret <-
          (if index - i >=? 0 then
             do ndb <- get;
             do bucket <- index_or_panic (table ndb) (Z.to_nat (index - i));
             FindClosest_range bucket (Slice.length bucket) 0 ret
           else pure ret);
        do ret <-
          (if index + i <? len (Address.Raw addr) * 8 then
             do ndb <- get;
             do bucket <- index_or_panic (table ndb) (Z.to_nat (index + i));
             FindClosest_range bucket (Slice.length bucket) 0 ret
           else pure ret);
        FindClosest_loop fuel' addr index (i + 1) ret
    end
  else pure ret.

(** [func (ndb *NetDB) FindClosest(addr Address) (Entries, error)] *)
Definition FindClosest (addr : Address.t) : M t (list (option Entry.t) * option error) :=
  do ndb <- get;
  let index := Z.of_nat (Address.LeadingZeroes (Address.Xor addr (NetDB.addr ndb))) in
  do bucket <- index_or_panic (table ndb) (Z.to_nat index);
  if Z.of_nat (Slice.length bucket) =? BucketSize then
    do ret <- queryAddresses bucket;
    pure (ret, None)
  else
    do ret <- FindClosest_loop (Z.to_nat (index + len (Address.Raw addr) * 8 + 2))
                addr index 0 [];
    pure (ret, None).

End WithExternals.

Section WithExternals.
Context `{X : Externals}.

(** [func (ndb *NetDB) insertIntoDB(entry Entry) (int64, error)] *)
Definition insertIntoDB (entry : Entry.t) : M t (Z * option error) :=
  let '(addressString, err) := Address_String (Entry.Address entry) in
  match err with
  | Some err => pure (0, Some err)
  | None =>
      do ndb <- get;
      let '(rows, affected, id) :=
        exec_insert_entry entry addressString (entry_rows ndb) in
      put (set_entry_rows rows ndb) ;;
      if affected =? 0 then pure (0, None)
      else
        do ndb <- get;
        put (set_fts_rows
               (exec_insert_fts id (Entry.Name entry) (Entry.Desc entry) (fts_rows ndb))
               ndb) ;;
        pure (affected, None)
  end.

(** [func (ndb *NetDB) InsertSeed(entry Address, seed Address) error] *)
Definition InsertSeed (entry seed : Address.t) : M t (option error) :=
  let '(entryAddressString, err) := Address_String entry in
  let '(seedAddressString, err) := Address_String seed in
  match err with
  | Some err => pure (Some err)
  | None =>
      do ndb <- get;
      match select_entry_by_address (entry_rows ndb) entryAddressString with
      | None => pure (Some sql_ErrNoRows)
      | Some entryRow =>
          match select_entry_by_address (entry_rows ndb) seedAddressString with
          | None => pure (Some sql_ErrNoRows)
          | Some seedRow =>
              put (set_seed_rows
                     (exec_insert_seed (Row.id seedRow) (Row.id entryRow) (seed_rows ndb))
                     ndb) ;;
              pure None
          end
      end
  end.

(** The two loops of [insertEntrySeeds]: [InsertSeed] on every element, in
    the order [f] gives to the pair, stopping at the first error. *)
Fixpoint InsertSeed_each (f : Address.t -> Address.t * Address.t) (l : list bytes)
  : M t (option error) :=
  match l with
  | [] => pure None
  | i :: l' =>
      let peer := Address.Build i in
      do err <- InsertSeed (fst (f peer)) (snd (f peer));
      match err with
      | Some err => pure (Some err)
      | None => InsertSeed_each f l'
      end
  end.

(** [func (ndb *NetDB) insertEntrySeeds(entry Entry) error] *)
Definition insertEntrySeeds (entry : Entry.t) : M t (option error) :=
  do err <- InsertSeed_each (fun peer => (peer, Entry.Address entry)) (Entry.Seeding entry);
  match err with
  | Some err => pure (Some err)
  | None => InsertSeed_each (fun peer => (Entry.Address entry, peer)) (Entry.Seeds entry)
  end.

(** [func (ndb *NetDB) Update(entry Entry) (int64, error)] *)
Definition Update (entry : Entry.t) : M t (Z * option error) :=
  match Entry.Verify (Some entry) with
  | Some err => pure (0, Some err)
  | None =>
      let '(addressString, err) := Address_String (Entry.Address entry) in
      match err with
      | Some err => pure (0, Some err)
      | None =>
          do ndb <- get;
          let '(rows, affected) := exec_update_entry entry addressString (entry_rows ndb) in
          put (set_entry_rows rows ndb) ;;
          pure (affected, None)
      end
  end.

(** [func (ndb *NetDB) Insert(entry Entry) (int64, error)] *)
Definition Insert (entry : Entry.t) : M t (Z * option error) :=
  match Entry.Verify (Some entry) with
  | Some err => pure (0, Some err)
  | None =>
      insertIntoTable (Entry.Address entry) ;;
      do (affected, err) <- Update entry;
      match err with
      | Some err => pure (0, Some err)
      | None =>
          if affected >? 0 then pure (affected, None)
          else
            do (affected, err) <- insertIntoDB entry;
            match err with
            | Some err => pure (0, Some err)
            | None =>
                do err <- insertEntrySeeds entry;
                pure (affected, err)
            end
      end
  end.

End WithExternals.

End NetDB.

(** ** Predicates used to state the properties of the routing table *)

Module NetDBSpec.
Import NetDB.

(** The bucket index of [addr] in the table of [ndb]. *)
Definition index_of (ndb : NetDB.t) (addr : Address.t) : nat :=
  Address.LeadingZeroes (Address.Xor addr (NetDB.addr ndb)).

(** The slices of the table are laid out as Go lays them out: 160 buckets,
    each on an array of its own that is at least as long as the slice. *)
Definition well_formed (ndb : NetDB.t) : Prop :=
  List.length (table ndb) = 160%nat /\
  NoDup (List.map Slice.array (table ndb)) /\
  forall i s, table ndb !! i = Some s ->
    exists arr, store ndb !! Slice.array s = Some arr /\
                (Slice.length s <= List.length arr)%nat.

(** A bucket holds at most [BucketSize] addresses, none of them twice. *)
Definition bucket_ok (l : list Address.t) : Prop :=
  len l <= BucketSize /\ NoDup l.

(** What [insertIntoTable addr] is to leave in a bucket that held [l]. *)
Definition touched (addr : Address.t) (l : list Address.t) : list Address.t :=
  if decide (addr ∈ l) then addr :: List.filter (fun x => negb (bool_decide (x = addr))) l
  else if decide (len l = BucketSize) then addr :: removelast l
  else addr :: l.

(** The states of the routing table: the one [NewNetDB] builds, and those
    that [insertIntoTable] and changes to the SQL tables lead to. *)
Inductive reachable (self : Address.t) : NetDB.t -> Prop :=
| reachable_new : reachable self (NewNetDB self)
| reachable_insert ndb addr ndb' :
    reachable self ndb ->
    insertIntoTable addr ndb = Done tt ndb' ->
    reachable self ndb'
| reachable_rows ndb entries seeds fts :
    reachable self ndb ->
    reachable self (set_fts_rows fts (set_seed_rows seeds (set_entry_rows entries ndb))).

(** The distances to [target] of the entries of a list ([nil] entries
    skipped), in the order of the list. *)
Definition distances (target : Address.t) (l : list (option Entry.t)) : list Address.t :=
  List.flat_map (fun o => match o with
                          | Some e => [Address.Xor (Entry.Address e) target]
                          | None => []
                          end) l.

(** Strictly ascending order of a list of distances. *)
Fixpoint strictly_ascending (l : list Address.t) : bool :=
  match l with
  | [] => true
  | d :: l' =>
      match l' with
      | [] => true
      | d' :: _ => Address.Less d d' && strictly_ascending l'
      end
  end.

(** The number of rows of [entry] whose address is [a]: the count that
    [UPDATE ... WHERE address=?] reports. *)
Definition matching_rows (a : string) (rows : list Row.t) : Z :=
  len (List.filter (fun r => String.eqb (Row.address r) a) rows).

(** The [UNIQUE] constraint on [entry.address]. *)
Definition unique_addresses (ndb : NetDB.t) : Prop :=
  NoDup (List.map Row.address (NetDB.entry_rows ndb)).

End NetDBSpec.

(** ** Concrete routing-table scenarios *)

Module Scenario.
Import Sample.

(** The local address: twenty zero bytes. *)
Definition self0 : Address.t := Address.Build (repeat x00 20).

(** A lookup target in bucket 2 of [self0], an entry in bucket 1 and an entry
    in bucket 3. *)
Definition target : Address.t := address_of_byte x20.
Definition entry_far : Entry.t := signed (unsigned_entry (address_of_byte x40)).
Definition entry_near : Entry.t := signed (unsigned_entry (address_of_byte x10)).

(** An entry in the bucket of [target]. *)
Definition entry_same_bucket : Entry.t := signed (unsigned_entry (address_of_byte x30)).

Section WithExternals.
Context `{X : Externals}.

(** Insert [entry_far] then [entry_near] into a new NetDB, then ask for the
    entries closest to [target]. *)
Definition closest_of_two : M NetDB.t (list (option Entry.t) * option error) :=
  do _ <- NetDB.Insert entry_far;
  do _ <- NetDB.Insert entry_near;
  NetDB.FindClosest target.

(** Insert [entry_same_bucket] into a new NetDB, then ask for the entries
    closest to [target]. *)
Definition closest_of_one : M NetDB.t (list (option Entry.t) * option error) :=
  do _ <- NetDB.Insert entry_same_bucket;
  NetDB.FindClosest target.

(** Insert the entries of [32 00..], [31 00..] and [30 00..], which all fall
    into the bucket of [target], then ask for the entries closest to
    [target]; gives the first byte of the address of each entry returned. *)
Definition closest_of_three : M NetDB.t (list (option byte)) :=
  do _ <- NetDB.Insert (signed (unsigned_entry (address_of_byte x32)));
  do _ <- NetDB.Insert (signed (unsigned_entry (address_of_byte x31)));
  do _ <- NetDB.Insert (signed (unsigned_entry (address_of_byte x30)));
  do r <- NetDB.FindClosest target;
  pure (List.map (option_map (fun e => hd x00 (Address.Raw (Entry.Address e)))) (fst r)).


End WithExternals.

End Scenario.

(** ** The framed reader of [proto.Client] *)

(** A connection seen from its reading end: the data still to arrive, in the
    pieces in which [Read] will deliver it. *)
Module Conn.

Record t := Build { incoming : list bytes }.

(** [conn.Read(p)] with [len(p) = size]: at most [size] bytes of the next
    piece, or [io.EOF] when nothing is left. *)
Definition Read (size : nat) (c : t) : bytes * option error * t :=
  match incoming c with
  | [] => ([], Some io_EOF, c)
  | p :: rest =>
      (take size p, None,
       Build (if decide (drop size p = []) then rest else drop size p :: rest))
  end.

End Conn.

(** [io.LimitedReader{R, N}.Read(p)] with [len(p) = size]:
    no read once [N <= 0], otherwise a read of at most [N] bytes, which are
    taken off [N]. *)
Definition LimitedReader_Read (size : nat) (N : Z) (R : Conn.t)
  : bytes * option error * Z * Conn.t :=
  if N <=? 0 then ([], Some io_EOF, N, R)
  else
    let size := if Z.of_nat size >? N then Z.to_nat N else size in
    let '(p, err, R) := Conn.Read size R in
    (p, err, N - len p, R).

(** What [msgpack.Decoder.Decode] does with its reader: it returns a value,
    fails, or asks its reader for up to [size] bytes and goes on from what it
    gets.  The decoder is outside the sources; every property below holds for
    each such behaviour. *)
Inductive decoding (A : Type) : Type :=
| Decoded (a : A)
| DecodeError (err : error)
| ReadCall (size : nat) (k : bytes -> option error -> decoding A).

Arguments Decoded {A} a.
Arguments DecodeError {A} err.
Arguments ReadCall {A} size k.

(** Run a decoder over the limited reader; gives the result, the number of
    bytes taken from the connection, and the reader's state. *)
Fixpoint run_decoding {A} (d : decoding A) (N : Z) (R : Conn.t)
  : (A + error) * Z * Z * Conn.t :=
  match d with
  | Decoded a => (inl a, 0, N, R)
  | DecodeError err => (inr err, 0, N, R)
  | ReadCall size k =>
      let '(p, err, N, R) := LimitedReader_Read size N R in
      let '(r, consumed, N, R) := run_decoding (k p err) N R in
      (r, len p + consumed, N, R)
  end.

Module Message.

Record t := Build {
  Header : string;
  Content : payload
}.

End Message.

(** Modelled from the spec: the header constants are not in the sources; the
    spec lists the headers. *)
Definition ProtoOk : string := "ok".
Definition ProtoNo : string := "no".
Definition ProtoDhtQuery : string := "dht.query".
Definition ProtoDhtFindClosest : string := "dht.find_closest".
Definition ProtoDhtEntries : string := "dht.entries".

Module Client.

Record t := Build {
  conn : Conn.t;
  (** [limiter]: [nil], or the remaining budget [N] of the limited reader *)
  limiter : option Z;
  (** whether [decoder] is set *)
  decoder : bool
}.

Section WithLimit.
(** [common.MaxMessageSize], a constant that is not in the sources. *)
Variable MaxMessageSize : Z.

(** [func NewClient(conn net.Conn)], returning the client and the error *)
Definition NewClient (conn : Conn.t) : t * option error :=
  (Build conn (Some MaxMessageSize) true, None).

(** [func (c *Client) ReadMessage()], returning the message and the error, where
    [decode] is what [c.decoder.Decode(&msg)] does on this call.  Gives the
    message, the error, the number of bytes taken from the connection, and
    the client. *)
Definition ReadMessage (decode : decoding Message.t) (c : t)
  : option Message.t * option error * Z * t :=
  let N := match limiter c with
           | None => MaxMessageSize
           | Some N => N
           end in
  let '(r, consumed, N, conn) := run_decoding decode N (conn c) in
  match r with
  | inr err => (None, Some err, consumed, Build conn (Some MaxMessageSize) true)
  | inl msg => (Some msg, None, consumed, Build conn (Some MaxMessageSize) true)
  end.

(** A sequence of calls of [ReadMessage], one decoder behaviour per call;
    gives the number of bytes each call took from the connection. *)
Fixpoint ReadMessages (decodes : list (decoding Message.t)) (c : t) : list Z * t :=
  match decodes with
  | [] => ([], c)
  | d :: decodes' =>
      let '(_, _, consumed, c) := ReadMessage d c in
      let '(l, c) := ReadMessages decodes' c in
      (consumed :: l, c)
  end.

(** [func (c *Client) Decode(i interface{}) error]: the decoder is used as it
    is, the budget is not reset.  [None] is the nil-pointer panic of a client
    whose decoder was never set. *)
Definition Decode {A} (decode : decoding A) (c : t) : option ((A + error) * Z * t) :=
  match decoder c, limiter c with
  | true, Some N =>
      let '(r, consumed, N, conn) := run_decoding decode N (conn c) in
      Some (r, consumed, Build conn (Some N) true)
  | _, _ => None
  end.

(** The clients the code can hold: one built by [NewClient], a zero-valued
    one that only had its connection set (as [OpenStream] and [AddStream]
    build them), and what [ReadMessage] and [Decode] turn these into. *)
Inductive reachable : t -> Prop :=
| reachable_NewClient conn : reachable (fst (NewClient conn))
| reachable_zero conn : reachable (Build conn None false)
| reachable_ReadMessage decode c :
    reachable c -> reachable (snd (ReadMessage decode c))
| reachable_Decode (A : Type) (decode : decoding A) c r :
    reachable c -> Decode decode c = Some r -> reachable (snd r).

End WithLimit.

End Client.

(** ** Messages, the DHT handlers of the server and the DHT requests of the
    client *)

Module Protocol.

Section WithExternals.
Context `{X : Externals} `{P : Msgpack}.

(** Modelled from the spec: [Message.Write] is not in the sources; it encodes
    the value into [Content] (as [WriteInt], which is in the sources, does with
    [msgpack.Marshal]) and gives the encoder's error. *)
Definition Message_Write (v : payload) (m : Message.t) : Message.t * option error :=
  match Marshal_error v with
  | Some err => (m, Some err)
  | None => (Message.Build (Message.Header m) v, None)
  end.

(** Modelled from the spec: [Message.Read] is not in the sources; it decodes
    [Content] into the value it is given, here an [Address]; a content of
    another schema is a decoding error. *)
Definition Message_Read_Address (m : Message.t) : Address.t * option error :=
  match Message.Content m with
  | PAddress a => (a, None)
  | _ => (Address.Build [], Some (errors_New "msgpack: unexpected content"))
  end.

Definition zero_Entry : Entry.t :=
  Entry.Build (Address.Build []) "" "" "" [] 0 0 [] [] 0 [] [] 0 (Address.Build []).

(** [Message.Read] into an [Entry]. *)
Definition Message_Read_Entry (m : Message.t) : Entry.t * option error :=
  match Message.Content m with
  | PEntry e => (e, None)
  | _ => (zero_Entry, Some (errors_New "msgpack: unexpected content"))
  end.

(** [Message.Read] into a slice of [Entry] pointers. *)
Definition Message_Read_Entries (m : Message.t) : list (option Entry.t) * option error :=
  match Message.Content m with
  | PEntries l => (l, None)
  | _ => ([], Some (errors_New "msgpack: unexpected content"))
  end.

End WithExternals.

End Protocol.

(** The local peer as the DHT handlers use it. *)
Module LocalPeer.

Record t := Build {
  address : Address.t;
  Entry : Entry.t;
  (** Modelled from the spec: the type [dht.DHT] is not in the sources; it
      wraps the NetDB. *)
  DHT : NetDB.t
}.

Definition set_DHT (d : NetDB.t) (lp : t) : t := Build (address lp) (Entry lp) d.

(** Run a NetDB operation on the DHT of the local peer. *)
Definition on_DHT {A} (c : M NetDB.t A) : M t A :=
  fun lp =>
    match c (DHT lp) with
    | Done a d => Done a (set_DHT d lp)
    | Panic => Panic
    | OutOfFuel => OutOfFuel
    end.

Section WithExternals.
Context `{X : Externals}.

(** Modelled from the spec: [DHT.Query], [DHT.FindClosest] and [DHT.Insert]
    are not in the sources; they are the NetDB operations of the same names,
    [Query] without the row id. *)
Definition DHT_Query (addr : Address.t) : M t (option Entry.t * option error) :=
  do (kv, _, err) <- on_DHT (NetDB.Query addr);
  pure (kv, err).

Definition DHT_FindClosest (addr : Address.t)
  : M t (list (option Entry.t) * option error) :=
  on_DHT (NetDB.FindClosest addr).

Definition DHT_Insert (entry : Entry.t) : M t (Z * option error) :=
  on_DHT (NetDB.Insert entry).

End WithExternals.

End LocalPeer.

(** The server side: a handler runs on the local peer and on the stream of
    the request, on which [cl.WriteMessage] writes the replies. *)
Module Server.

Record state := Build {
  lp : LocalPeer.t;
  (** the messages written on the stream so far, oldest first *)
  written : list Message.t
}.

Definition on_lp {A} (c : M LocalPeer.t A) : M state A :=
  fun s =>
    match c (lp s) with
    | Done a l => Done a (Build l (written s))
    | Panic => Panic
    | OutOfFuel => OutOfFuel
    end.

(** [func (c *Client) WriteMessage(v interface{}) error] on the stream of
    the request. *)
Definition WriteMessage (v : Message.t) : M state (option error) :=
  fun s => Done None (Build (lp s) (written s ++ [v])%list).

Section WithExternals.
Context `{X : Externals} `{P : Msgpack}.

(** [func (lp *LocalPeer) HandleQuery(msg *proto.Message) error] *)
Definition HandleQuery (msg : Message.t) : M state (option error) :=
  let '(address, err) := Protocol.Message_Read_Address msg in
  match err with
  | Some err => pure (Some err)
  | None =>
      do s <- get;
      if Address.Equals address (LocalPeer.address (lp s)) then
        let msg := Message.Build ProtoDhtQuery PUnset in
        let '(msg, err) :=
          Protocol.Message_Write (PEntry (LocalPeer.Entry (lp s))) msg in
        match err with
        | Some err => pure (Some err)
        | None =>
            do err <- WriteMessage msg;
            pure err
        end
      else
        do (kv, err') <- on_lp (LocalPeer.DHT_Query address);
        match err' with
        | Some err' => pure (Some err')
        | None =>
            (match kv with
             | None => do _ <- WriteMessage (Message.Build ProtoNo PUnset); pure tt
             | Some _ => pure tt
             end) ;;
            let msg := Message.Build ProtoDhtQuery PUnset in
            let '(msg, err') :=
              Protocol.Message_Write
                (match kv with Some kv => PEntry kv | None => PNil end) msg in
            match err' with
            | Some err' => pure (Some err')
            | None =>
                (* the error of this write goes to the inner [err]; the
                   function returns the outer one *)
                do _ <- WriteMessage msg;
                pure err
            end
        end
  end.

(** [func (lp *LocalPeer) HandleFindClosest(msg *proto.Message) error] *)
Definition HandleFindClosest (msg : Message.t) : M state (option error) :=
  let '(address, err) := Protocol.Message_Read_Address msg in
  match err with
  | Some err => pure (Some err)
  | None =>
      let results := Message.Build ProtoDhtEntries PUnset in
      do (pairs, err) <- on_lp (LocalPeer.DHT_FindClosest address);
      match err with
      | Some err => pure (Some err)
      | None =>
          let '(results, _) := Protocol.Message_Write (PEntries pairs) results in
          do err <- WriteMessage results;
          pure err
      end
  end.

(** What the server of [l] writes on a new stream in reply to a request, for
    the two DHT requests, as [RouteMessage] dispatches them. *)
Definition replies (l : LocalPeer.t) (request : Message.t) : list Message.t :=
  let handler :=
    if String.eqb (Message.Header request) ProtoDhtQuery then HandleQuery request
    else if String.eqb (Message.Header request) ProtoDhtFindClosest
         then HandleFindClosest request
         else pure None in
  match handler (Build l []) with
  | Done _ s => written s
  | _ => []
  end.

End WithExternals.

End Server.

(** The client side of a stream: what the peer at the other end writes in
    reply to a request. *)
Definition Stream := Message.t -> list Message.t.

Module Request.

Section WithExternals.
Context `{X : Externals} `{P : Msgpack}.

(** [c.ReadMessage()] on a stream on which the peer wrote [frames]: the
    first of them, or [io.EOF] when the peer wrote nothing before the stream
    was closed. *)
Definition receive (frames : list Message.t) : option Message.t * option error :=
  match frames with
  | [] => (None, Some io_EOF)
  | m :: _ => (Some m, None)
  end.

(** [func (c *Client) Query(address dht.Address)], returning the entry
    pointer and the error. *)
Definition Query (address : Address.t) (stream : Stream)
  : option Entry.t * option error :=
  let msg := Message.Build ProtoDhtQuery PUnset in
  let '(msg, err) := Protocol.Message_Write (PAddress address) msg in
  match err with
  | Some err => (None, Some err)
  | None =>
      match receive (stream msg) with
      | (_, Some err) => (None, Some err)
      | (None, None) => (None, Some io_EOF)
      | (Some er, None) =>
          if String.eqb (Message.Header er) ProtoNo then
            (None, Some (errors_New "Peer returned no"))
          else
            let '(entry, err) := Protocol.Message_Read_Entry er in
            match err with
            | Some err => (None, Some err)
            | None =>
                match Entry.Verify (Some entry) with
                | Some err => (None, Some err)
                | None => (Some entry, None)
                end
            end
      end
  end.

(** [func (c *Client) FindClosest(address dht.Address)], returning the
    entries and the error. *)
Definition FindClosest (address : Address.t) (stream : Stream)
  : list (option Entry.t) * option error :=
  let msg := Message.Build ProtoDhtFindClosest PUnset in
  let '(msg, err) := Protocol.Message_Write (PAddress address) msg in
  match err with
  | Some err => ([], Some err)
  | None =>
      match receive (stream msg) with
      | (_, Some err) => ([], Some err)
      | (None, None) => ([], Some io_EOF)
      | (Some closest, None) =>
          let '(ret, err) := Protocol.Message_Read_Entries closest in
          match err with
          | Some err => ([], Some err)
          | None => (ret, None)
          end
      end
  end.

End WithExternals.

End Request.

(** ** The resolver of the peer manager *)

(** A value of the interface type [common.Verifier]: the [nil] interface, or
    an [Entry] pointer, which may itself be [nil]. *)
Inductive Verifier : Type :=
| Verifier_nil
| Verifier_Entry (p : option Entry.t).

(** The rest of the network as the resolver meets it.  Connections are not
    modelled beyond their outcome, and what a new connection adds to the local
    NetDB and peer map is not tracked. *)
Module Network.

Record t := Build {
  (** [pm.GetPeer(e.Address)] and, when that gives no peer,
      [pm.ConnectPeerDirect] to the public address and port of [e]: the error
      when no peer is obtained *)
  connect : Entry.t -> option error;
  (** [p.Ping] and [p.OpenStream] on that peer: the error when one of them
      fails, otherwise the stream, on which the peer's server replies *)
  OpenStream : Entry.t -> Stream + error
}.

End Network.

Module PeerManager.

Section WithExternals.
Context `{X : Externals} `{P : Msgpack}.

(** [func (p *Peer) Query(address dht.Address) (common.Verifier, error)] *)
Definition Peer_Query (net : Network.t) (p : Entry.t) (address : Address.t)
  : Verifier * option error :=
  match Network.OpenStream net p with
  | inr err => (Verifier_nil, Some err)
  | inl stream =>
      let '(entry, err) := Request.Query address stream in
      (Verifier_Entry entry, err)
  end.

(** [func (p *Peer) FindClosest(address dht.Address) ([]common.Verifier, error)] *)
Definition Peer_FindClosest (net : Network.t) (p : Entry.t) (address : Address.t)
  : list Verifier * option error :=
  match Network.OpenStream net p with
  | inr err => ([], Some err)
  | inl stream =>
      let '(res, err) := Request.FindClosest address stream in
      (List.map Verifier_Entry res, err)
  end.

(** [func (pm *PeerManager) resolveStep(e *dht.Entry, addr dht.Address, depth *int)],
    returning the entry pointer and the error; the state is [*depth]. *)
Fixpoint resolveStep (fuel : nat) (net : Network.t) (e : option Entry.t)
    (addr : Address.t) : M Z (option Entry.t * option error) :=
  do depth <- get;
  if depth =? 0 then pure (None, Some RecursionLimit)
  else
    match fuel with
    | O => out_of_fuel
    | S fuel' =>
        put (depth - 1) ;;
        match e with
        | None => panic
        | Some e =>
            match Network.connect net e with
            | Some err => pure (None, Some err)
            | None =>
                let '(kv, err) := Peer_Query net e addr in
                match err with
                | Some err => pure (None, Some err)
                | None =>
                    match kv with
                    | Verifier_Entry entry => pure (entry, err)
                    | Verifier_nil =>
                        let '(closest, err) := Peer_FindClosest net e addr in
                        match err with
                        | Some err => pure (None, Some err)
                        | None =>
                            (fix range (closest : list Verifier) :=
                               match closest with
                               | [] =>
                                   pure (None,
                                         Some (errors_New "No entries could be found"))
                               | Verifier_nil :: _ => panic
                               | Verifier_Entry entry :: rest =>
                                   do (result, err) <- resolveStep fuel' net entry addr;
                                   match err with
                                   | Some err => pure (None, Some err)
                                   | None =>
                                       match result with
                                       | Some result => pure (Some result, None)
                                       | None => range rest
                                       end
                                   end
                               end) closest
                        end
                    end
                end
            end
        end
    end.

(** [err == RecursionLimit] *)
Definition is_RecursionLimit (err : error) : bool :=
  match err with
  | RecursionLimit => true
  | _ => false
  end.

(** The loop of [Resolve] over [closest], with the value of [depth]. *)
Fixpoint Resolve_range (net : Network.t) (addr : Address.t)
    (closest : list (option Entry.t)) (depth : Z)
  : M LocalPeer.t (option Entry.t * option error) :=
  match closest with
  | [] => pure (None, Some (errors_New "Address could not be resolved"))
  | i :: rest =>
      match resolveStep (Z.to_nat depth) net i addr depth with
      | Panic => panic
      | OutOfFuel => out_of_fuel
      | Done (entry, err) depth =>
          match err with
          | Some err =>
              if is_RecursionLimit err then pure (None, Some err)
              else Resolve_range net addr rest depth
          | None =>
              match entry with
              | None => Resolve_range net addr rest depth
              | Some entry =>
                  if Address.Equals (Entry.Address entry) addr then
                    do _ <- LocalPeer.DHT_Insert entry;
                    pure (Some entry, None)
                  else Resolve_range net addr rest depth
              end
          end
      end
  end.

(** [func (pm *PeerManager) Resolve(addr dht.Address)], returning the entry
    pointer and the error. *)
Definition Resolve (net : Network.t) (addr : Address.t)
  : M LocalPeer.t (option Entry.t * option error) :=
  do lp <- get;
  if Address.Equals addr (LocalPeer.address lp) then
    pure (Some (LocalPeer.Entry lp), None)
  else
    do (kv, err) <- LocalPeer.DHT_Query addr;
    let err := match err with
               | Some sql_ErrNoRows => None
               | _ => err
               end in
    match err with
    | Some err => pure (None, Some err)
    | None =>
        match kv with
        | Some kv => pure (Some kv, None)
        | None =>
            do (closest, err) <- LocalPeer.DHT_FindClosest addr;
            match err with
            | Some err => pure (None, Some err)
            | None => Resolve_range net addr closest 6
            end
        end
    end.

(** What [resolveStep] gives for a peer it can be called on with a non-zero
    depth, read off the connection and the reply to the query alone. *)
Definition resolve_direct (net : Network.t) (e : Entry.t) (addr : Address.t)
  : option Entry.t * option error :=
  match Network.connect net e with
  | Some err => (None, Some err)
  | None =>
      match Network.OpenStream net e with
      | inr err => (None, Some err)
      | inl stream => Request.Query addr stream
      end
  end.

End WithExternals.

End PeerManager.

(** ** Concrete networks *)

Module ResolveScenario.
Import Sample Scenario.

#[local] Existing Instance Sample.externals.
#[local] Existing Instance Sample.msgpack.

(** The state in which a computation leaves [s]; [s] itself when it does not
    return. *)
Definition after {S A} (c : M S A) (s : S) : S :=
  match c s with
  | Done _ s' => s'
  | _ => s
  end.

Definition address_A : Address.t := address_of_byte x40.
Definition address_B : Address.t := address_of_byte x10.
Definition entry_A : Entry.t := signed (unsigned_entry address_A).
Definition entry_B : Entry.t := signed (unsigned_entry address_B).
Definition entry_T : Entry.t := signed (unsigned_entry target).
Definition entry_self : Entry.t := signed (unsigned_entry self0).

(** The local peer knows [A] only; [A] knows [B] only; [B] knows the
    target. *)
Definition local : LocalPeer.t :=
  LocalPeer.Build self0 entry_self (after (NetDB.Insert entry_A) (NetDB.NewNetDB self0)).
Definition node_A : LocalPeer.t :=
  LocalPeer.Build address_A entry_A (after (NetDB.Insert entry_B) (NetDB.NewNetDB address_A)).
Definition node_B : LocalPeer.t :=
  LocalPeer.Build address_B entry_B (after (NetDB.Insert entry_T) (NetDB.NewNetDB address_B)).

(** The network in which [A] and [B] can be reached and are served by
    [node_A] and [node_B]. *)
Definition chain : Network.t :=
  Network.Build (fun _ => None)
    (fun e =>
       if Address.Equals (Entry.Address e) address_A then inl (Server.replies node_A)
       else if Address.Equals (Entry.Address e) address_B then inl (Server.replies node_B)
       else inr PeerUnreachable).

(** Seven peers in seven buckets, none of which knows the address
    [01 00..00]. *)
Definition seven_bytes : list byte := [x02; x04; x08; x10; x20; x40; x80].

Definition seven_entries : list Entry.t :=
  List.map (fun b => signed (unsigned_entry (address_of_byte b))) seven_bytes.

Fixpoint Insert_all (l : list Entry.t) : M NetDB.t unit :=
  match l with
  | [] => pure tt
  | e :: l' => do _ <- NetDB.Insert e; Insert_all l'
  end.

Definition local7 : LocalPeer.t :=
  LocalPeer.Build self0 entry_self (after (Insert_all seven_entries) (NetDB.NewNetDB self0)).

(** The server of the peer with entry [e], whose NetDB is empty. *)
Definition empty_node (e : Entry.t) : LocalPeer.t :=
  LocalPeer.Build (Entry.Address e) e (NetDB.NewNetDB (Entry.Address e)).

(** The network in which every peer can be reached and has an empty NetDB. *)
Definition strangers : Network.t :=
  Network.Build (fun _ => None) (fun e => inl (Server.replies (empty_node e))).

Definition unknown_address : Address.t := address_of_byte x01.

End ResolveScenario.

(** ** The peer map of the peer manager *)

(** [cmap.ConcurrentMap] with string keys: the items, without repeated keys.
    The library fixes no order of iteration; the order in which an iteration
    yields the items is given separately, where the code iterates. *)
Module cmap.

Definition t (V : Type) : Type := list (string * V).

Definition Get {V} (key : string) (m : t V) : option V :=
  snd <$> List.find (fun kv => String.eqb (fst kv) key) m.

Definition Has {V} (key : string) (m : t V) : bool :=
  match Get key m with
  | Some _ => true
  | None => false
  end.

Definition Remove {V} (key : string) (m : t V) : t V :=
  List.filter (fun kv => negb (String.eqb (fst kv) key)) m.

(** [Set]: the key is given the value; the item is the last to have been
    written. *)
Definition Set_ {V} (key : string) (v : V) (m : t V) : t V :=
  (Remove key m ++ [(key, v)])%list.

Definition Count {V} (m : t V) : Z := len m.

End cmap.

Module Manager.

(** A connected peer: its address, its cached entry, and whether
    [Terminate] has closed its session. *)
Record Peer := Build_Peer {
  address : Address.t;
  entry : option Entry.t;
  terminated : bool
}.

Record t := Build {
  peers : cmap.t Peer;
  peerSeen : cmap.t Z;
  publicToZif : cmap.t Address.t;
  (** the seed managers, with whether the close signal was sent to them *)
  seedManagers : cmap.t bool
}.

(** [string(addr.Raw)], the key of a peer in the maps. *)
Definition key (a : Address.t) : string := string_of_list_byte (Address.Raw a).

(** [func (p *Peer) Terminate()] *)
Definition Terminate (p : Peer) : Peer := Build_Peer (address p) (entry p) true.

(** [func (pm *PeerManager) HandleCloseConnection(addr *dht.Address)] *)
Definition HandleCloseConnection (addr : Address.t) (pm : t) : t :=
  Build (cmap.Remove (key addr) (peers pm))
        (cmap.Remove (key addr) (peerSeen pm))
        (publicToZif pm)
        (List.map (fun kv => if String.eqb (fst kv) (key addr) then (fst kv, true) else kv)
           (seedManagers pm)).

(** The scan of [SetPeer] for "the least recently seen peer", over the items
    of [peerSeen] in the order in which the iteration yields them: the key is
    replaced whenever the time is below [oldestValue], which is never
    updated. *)
Fixpoint oldest_scan (items : list (string * Z)) (oldestKey : string) (oldestValue : Z)
  : string :=
  match items with
  | [] => oldestKey
  | i :: items' =>
      let time := snd i in
      if time <? oldestValue then oldest_scan items' (fst i) oldestValue
      else oldest_scan items' oldestKey oldestValue
  end.

Section WithEnvironment.
(** [viper.GetInt("net.maxPeers")] *)
Variable maxPeers : Z.
(** The order in which [peerSeen.IterBuffered()] yields the items of the
    map. *)
Variable IterBuffered : cmap.t Z -> list (string * Z).
(** [time.Now().UnixNano()] at the [n]-th round of the eviction loop. *)
Variable now_at_round : nat -> Z.

(** The eviction loop of [SetPeer]; gives the peers it terminated, in order.
    [round] counts the rounds done. *)
Fixpoint evict (fuel round : nat) (pm : t) (closed : list Peer)
  : outcome t (list Peer) :=
  if cmap.Count (peers pm) >? maxPeers then
    match fuel with
    | O => OutOfFuel
    | S fuel' =>
        let oldestKey := "" in
        let oldestValue := now_at_round round in
        let oldestKey := oldest_scan (IterBuffered (peerSeen pm)) oldestKey oldestValue in
        match cmap.Get oldestKey (peers pm) with
        | None => Done closed pm
        | Some peer =>
            evict fuel' (S round) (HandleCloseConnection (address peer) pm)
              (closed ++ [Terminate peer])%list
        end
    end
  else Done closed pm.

(** [func (pm *PeerManager) SetPeer(p *Peer)], with the time [now] of the
    call and [fetched], what [p.GetEntry()] gives when the entry of [p] is not
    cached.  Gives the peers terminated by the eviction loop.  The heartbeat
    and announce loops that are started at the end are not modelled. *)
Definition SetPeer (now : Z) (fetched : option Entry.t * option error) (p : Peer)
  : M t (list Peer) :=
  do pm <- get;
  if cmap.Has (key (address p)) (peers pm) then pure []
  else
    let '(e, err) := match entry p with
                     | Some e => (Some e, None)
                     | None => fetched
                     end in
    match err with
    | Some _ => pure []
    | None =>
        match e with
        | None => panic
        | Some e =>
            let p := Build_Peer (address p) (Some e) (terminated p) in
            let pm := Build (cmap.Set_ (key (address p)) p (peers pm))
                            (cmap.Set_ (key (address p)) now (peerSeen pm))
                            (cmap.Set_ (Entry.PublicAddress e) (address p) (publicToZif pm))
                            (seedManagers pm) in
            fun _ => evict (Z.to_nat (cmap.Count (peers pm))) 0 pm []
        end
    end.

End WithEnvironment.

End Manager.

(** Three peers [P1], [P2], [P3]; [P1] and [P2] are connected and were last
    seen at times 0 and 1. *)
Module EvictionScenario.
Import Sample.

Definition P (b : byte) : Manager.Peer :=
  Manager.Build_Peer (address_of_byte b) (Some (signed (unsigned_entry (address_of_byte b))))
    false.

Definition P1 : Manager.Peer := P x01.
Definition P2 : Manager.Peer := P x02.
Definition P3 : Manager.Peer := P x03.

Definition key_of (p : Manager.Peer) : string := Manager.key (Manager.address p).

Definition two_peers : Manager.t :=
  Manager.Build [(key_of P1, P1); (key_of P2, P2)]
                [(key_of P1, 0); (key_of P2, 1)]
                [] [].

(** [SetPeer(P3)] at time 2 with [maxPeers = 2], the eviction scan running at
    time 3, with the iteration yielding the items in the order [order]. *)
Definition connect_P3 (order : cmap.t Z -> list (string * Z))
  : outcome Manager.t (list Manager.Peer) :=
  Manager.SetPeer 2 order (fun _ => 3) 2 (None, None) P3 two_peers.

(** Two more iteration orders: the last two items exchanged, and the items
    in reverse. *)
Definition swap_last_two {A} (l : list A) : list A :=
  match l with
  | [a; b; c] => [a; c; b]
  | _ => l
  end.

(** The first bytes of the addresses of the peers terminated by a run and of
    the peers left in the map. *)
Definition evicted_and_kept (o : outcome Manager.t (list Manager.Peer))
  : option (list byte * list byte) :=
  match o with
  | Done closed pm =>
      Some (List.map (fun p => hd x00 (Address.Raw (Manager.address p))) closed,
            List.map (fun kv => hd x00 (Address.Raw (Manager.address (snd kv))))
              (Manager.peers pm))
  | _ => None
  end.

End EvictionScenario.

(** ** More of [Entry]: field updates, integers that are no code point, and
    [ShuffleEntries] *)

Module EntryMore.
Import Entry.

(** The entry [e] with its [Name] and [Desc] fields replaced. *)
Definition with_Name_Desc (name desc : string) (e : Entry.t) : Entry.t :=
  Entry.Build (Address e) name desc (PublicAddress e) (PublicKey e) (PostCount e)
    (Updated e) (Signature e) (CollectionHash e) (Port e) (Seeds e) (Seeding e)
    (Seen e) (distance e).

(** An integer that is not a Unicode code point: negative, above U+10FFFF,
    or a surrogate. *)
Definition not_a_code_point (i : Z) : Prop :=
  i < 0 \/ 1114111 < i \/ 55296 <= i <= 57343.

(** [slice[i], slice[j] = slice[j], slice[i]]; a panic when an index is out
    of range. *)
Definition swap {A} (i j : nat) (slice : list A) : option (list A) :=
  match slice !! i, slice !! j with
  | Some x, Some y => Some (<[i := y]> (<[j := x]> slice))
  | _, _ => None
  end.

(** The loop of [ShuffleEntries] from position [i], over the [n] positions
    that remain.  [rand_Intn i] is what the call [rand.Intn(i + 1)] of
    iteration [i] gives; [None] is the panic of an index out of range. *)
Fixpoint ShuffleEntries_from {A} (rand_Intn : nat -> nat) (n i : nat) (slice : list A)
  : option (list A) :=
  match n with
  | O => Some slice
  | S n' =>
      let j := rand_Intn i in
      match swap i j slice with
      | Some slice => ShuffleEntries_from rand_Intn n' (S i) slice
      | None => None
      end
  end.

(** [func ShuffleEntries(slice Entries)]; gives the slice as the call leaves
    it. *)
Definition ShuffleEntries {A} (rand_Intn : nat -> nat) (slice : list A)
  : option (list A) :=
  ShuffleEntries_from rand_Intn (List.length slice) 0 slice.

End EntryMore.

(** ** More of the routing table *)

Module TableMore.
Import NetDB.

(** [func (ndb *NetDB) TableLen() int] *)
Definition TableLen (ndb : NetDB.t) : Z :=
  fold_left (fun size i => size + Z.of_nat (Slice.length i)) (table ndb) 0.

(** The sum of the lengths of the 160 buckets. *)
Definition buckets_total (ndb : NetDB.t) : Z :=
  fold_right Z.add 0 (List.map (fun i => len (bucket ndb i)) (seq 0 160)).

(** The table of [Scenario.self0] after [insertIntoTable] of 01 00..00. *)
Definition one_address : NetDB.t :=
  match insertIntoTable (Sample.address_of_byte x01) (NewNetDB Scenario.self0) with
  | Done _ ndb => ndb
  | _ => NewNetDB Scenario.self0
  end.

End TableMore.

(** ** More of the entry store *)

Module StoreMore.
Import NetDB NetDBSpec.

(** [ORDER BY id DESC] *)
Fixpoint insert_by_id_desc (r : Row.t) (l : list Row.t) : list Row.t :=
  match l with
  | [] => [r]
  | x :: l' => if Row.id x <? Row.id r then r :: l else x :: insert_by_id_desc r l'
  end.

Definition order_by_id_desc (rows : list Row.t) : list Row.t :=
  fold_right insert_by_id_desc [] rows.

(** [SELECT * FROM entry ORDER BY id DESC LIMIT 20] *)
Definition select_latest (rows : list Row.t) : list Row.t :=
  take 20 (order_by_id_desc rows).

Section WithExternals.
Context `{X : Externals}.

(** The scan loop of [QueryLatest]: the address column is scanned into a
    local variable, the other columns into the entry. *)
Fixpoint QueryLatest_scan (ndb : NetDB.t) (entries : list Row.t) (ret : list Entry.t)
  : list Entry.t * option error :=
  match entries with
  | [] => (ret, None)
  | row :: entries' =>
      let e := Entry.Build (Address.Build []) (Row.name row) (Row.desc row)
                 (Row.publicAddress row) (Row.publicKey row) (Row.postCount row)
                 (Row.updated row) (Row.signature row) (Row.collectionHash row)
                 (Row.port row) [] [] (Row.seen row) (Address.Build []) in
      let '(e, err) := addSeedToEntry ndb e (Row.id row) in
      match err with
      | Some err => ([], Some err)
      | None => QueryLatest_scan ndb entries' (ret ++ [e])%list
      end
  end.

(** [func (ndb *NetDB) QueryLatest() ([]Entry, error)] *)
Definition QueryLatest (ndb : NetDB.t) : list Entry.t * option error :=
  QueryLatest_scan ndb (select_latest (entry_rows ndb)) [].

End WithExternals.

(** Every run of [c] that returns relates the state before to the state
    after by [R]. *)
Definition preserves {A} (R : NetDB.t -> NetDB.t -> Prop) (c : M NetDB.t A) : Prop :=
  forall s a s', c s = Done a s' -> R s s'.

(** The SQL tables and the local address are the same in both states. *)
Definition same_sql (s s' : NetDB.t) : Prop :=
  entry_rows s' = entry_rows s /\ seed_rows s' = seed_rows s /\
  fts_rows s' = fts_rows s /\ NetDB.addr s' = NetDB.addr s.

(** The limits of [Entry.Verify], on the columns of a row. *)
Definition row_valid (r : Row.t) : Prop :=
  len_string (Row.name r) <= MaxEntryNameLength /\
  len_string (Row.desc r) <= MaxEntryDescLength /\
  1 <= len_string (Row.publicAddress r) < MaxEntryPublicAddressLength /\
  Row.port r <= 65535 /\
  ed25519_PublicKeySize <= len (Row.publicKey r) /\
  ed25519_SignatureSize <= len (Row.signature r) /\
  0 <= Row.seedCount r <= MaxEntrySeeds.

(** The ids 1, 2, ..., n. *)
Definition ids_up_to (n : nat) : list Z := List.map Z.of_nat (seq 1 n).

(** What the SQL tables of a NetDB satisfy: addresses are unique, ids count
    up from 1 in insertion order, every row is within the limits of
    [Entry.Verify] and has its full-text row, and the seed table relates
    rows of the entry table, no pair twice. *)
Record store_ok (ndb : NetDB.t) : Prop := Build_store_ok {
  store_unique : unique_addresses ndb;
  store_ids : List.map Row.id (entry_rows ndb) = ids_up_to (List.length (entry_rows ndb));
  store_valid : Forall row_valid (entry_rows ndb);
  store_fts : List.map FtsRow.docid (fts_rows ndb) = List.map Row.id (entry_rows ndb);
  store_seed_refs :
    Forall (fun s => 1 <= SeedRow.seed s <= len (entry_rows ndb) /\
                     1 <= SeedRow.for_ s <= len (entry_rows ndb)) (seed_rows ndb);
  store_seed_unique :
    NoDup (List.map (fun s => (SeedRow.seed s, SeedRow.for_ s)) (seed_rows ndb))
}.

Section WithExternals.
Context `{X : Externals}.

(** The states of a NetDB that its exported methods lead to. *)
Inductive api_reachable (self : Address.t) : NetDB.t -> Prop :=
| api_NewNetDB : api_reachable self (NewNetDB self)
| api_Insert ndb entry r ndb' :
    api_reachable self ndb -> Insert entry ndb = Done r ndb' -> api_reachable self ndb'
| api_Update ndb entry r ndb' :
    api_reachable self ndb -> Update entry ndb = Done r ndb' -> api_reachable self ndb'
| api_InsertSeed ndb entry seed r ndb' :
    api_reachable self ndb -> InsertSeed entry seed ndb = Done r ndb' ->
    api_reachable self ndb'
| api_Query ndb addr r ndb' :
    api_reachable self ndb -> Query addr ndb = Done r ndb' -> api_reachable self ndb'
| api_FindClosest ndb addr r ndb' :
    api_reachable self ndb -> FindClosest addr ndb = Done r ndb' -> api_reachable self ndb'.

End WithExternals.

(** The columns that [Query] and [QueryLatest] scan into an entry are those
    of [e]. *)
Definition same_columns (e e' : Entry.t) : Prop :=
  Entry.Name e' = Entry.Name e /\ Entry.Desc e' = Entry.Desc e /\
  Entry.PublicAddress e' = Entry.PublicAddress e /\
  Entry.PublicKey e' = Entry.PublicKey e /\ Entry.PostCount e' = Entry.PostCount e /\
  Entry.Updated e' = Entry.Updated e /\ Entry.Signature e' = Entry.Signature e /\
  Entry.CollectionHash e' = Entry.CollectionHash e /\ Entry.Port e' = Entry.Port e /\
  Entry.Seen e' = Entry.Seen e.

Section WithExternals.
Context `{X : Externals}.

(** Every address stored in the entry table can be decoded. *)
Definition decodable (ndb : NetDB.t) : Prop :=
  Forall (fun r => snd (DecodeAddress (Row.address r)) = None) (entry_rows ndb).

End WithExternals.

(** A NetDB after [Insert] of [Sample.entry1]. *)
Definition one_entry : NetDB.t :=
  match Insert (X := Sample.externals) Sample.entry1 (NewNetDB Scenario.self0) with
  | Done _ ndb => ndb
  | _ => NewNetDB Scenario.self0
  end.

End StoreMore.

(** ** Running [FindClosest] without a panic *)

Module FindClosestMore.
Import NetDB NetDBSpec StoreMore.

(** The run of [c] from [s] does not panic, and if it returns, the result and
    the final state satisfy [Q]. *)
Definition safe {A} (c : M NetDB.t A) (s : NetDB.t) (Q : A -> NetDB.t -> Prop) : Prop :=
  match c s with
  | Done a s' => Q a s'
  | Panic => False
  | OutOfFuel => True
  end.

(** Go never frees or resizes a backing array that is still referenced: every
    array of [s] is an array of the same length in [s']. *)
Definition grows (s s' : NetDB.t) : Prop :=
  forall k arr, store s !! k = Some arr ->
    exists arr', store s' !! k = Some arr' /\ List.length arr' = List.length arr.

(** What a step of [FindClosest] keeps. *)
Definition step_ok (s s' : NetDB.t) : Prop :=
  well_formed s' /\ grows s s' /\ same_sql s s'.

Section WithExternals.
Context `{X : Externals}.

(** Every address stored in the entry table decodes to an address that has
    a bucket, that is, differs from the local address within its first 20
    bytes. *)
Definition rows_indexable (ndb : NetDB.t) : Prop :=
  Forall (fun row =>
            (index_of ndb (Address.Build (Address.Raw (fst (DecodeAddress (Row.address row)))))
             < 160)%nat)
    (entry_rows ndb).

End WithExternals.

End FindClosestMore.

(** ** Announce and bootstrap *)

(** Modelled from the spec: the header constant is not in the sources; the
    spec lists the header. *)
Definition ProtoDhtAnnounce : string := "dht.announce".

Module ServerMore.
Import Server.

Section WithExternals.
Context `{X : Externals} `{P : Msgpack}.

(** [func (lp *LocalPeer) HandleAnnounce(msg *proto.Message) error]: the
    client made by [proto.NewClient(msg.Stream)] writes on the stream of the
    request. *)
Definition HandleAnnounce (msg : Message.t) : M state (option error) :=
  let '(entry, err) := Protocol.Message_Read_Entry msg in
  match err with
  | Some err => pure (Some err)
  | None =>
      do (affected, err) <- on_lp (LocalPeer.DHT_Insert entry);
      if match err with None => true | Some _ => false end && (affected >? 0) then
        do _ <- WriteMessage (Message.Build ProtoOk PUnset);
        pure None
      else
        do _ <- WriteMessage (Message.Build ProtoNo PUnset);
        pure (Some (errors_New "Failed to save entry"))
  end.

(** [func (s *Server) RouteMessage(msg *Message, handler ProtocolHandler)],
    for the three DHT requests: the error of the handler is logged, nothing
    else is done with it. *)
Definition RouteMessage (msg : Message.t) : M state unit :=
  do _ <- (if String.eqb (Message.Header msg) ProtoDhtAnnounce then HandleAnnounce msg
           else if String.eqb (Message.Header msg) ProtoDhtQuery then HandleQuery msg
           else if String.eqb (Message.Header msg) ProtoDhtFindClosest
                then HandleFindClosest msg
                else pure None);
  pure tt.

(** The server of [l] handles one request on a new stream: the messages it
    writes on the stream, and the local peer afterwards. *)
Definition serve (request : Message.t) : M LocalPeer.t (list Message.t) :=
  fun l =>
    match RouteMessage request (Build l []) with
    | Done _ s => Done (written s) (lp s)
    | Panic => Panic
    | OutOfFuel => OutOfFuel
    end.


End WithExternals.

End ServerMore.

Module RequestMore.


Section WithExternals.
Context `{X : Externals} `{P : Msgpack}.


(** The loop of [Bootstrap] over [peers]: [i.Address] is read before [i] is
    compared with [nil]. *)
Fixpoint Bootstrap_range (address : Address.t) (peers : list (option Entry.t))
  : M LocalPeer.t (option error) :=
  match peers with
  | [] => pure None
  | i :: rest =>
      match i with
      | None => panic
      | Some i =>
          if Address.Equals (Entry.Address i) address then Bootstrap_range address rest
          else
            match Entry.Verify (Some i) with
            | Some _ => Bootstrap_range address rest
            | None =>
                do (_, err) <- LocalPeer.DHT_Insert i;
                match err with
                | Some err => pure (Some err)
                | None => Bootstrap_range address rest
                end
            end
      end
  end.

(** [func (c *Client) Bootstrap(d *dht.DHT, address dht.Address) error], run
    on the local peer whose DHT is [d]. *)
Definition Bootstrap (stream : Stream) (address : Address.t) : M LocalPeer.t (option error) :=
  let '(peers, err) := Request.FindClosest address stream in
  match err with
  | Some err => pure (Some err)
  | None => Bootstrap_range address peers
  end.

End WithExternals.

End RequestMore.

(** The entries that [Bootstrap] hands to [Insert]: those that are not for
    [address] and pass [Verify]. *)
Module BootstrapSpec.

Section WithExternals.
Context `{X : Externals}.

Definition accepted (address : Address.t) (i : option Entry.t) : bool :=
  match i with
  | None => false
  | Some i =>
      negb (Address.Equals (Entry.Address i) address) &&
      match Entry.Verify (Some i) with None => true | Some _ => false end
  end.

(** [Insert] of each entry of the list in turn, up to the first error. *)
Fixpoint Insert_each (l : list (option Entry.t)) : M LocalPeer.t (option error) :=
  match l with
  | [] => pure None
  | None :: rest => Insert_each rest
  | Some i :: rest =>
      do (_, err) <- LocalPeer.DHT_Insert i;
      match err with
      | Some err => pure (Some err)
      | None => Insert_each rest
      end
  end.

End WithExternals.

End BootstrapSpec.

(** A stream on which the peer answers every request with a list that holds
    one [nil] entry. *)
Module RemoteScenario.

Definition nil_reply : Stream :=
  fun _ => [Message.Build ProtoDhtEntries (PEntries [None])].

End RemoteScenario.

(** ** The resolver as a scan, and the peer map under [SetPeer] *)

Module ResolveSpec.
Import PeerManager.

Section WithExternals.
Context `{X : Externals} `{P : Msgpack}.

(** One direct query to each entry of the list in turn, as long as the
    budget lasts. *)
Fixpoint scan (net : Network.t) (addr : Address.t) (closest : list (option Entry.t))
    (budget : nat) : M LocalPeer.t (option Entry.t * option error) :=
  match closest with
  | [] => pure (None, Some (errors_New "Address could not be resolved"))
  | i :: rest =>
      match budget with
      | O => pure (None, Some RecursionLimit)
      | S budget' =>
          match i with
          | None => panic
          | Some e =>
              match resolve_direct net e addr with
              | (_, Some err) =>
                  if is_RecursionLimit err then pure (None, Some err)
                  else scan net addr rest budget'
              | (None, None) => scan net addr rest budget'
              | (Some entry, None) =>
                  if Address.Equals (Entry.Address entry) addr then
                    do _ <- LocalPeer.DHT_Insert entry;
                    pure (Some entry, None)
                  else scan net addr rest budget'
              end
          end
      end
  end.

End WithExternals.

End ResolveSpec.

Module ManagerSpec.
Import Manager.


End ManagerSpec.

(** ** The connection preamble and the stream manager *)

Module Preamble.

(** Modelled from the spec: the constants [ProtoZif] and [ProtoVersion] are
    not in the sources; the spec gives the magic as the little-endian [int16]
    0x667A and the version as 0. *)
Definition ProtoZif : Z := 26234.
Definition ProtoVersion : Z := 0.

(** The loop of [io.ReadAtLeast], as [io.ReadFull(conn, buf)] with
    [len(buf) = n] runs it, with [got] the bytes read so far; gives the bytes
    read, the error of the last [Read] and the connection.  [None] when the
    fuel runs out. *)
Fixpoint ReadAtLeast_loop (fuel n : nat) (got : bytes) (err : option error) (c : Conn.t)
  : option (bytes * option error * Conn.t) :=
  if (List.length got <? n)%nat && match err with None => true | Some _ => false end then
    match fuel with
    | O => None
    | S fuel' =>
        let '(p, err, c) := Conn.Read (n - List.length got) c in
        ReadAtLeast_loop fuel' n (got ++ p)%list err c
    end
  else Some (got, err, c).

(** [io.ReadFull(conn, buf)] with [len(buf) = n]. *)
Definition ReadFull (n : nat) (c : Conn.t) : option (bytes * option error * Conn.t) :=
  match ReadAtLeast_loop (n + List.length (Conn.incoming c) + 1) n [] None c with
  | None => None
  | Some (got, err, c) =>
      let err :=
        if (n <=? List.length got)%nat then None
        else match err with
             | Some io_EOF =>
                 if (0 <? List.length got)%nat then Some (errors_New "unexpected EOF")
                 else err
             | _ => err
             end in
      Some (got, err, c)
  end.

(** [int16(binary.LittleEndian.Uint16(bs))] *)
Definition int16_of_bytes (bs : bytes) : Z :=
  let u := Z.of_N (Byte.to_N (nth 0 bs x00)) + 256 * Z.of_N (Byte.to_N (nth 1 bs x00)) in
  if u <? 32768 then u else u - 65536.

(** The two bytes that [binary.Write(conn, binary.LittleEndian, v)] writes for
    an [int16]. *)
Definition bytes_of_int16 (v : Z) : bytes :=
  let u := v mod 65536 in [byte_of_Z (u mod 256); byte_of_Z (u / 256)].

(** [binary.Read(conn, binary.LittleEndian, &data)] for an [int16] that holds
    [data]: the value is left as it is when the two bytes cannot be read. *)
Definition binary_Read_int16 (data : Z) (c : Conn.t) : option (Z * option error * Conn.t) :=
  match ReadFull 2 c with
  | None => None
  | Some (bs, Some err, c) => Some (data, Some err, c)
  | Some (bs, None, c) => Some (int16_of_bytes bs, None, c)
  end.

(** The body of the accept loop of [Server.Listen] on one connection: whether
    the connection is handed to [Handshake], and the connection.  [None] when
    the fuel runs out. *)
Definition Listen_accepts (conn : Conn.t) : option (bool * Conn.t) :=
  match binary_Read_int16 0 conn with
  | None => None
  | Some (zif, _, conn) =>
      if negb (zif =? ProtoZif) then Some (false, conn)
      else
        match binary_Read_int16 0 conn with
        | None => None
        | Some (version, _, conn) =>
            if negb (version =? ProtoVersion) then Some (false, conn)
            else Some (true, conn)
        end
  end.

(** What [handleConnection] writes on a new connection before the
    handshake. *)
Definition handleConnection_writes : bytes :=
  (bytes_of_int16 ProtoZif ++ bytes_of_int16 ProtoVersion)%list.

(** All the bytes that a connection will deliver. *)
Definition data (c : Conn.t) : bytes := List.concat (Conn.incoming c).

End Preamble.

Module StreamManager.

(** A yamux stream as the stream manager uses it: its id. *)
Record Stream := Build_Stream { StreamID : Z }.

(** A [Client] that only has its connection set. *)
Record Client := Build_Client { conn : Stream }.

Section WithSessions.
(** [*yamux.Session] *)
Variable Session : Type.
(** [yamux.Client(conn, nil)] and [yamux.Server(conn, nil)] on the connection
    of the manager. *)
Variable yamux_Client yamux_Server : option Session * option error.

Record t := Build {
  server : option Session;
  client : option Session;
  clients : list Client
}.

(** [func (sm *StreamManager) Setup()] *)
Definition Setup (sm : t) : t := Build None None [].

(** [func (sm *StreamManager) ConnectClient()], returning the session and the
    error *)
Definition ConnectClient (sm : t) : option Session * option error * t :=
  match client sm with
  | Some c => (Some c, None, sm)
  | None =>
      match server sm with
      | Some _ =>
          (None, Some (errors_New "There is already a server connected to that socket"), sm)
      | None =>
          let '(client, err) := yamux_Client in
          match err with
          | Some err => (None, Some err, sm)
          | None => (client, None, Build (server sm) client (clients sm))
          end
      end
  end.

(** [func (sm *StreamManager) ConnectServer()], returning the session and the
    error *)
Definition ConnectServer (sm : t) : option Session * option error * t :=
  match server sm with
  | Some s => (Some s, None, sm)
  | None =>
      match client sm with
      | Some _ =>
          (None, Some (errors_New "There is already a client connected to that socket"), sm)
      | None =>
          let '(server, err) := yamux_Server in
          match err with
          | Some err => (None, Some err, sm)
          | None => (server, None, Build server (client sm) (clients sm))
          end
      end
  end.

(** [func (sm *StreamManager) GetSession() *yamux.Session] *)
Definition GetSession (sm : t) : option Session :=
  match server sm with
  | Some s => Some s
  | None => client sm
  end.

(** [func (sm *StreamManager) AddStream(conn net.Conn)] *)
Definition AddStream (conn : Stream) (sm : t) : t :=
  Build (server sm) (client sm) (clients sm ++ [Build_Client conn])%list.

(** [func (sm *StreamManager) GetStream(conn net.Conn) *Client] *)
Definition GetStream (conn : Stream) (sm : t) : option Client :=
  List.find (fun c => StreamID (StreamManager.conn c) =? StreamID conn) (clients sm).

(** [append(s[:i], s[i+1:]...)] on the slice of length [length] over [arr]:
    the elements after [i] move one place down inside the array; the slot of
    the former last element keeps its value. *)
Definition shift_down (i length : nat) (arr : list Client) : list Client :=
  (take i arr ++ take (length - i - 1) (drop (S i) arr) ++ drop (length - 1) arr)%list.

(** The loop of [RemoveStream]: the range runs over the slice as it was when
    the loop started, [n] positions from [i] on, and reads each element from
    the array when it gets there; [sm.clients] is the slice of length [len]
    over the same array.  [None] is the panic of [sm.clients[i+1:]] when
    [i+1] is beyond the length. *)
Fixpoint RemoveStream_range (id : Z) (n i : nat) (arr : list Client) (len : nat)
  : option (list Client * nat) :=
  match n with
  | O => Some (arr, len)
  | S n' =>
      match arr !! i with
      | None => None
      | Some c =>
          if StreamID (conn c) =? id then
            if (i + 1 <=? len)%nat
            then RemoveStream_range id n' (S i) (shift_down i len arr) (len - 1)
            else None
          else RemoveStream_range id n' (S i) arr len
      end
  end.

(** [func (sm *StreamManager) RemoveStream(conn net.Conn)] *)
Definition RemoveStream (conn : Stream) : M t unit :=
  fun sm =>
    match RemoveStream_range (StreamID conn) (List.length (clients sm)) 0 (clients sm)
            (List.length (clients sm)) with
    | None => Panic
    | Some (arr, len) => Done tt (Build (server sm) (client sm) (take len arr))
    end.

(** The managers that [Setup], [ConnectClient], [ConnectServer], [AddStream]
    and [RemoveStream] lead to. *)
Inductive reachable : t -> Prop :=
| reachable_Setup sm : reachable (Setup sm)
| reachable_ConnectClient sm :
    reachable sm -> reachable (snd (ConnectClient sm))
| reachable_ConnectServer sm :
    reachable sm -> reachable (snd (ConnectServer sm))
| reachable_AddStream conn sm :
    reachable sm -> reachable (AddStream conn sm)
| reachable_RemoveStream conn sm sm' :
    reachable sm -> RemoveStream conn sm = Done tt sm' -> reachable sm'.

End WithSessions.

Arguments Build {Session} server client clients.
Arguments server {Session} t.
Arguments client {Session} t.
Arguments clients {Session} t.
Arguments Setup {Session} sm.
Arguments ConnectClient {Session} yamux_Client sm.
Arguments ConnectServer {Session} yamux_Server sm.
Arguments GetSession {Session} sm.
Arguments AddStream {Session} conn sm.
Arguments GetStream {Session} conn sm.
Arguments RemoveStream {Session} conn _.
Arguments reachable {Session} yamux_Client yamux_Server _.

(** A manager on which [ConnectServer] made a session, the sessions being
    values of [unit]. *)
Definition with_server : t unit :=
  snd (ConnectServer (Some tt, None) (Setup (Build None None []))).

End StreamManager.

(** ** Requests to be added as a seed *)

Module AddPeer.
Import Server.

Section WithExternals.
Context `{X : Externals} `{P : Msgpack}.

(** Modelled from the spec: [Address.Bytes] is not in the sources; it gives
    the raw bytes of the address. *)
Variable Address_Bytes : Address.t -> bytes * option error.

(** [lp.SaveEntry()], which is not in the sources: some change of the local
    peer, and an error. *)
Variable SaveEntry : M LocalPeer.t (option error).

(** [func (lp *LocalPeer) HandleAddPeer(msg *proto.Message) error], with
    [from] the address in [msg.From]. *)
Definition HandleAddPeer (from : Address.t) (msg : Message.t) : M state (option error) :=
  let '(address, err) := Protocol.Message_Read_Address msg in
  match err with
  | Some err => pure (Some err)
  | None =>
      do s <- get;
      if Address.Equals address (LocalPeer.address (lp s)) then
        let seeds := Entry.Seeds (LocalPeer.Entry (lp s)) in
        let add := forallb (fun i => negb (Address.Equals from (Address.Build i))) seeds in
        (if add then
           put (Build (LocalPeer.Build (LocalPeer.address (lp s))
                         (Entry.with_Seeds (seeds ++ [fst (Address_Bytes from)])%list
                            (LocalPeer.Entry (lp s)))
                         (LocalPeer.DHT (lp s)))
                      (written s))
         else pure tt) ;;
        do err <- on_lp SaveEntry;
        match err with
        | Some err => pure (Some err)
        | None =>
            do _ <- WriteMessage (Message.Build ProtoOk PUnset);
            pure None
        end
      else
        do (entry, err) <- on_lp (LocalPeer.DHT_Query address);
        match err with
        | Some err => pure (Some err)
        | None =>
            match entry with
            | None => pure (Some (errors_New "Cannot add peer, do not have entry"))
            | Some entry =>
                let entry :=
                  Entry.with_Seeds (Entry.Seeds entry ++ [fst (Address_Bytes from)])%list
                    entry in
                do _ <- on_lp (LocalPeer.DHT_Insert entry);
                do _ <- WriteMessage (Message.Build ProtoOk PUnset);
                pure None
            end
        end
  end.

End WithExternals.

End AddPeer.

(** ** An entry that names a seeding peer the NetDB does not know *)

Module AnnounceScenario.
Import Sample.

(** A valid entry for [01 00..00] that says it seeds [99 00..00]. *)
Definition entry_seeding_stranger : Entry.t :=
  signed (Entry.Build (address_of_byte x01) "node" "a node" "example.org" (repeat x07 32)
            0 1 [] (repeat x00 32) 5050 [] [Address.Raw (address_of_byte x99)] 0
            (Address.Build [])).

End AnnounceScenario.

(** A NetDB that holds the entries of [40 00..00] and [10 00..00], and the
    same after the second was registered as a seed of the first. *)
Module SeedScenario.

Definition two_entries : NetDB.t :=
  ResolveScenario.after
    (ResolveScenario.Insert_all [Scenario.entry_far; Scenario.entry_near])
    (NetDB.NewNetDB Scenario.self0).

Definition with_seed : NetDB.t :=
  ResolveScenario.after
    (NetDB.InsertSeed (X := Sample.externals) (Entry.Address Scenario.entry_far)
       (Entry.Address Scenario.entry_near))
    two_entries.

End SeedScenario.

(** * Properties *)

(** Boolean comparisons on [Z] in the hypotheses, as propositions. *)
Ltac zbool :=
  repeat match goal with
  | H : (_ =? _) = true |- _ => apply Z.eqb_eq in H
  | H : (_ =? _) = false |- _ => apply Z.eqb_neq in H
  | H : (_ <? _) = true |- _ => apply Z.ltb_lt in H
  | H : (_ <? _) = false |- _ => apply Z.ltb_ge in H
  | H : (_ <=? _) = true |- _ => apply Z.leb_le in H
  | H : (_ <=? _) = false |- _ => apply Z.leb_gt in H
  | H : (_ >? _) = _ |- _ => rewrite Z.gtb_ltb in H
  | H : (_ >=? _) = _ |- _ => rewrite Z.geb_leb in H
  | H : negb _ = true |- _ => apply negb_true_iff in H
  | H : negb _ = false |- _ => apply negb_false_iff in H
  end.

(** The limits of [Entry.Verify], as numbers. *)
Ltac unfold_limits :=
  unfold MaxEntryNameLength, MaxEntryDescLength, MaxEntryPublicAddressLength,
    MaxEntrySeeds, ed25519_PublicKeySize, ed25519_SignatureSize in *.

Lemma string_app_assoc (a b c : string) : ((a ++ b) ++ c = a ++ (b ++ c))%string.
Proof. induction a as [|x a IH]; simpl; [reflexivity | now rewrite IH]. Qed.

Lemma string_app_nil_r (a : string) : (a ++ "" = a)%string.
Proof. induction a as [|x a IH]; simpl; [reflexivity | now rewrite IH]. Qed.

Module EntryFacts.
Import Entry EntrySpec.

Section WithExternals.
Context `{X : Externals}.

(** The loop over [Seeding] appends the concatenation of its elements. *)
Lemma fold_seeding (l : list bytes) (acc : string) :
  fold_left (fun str i => str ++ string_of_list_byte i)%string l acc
  = (acc ++ concat_bytes l)%string.
Proof.
  revert acc. induction l as [|b l IH]; intros acc; simpl.
  - now rewrite string_app_nil_r.
  - rewrite IH. unfold concat_bytes. simpl. now rewrite string_app_assoc.
Qed.

(** [Verify] accepts exactly the entries that pass every one of its checks. *)
Lemma Verify_accepts_iff (e : Entry.t) :
  Verify (Some e) = None <->
  checks_before_public_address e /\
  1 <= len_string (PublicAddress e) < MaxEntryPublicAddressLength /\
  Port e <= 65535.
Proof.
  unfold Verify, checks_before_public_address, signature_ok.
  destruct (Bytes e) as [data err] eqn:Hb. simpl.
  assert (Hlen : 0 <= len_string (PublicAddress e)) by (unfold len_string; lia).
  repeat (case_match; zbool; unfold_limits);
    split; intros Hv; try discriminate; try reflexivity;
    try (exfalso; destruct Hv as ((?&?&?&?&?&?&?)&?&?); congruence || lia).
  all: repeat split; try lia; assumption.
Qed.

End WithExternals.

End EntryFacts.

Module EntryClaims.
Import Entry EntrySpec EntryFacts.

Section WithExternals.
Context `{X : Externals}.

(** C4. [Entry.Verify] is documented to allow a public address of up to 253
    characters ("253 char max"), but an entry whose public address has exactly
    253 characters and that passes every earlier check is rejected with the
    "too large" error: the comparison is [>=] where the other limits use [>]. *)
Theorem Verify_rejects_public_address_of_253 (e : Entry.t) :
  checks_before_public_address e ->
  len_string (PublicAddress e) = 253 ->
  Verify (Some e) = Some (errors_New "Public address is too large (253 char max)").
Proof.
  intros (Ha & Hn & Hd & Hs & Hk & Hg & Hsig) Hlen.
  unfold signature_ok in Hsig. unfold Verify.
  destruct (Bytes e) as [data err]. simpl in Hsig. rewrite Hsig, Hlen.
  unfold_limits.
  repeat (case_match; zbool; try lia; try discriminate). reflexivity.
Qed.


(** C10. [Entry.Verify] has no lower bound on the port: an entry that passes
    every other check is accepted exactly when its port is at most 65535, so
    every negative port is accepted. *)
Theorem Verify_accepts_negative_port (e : Entry.t) (p : Z) :
  checks_before_public_address (with_Port p e) ->
  1 <= len_string (PublicAddress e) < MaxEntryPublicAddressLength ->
  (p < 0 -> Verify (Some (with_Port p e)) = None) /\
  (Verify (Some (with_Port p e)) = None <-> p <= 65535).
Proof.
  intros Hc Hl. split.
  - intros Hp. apply Verify_accepts_iff.
    split; [exact Hc | split; [exact Hl | simpl; lia]].
  - rewrite Verify_accepts_iff. split.
    + intros (_ & _ & Hp). exact Hp.
    + intros Hp. split; [exact Hc | split; [exact Hl | exact Hp]].
Qed.

End WithExternals.

(** The entry [Sample.entry_public_address_253] passes the earlier checks and
    has a public address of 253 characters. *)
Lemma Verify_rejects_public_address_of_253_witness :
  Verify (X := Sample.externals) (Some Sample.entry_public_address_253)
  = Some (errors_New "Public address is too large (253 char max)").
Proof.
  apply (Verify_rejects_public_address_of_253 (X := Sample.externals)).
  - vm_compute. repeat split; reflexivity || discriminate.
  - vm_compute. reflexivity.
Defined.



Lemma Verify_accepts_negative_port_witness :
  Verify (X := Sample.externals) (Some Sample.entry_port_minus_1) = None.
Proof.
  apply (Verify_accepts_negative_port (X := Sample.externals)
           Sample.entry_port_minus_1 (-1)).
  - vm_compute. repeat split; reflexivity || discriminate.
  - vm_compute. split; reflexivity || discriminate.
  - lia.
Defined.

End EntryClaims.

Local Open Scope list_scope.

Module NetDBFacts.
Import NetDB NetDBSpec.

Lemma Equals_true (a b : Address.t) : Address.Equals a b = true <-> a = b.
Proof.
  unfold Address.Equals. rewrite bool_decide_eq_true.
  destruct a, b; simpl; split; congruence.
Qed.

Lemma find_address_Some (addr : Address.t) (l : list Address.t) (i : nat) :
  find_address addr l = Some i ->
  l !! i = Some addr /\ forall j y, l !! j = Some y -> (j < i)%nat -> y <> addr.
Proof.
  unfold find_address. destruct (list_find _ l) as [[k y]|] eqn:Hf; [|discriminate].
  simpl. intros [= <-]. apply list_find_Some in Hf as (Hk & Hy & Hlt).
  apply Equals_true in Hy. subst y. split; [exact Hk|].
  intros j z Hj Hji Hz. apply (Hlt j z Hj Hji). now apply Equals_true.
Qed.

Lemma find_address_None (addr : Address.t) (l : list Address.t) :
  find_address addr l = None -> addr ∉ l.
Proof.
  unfold find_address. destruct (list_find _ l) as [[k y]|] eqn:Hf; [discriminate|].
  intros _ Hin. apply list_find_None in Hf.
  rewrite Forall_forall in Hf. apply (Hf addr Hin). now apply Equals_true.
Qed.

Lemma find_address_elem (addr : Address.t) (l : list Address.t) :
  addr ∈ l -> exists i, find_address addr l = Some i.
Proof.
  intros Hin. destruct (find_address addr l) as [i|] eqn:Hf; [eauto|].
  now apply find_address_None in Hf.
Qed.

Lemma length_shift_down (found n : nat) (arr : list Address.t) :
  (found < n)%nat -> (n <= List.length arr)%nat ->
  List.length (shift_down found n arr) = List.length arr.
Proof.
  intros Hf Hn. unfold shift_down.
  rewrite !length_app, !length_take, !length_drop. lia.
Qed.

Lemma take_shift_down (found n : nat) (arr : list Address.t) :
  (found < n)%nat -> (n <= List.length arr)%nat ->
  take (n - 1) (shift_down found n arr) = delete found (take n arr).
Proof.
  intros Hf Hn. unfold shift_down. rewrite app_assoc.
  rewrite take_app_length'
    by (rewrite length_app, !length_take, length_drop; lia).
  rewrite delete_take_drop, take_take.
  replace (found `min` n)%nat with found by lia.
  f_equal.
  replace n with (S found + (n - found - 1))%nat at 2 by lia.
  now rewrite <- take_drop_commute.
Qed.

(** Removing the position of an address from a duplicate-free list removes
    the address. *)
Lemma delete_filter_ne (addr : Address.t) (l : list Address.t) (i : nat) :
  NoDup l -> l !! i = Some addr ->
  delete i l = List.filter (fun x => negb (bool_decide (x = addr))) l.
Proof.
  revert i. induction l as [|x l IH]; intros i Hnd Hi; [discriminate|].
  apply NoDup_cons in Hnd as [Hx Hnd]. destruct i as [|i]; simpl in *.
  - injection Hi as ->. rewrite bool_decide_eq_true_2 by reflexivity. simpl.
    symmetry. clear IH. induction l as [|y l IH]; [reflexivity|].
    apply not_elem_of_cons in Hx as [Hne Hx]. apply NoDup_cons in Hnd as [_ Hnd].
    simpl. rewrite bool_decide_eq_false_2 by congruence. simpl.
    f_equal. now apply IH.
  - assert (x <> addr) by (intros ->; apply Hx; eapply list_elem_of_lookup_2; eauto).
    rewrite bool_decide_eq_false_2 by assumption. simpl. f_equal. now apply IH.
Qed.

End NetDBFacts.

Module TableFacts.
Import NetDB NetDBSpec NetDBFacts.

Lemma bucket_lookup (ndb : NetDB.t) (i : nat) (s : Slice.t) :
  table ndb !! i = Some s -> bucket ndb i = elements (store ndb) s.
Proof. unfold bucket. now intros ->. Qed.

Lemma table_arrays_distinct (ndb : NetDB.t) (i j : nat) (s s' : Slice.t) :
  well_formed ndb -> table ndb !! i = Some s -> table ndb !! j = Some s' ->
  Slice.array s = Slice.array s' -> i = j.
Proof.
  intros (_ & Hnd & _) Hi Hj Heq.
  rewrite NoDup_alt in Hnd. apply (Hnd i j (Slice.array s)).
  - now rewrite list_lookup_fmap, Hi.
  - now rewrite list_lookup_fmap, Hj, Heq.
Qed.

(** The last step of [insertIntoTable]: a fresh array holding the new
    bucket is allocated and the bucket's slice is pointed at it. *)
Lemma commit_bucket (ndb : NetDB.t) (idx : nat) (s : Slice.t)
    (st' : list (list Address.t)) (fresh : list Address.t) :
  well_formed ndb ->
  table ndb !! idx = Some s ->
  List.length st' = List.length (store ndb) ->
  (forall k, k <> Slice.array s -> st' !! k = store ndb !! k) ->
  let ndb' := set_table (st' ++ [fresh])
                (<[idx := Slice.Build (List.length st') (List.length fresh)]> (table ndb))
                ndb in
  well_formed ndb' /\ bucket ndb' idx = fresh /\
  forall j, j <> idx -> bucket ndb' j = bucket ndb j.
Proof.
  intros Hwf Hs Hlen Hsame ndb'.
  pose proof Hwf as (Hl & Hnd & Harr).
  assert (Hidx : (idx < List.length (table ndb))%nat) by (eapply lookup_lt_Some; eauto).
  assert (Hother : forall j sj, j <> idx -> table ndb !! j = Some sj ->
            (st' ++ [fresh]) !! Slice.array sj = store ndb !! Slice.array sj /\
            (Slice.array sj < List.length (store ndb))%nat).
  { intros j sj Hj Hsj. destruct (Harr j sj Hsj) as (arr & Ha & _).
    assert (Slice.array sj < List.length (store ndb))%nat by (eapply lookup_lt_Some; eauto).
    split; [|assumption].
    rewrite lookup_app_l by lia. apply Hsame.
    intros Heq. apply Hj. symmetry.
    eapply (table_arrays_distinct ndb idx j s sj); eauto. }
  split; [|split].
  - split; [|split]; simpl.
    + now rewrite length_insert.
    + apply NoDup_alt. intros p q a Hp Hq.
      rewrite list_lookup_fmap in Hp, Hq.
      destruct (decide (p = idx)) as [->|Hpi], (decide (q = idx)) as [->|Hqi];
        [reflexivity | | |].
      * rewrite list_lookup_insert_eq in Hp by assumption.
        rewrite list_lookup_insert_ne in Hq by congruence.
        destruct (table ndb !! q) as [sq|] eqn:Hsq; [|discriminate].
        simpl in Hp, Hq. destruct (Hother q sq Hqi Hsq) as [_ Hlt].
        injection Hp as <-. injection Hq as Hq. lia.
      * rewrite list_lookup_insert_eq in Hq by assumption.
        rewrite list_lookup_insert_ne in Hp by congruence.
        destruct (table ndb !! p) as [sp|] eqn:Hsp; [|discriminate].
        simpl in Hp, Hq. destruct (Hother p sp Hpi Hsp) as [_ Hlt].
        injection Hq as <-. injection Hp as Hp. lia.
      * rewrite list_lookup_insert_ne in Hp, Hq by congruence.
        rewrite NoDup_alt in Hnd. apply (Hnd p q a); now rewrite list_lookup_fmap.
    + intros j sj Hj. destruct (decide (j = idx)) as [->|Hji].
      * rewrite list_lookup_insert_eq in Hj by assumption. injection Hj as <-.
        simpl. exists fresh. split; [|lia].
        rewrite lookup_app_r by lia. now rewrite Nat.sub_diag.
      * rewrite list_lookup_insert_ne in Hj by congruence.
        destruct (Hother j sj Hji Hj) as [Heq _].
        destruct (Harr j sj Hj) as (arr & Ha & Hle).
        exists arr. now rewrite Heq.
  - unfold bucket. simpl. rewrite list_lookup_insert_eq by assumption.
    unfold elements. simpl. rewrite lookup_app_r by lia.
    rewrite Nat.sub_diag. simpl. now rewrite firstn_all.
  - intros j Hj. unfold bucket. simpl.
    rewrite list_lookup_insert_ne by congruence.
    destruct (table ndb !! j) as [sj|] eqn:Hsj; [|reflexivity].
    unfold elements. now destruct (Hother j sj Hj Hsj) as [-> _].
Qed.

(** What [insertIntoTable] does to a well-formed table. *)
Lemma insertIntoTable_spec (ndb : NetDB.t) (addr : Address.t) :
  well_formed ndb ->
  (index_of ndb addr < 160)%nat ->
  exists ndb',
    insertIntoTable addr ndb = Done tt ndb' /\
    well_formed ndb' /\
    NetDB.addr ndb' = NetDB.addr ndb /\
    entry_rows ndb' = entry_rows ndb /\
    seed_rows ndb' = seed_rows ndb /\
    fts_rows ndb' = fts_rows ndb /\
    bucket ndb' (index_of ndb addr) =
      addr :: match find_address addr (bucket ndb (index_of ndb addr)) with
              | Some found => delete found (bucket ndb (index_of ndb addr))
              | None =>
                  if decide (len (bucket ndb (index_of ndb addr)) = BucketSize)
                  then removelast (bucket ndb (index_of ndb addr))
                  else bucket ndb (index_of ndb addr)
              end /\
    forall j, j <> index_of ndb addr -> bucket ndb' j = bucket ndb j.
Proof.
  intros Hwf Hidx. pose proof Hwf as (Hl & Hnd & Harr).
  set (idx := index_of ndb addr) in *.
  destruct (lookup_lt_is_Some_2 (table ndb) idx) as [s Hs]; [lia|].
  destruct (Harr idx s Hs) as (arr & Ha & Hle).
  rewrite (bucket_lookup ndb idx s Hs).
  assert (Hel : elements (store ndb) s = take (Slice.length s) arr)
    by (unfold elements; now rewrite Ha).
  unfold insertIntoTable, bind, get, index_or_panic.
  fold (index_of ndb addr). fold idx. rewrite Hs. unfold pure.
  destruct (find_address addr (elements (store ndb) s)) as [found|] eqn:Hfind.
  - apply find_address_Some in Hfind as [Hf _].
    assert (Hlt : (found < Slice.length s)%nat).
    { rewrite Hel in Hf. apply lookup_take_Some in Hf. tauto. }
    set (st' := alter (shift_down found (Slice.length s)) (Slice.array s) (store ndb)).
    assert (Hel' : elements st' (Slice.Build (Slice.array s) (Slice.length s - 1))
                   = delete found (elements (store ndb) s)).
    { unfold elements at 1. simpl. unfold st'.
      rewrite list_lookup_alter_eq, Ha. simpl.
      rewrite take_shift_down by assumption. now rewrite Hel. }
    rewrite Hel'. unfold put.
    destruct (commit_bucket ndb idx s st' (addr :: delete found (elements (store ndb) s)))
      as (Hwf' & Hb & Ho); try assumption.
    { unfold st'. apply length_alter. }
    { intros k Hk. unfold st'. now rewrite list_lookup_alter_ne by congruence. }
    eexists. split; [reflexivity|]. repeat split; try assumption; apply Hwf'.
  - destruct (Z.of_nat (Slice.length s) =? BucketSize) eqn:Hfull.
    + apply Z.eqb_eq in Hfull. unfold BucketSize in Hfull.
      assert (Hel' : elements (store ndb) (Slice.Build (Slice.array s) (Slice.length s - 1))
                     = removelast (elements (store ndb) s)).
      { unfold elements at 1. simpl. rewrite Ha. simpl. rewrite Hel.
        rewrite removelast_firstn_len. rewrite length_take_le by lia.
        rewrite take_take. f_equal. lia. }
      rewrite Hel'. unfold put.
      destruct (commit_bucket ndb idx s (store ndb)
                  (addr :: removelast (elements (store ndb) s)))
        as (Hwf' & Hb & Ho); try assumption; try reflexivity.
      rewrite decide_True
        by (unfold len, BucketSize; rewrite Hel, length_take_le by lia; lia).
      eexists. split; [reflexivity|]. repeat split; try assumption; apply Hwf'.
    + apply Z.eqb_neq in Hfull.
      unfold put.
      destruct (commit_bucket ndb idx s (store ndb) (addr :: elements (store ndb) s))
        as (Hwf' & Hb & Ho); try assumption; try reflexivity.
      rewrite decide_False
        by (unfold len; rewrite Hel, length_take_le by lia; lia).
      eexists. split; [reflexivity|]. repeat split; try assumption; apply Hwf'.
Qed.

End TableFacts.

Module BucketFacts.
Import NetDB NetDBSpec NetDBFacts TableFacts.

Lemma removelast_take (l : list Address.t) :
  removelast l = take (List.length l - 1) l.
Proof. rewrite removelast_firstn_len. f_equal. lia. Qed.

(** On a duplicate-free bucket the slice operations of [insertIntoTable]
    compute [touched]. *)
Lemma touched_computed (addr : Address.t) (l : list Address.t) :
  NoDup l ->
  addr :: match find_address addr l with
          | Some found => delete found l
          | None => if decide (len l = BucketSize) then removelast l else l
          end
  = touched addr l.
Proof.
  intros Hnd. unfold touched.
  destruct (find_address addr l) as [found|] eqn:Hf.
  - apply find_address_Some in Hf as [Hf _].
    rewrite decide_True by (eapply list_elem_of_lookup_2; eauto).
    f_equal. now apply delete_filter_ne.
  - apply find_address_None in Hf.
    rewrite (decide_False (P := addr ∈ l)) by assumption.
    now destruct (decide (len l = BucketSize)).
Qed.

Lemma bucket_ok_touched (addr : Address.t) (l : list Address.t) :
  bucket_ok l -> bucket_ok (touched addr l).
Proof.
  intros [Hlen Hnd]. rewrite <- touched_computed by assumption.
  unfold bucket_ok, len, BucketSize in *.
  destruct (find_address addr l) as [found|] eqn:Hf.
  - apply find_address_Some in Hf as [Hf _].
    assert (Hsome : is_Some (l !! found)) by eauto.
    split.
    + simpl. rewrite length_delete by assumption.
      apply lookup_lt_Some in Hf. lia.
    + rewrite (delete_filter_ne addr l found Hnd Hf). apply NoDup_cons. split.
      * rewrite list_elem_of_In, filter_In. intros [_ Hb].
        now rewrite bool_decide_eq_true_2 in Hb.
      * apply NoDup_ListNoDup, List.NoDup_filter. now apply NoDup_ListNoDup.
  - apply find_address_None in Hf. destruct (decide _) as [Hfull|Hfull].
    + rewrite removelast_take. split.
      * simpl. rewrite length_take. lia.
      * apply NoDup_cons. split.
        -- intros Hin. apply Hf. apply elem_of_take in Hin as (i & Hi & _).
           eapply list_elem_of_lookup_2; eauto.
        -- apply (sublist_NoDup _ l); [assumption | apply sublist_take].
    + split; [simpl; lia|]. apply NoDup_cons. now split.
Qed.

Lemma map_array_Build (l : list nat) :
  List.map Slice.array (List.map (fun i => Slice.Build i 0) l) = l.
Proof. induction l as [|x l IH]; simpl; [reflexivity | now rewrite IH]. Qed.

Lemma NewNetDB_table_lookup (self : Address.t) (i : nat) (s : Slice.t) :
  table (NewNetDB self) !! i = Some s ->
  s = Slice.Build i 0 /\ (i < 160)%nat.
Proof.
  unfold NewNetDB. cbn [table]. intros Hs.
  rewrite list_lookup_fmap in Hs.
  destruct (seq 0 (Z.to_nat (AddressBinarySize * 8)) !! i) as [k|] eqn:Hk;
    [|discriminate].
  injection Hs as <-. apply lookup_seq in Hk as [-> Hlt].
  split; [reflexivity | exact Hlt].
Qed.

Lemma NewNetDB_well_formed (self : Address.t) : well_formed (NewNetDB self).
Proof.
  unfold well_formed. split; [|split].
  - unfold NewNetDB. cbn [table]. now rewrite length_map, length_seq.
  - unfold NewNetDB. cbn [table]. rewrite map_array_Build. apply NoDup_seq.
  - intros i s Hs. apply NewNetDB_table_lookup in Hs as [-> Hlt].
    exists (replicate (Z.to_nat BucketSize) (Address.Build [])).
    split; [|cbn [Slice.length]; lia].
    unfold NewNetDB. cbn [store Slice.array]. apply lookup_replicate_2. exact Hlt.
Qed.

Lemma NewNetDB_bucket (self : Address.t) (i : nat) : bucket (NewNetDB self) i = [].
Proof.
  unfold bucket. destruct (table (NewNetDB self) !! i) as [s|] eqn:Hs; [|reflexivity].
  apply NewNetDB_table_lookup in Hs as [-> _].
  unfold elements. cbn [Slice.length]. apply take_0.
Qed.

(** Every reachable table is well formed and all its buckets hold at most
    [BucketSize] addresses without repetition. *)
Lemma reachable_invariant (self : Address.t) (ndb : NetDB.t) :
  reachable self ndb ->
  well_formed ndb /\ forall i, bucket_ok (bucket ndb i).
Proof.
  induction 1 as [|ndb addr ndb' Hr [Hwf Hok] Hins|ndb es ss fs Hr [Hwf Hok]].
  - split; [apply NewNetDB_well_formed|].
    intros i. rewrite NewNetDB_bucket. split; [unfold len, BucketSize; simpl; lia|].
    apply NoDup_nil_2.
  - destruct (decide (index_of ndb addr < 160)%nat) as [Hlt|Hge].
    + destruct (insertIntoTable_spec ndb addr Hwf Hlt)
        as (ndb2 & Hrun & Hwf2 & _ & _ & _ & _ & Hb & Ho).
      rewrite Hrun in Hins. injection Hins as <-.
      split; [assumption|]. intros i.
      destruct (decide (i = index_of ndb addr)) as [->|Hne].
      * rewrite Hb, touched_computed by apply Hok. apply bucket_ok_touched, Hok.
      * rewrite Ho by assumption. apply Hok.
    + exfalso. unfold insertIntoTable, bind, get, index_or_panic in Hins.
      fold (index_of ndb addr) in Hins.
      destruct Hwf as (Hl & _ & _).
      rewrite (lookup_ge_None_2 (table ndb)) in Hins by lia. discriminate.
  - split; [exact Hwf | exact Hok].
Qed.

End BucketFacts.

Module FindClosestFacts.
Import NetDB NetDBSpec.

Section WithExternals.
Context `{X : Externals}.

Lemma terminates_bind {S A B} (c : M S A) (k : A -> M S B) :
  terminates c -> (forall a, terminates (k a)) -> terminates (bind c k).
Proof.
  intros Hc Hk s. unfold bind. specialize (Hc s).
  destruct (c s) as [a s'| |]; [apply Hk | discriminate | congruence].
Qed.

Lemma terminates_pure {S A} (a : A) : terminates (S := S) (pure a).
Proof. intros s. discriminate. Qed.

Lemma terminates_index {S A} (l : list A) (i : nat) :
  terminates (S := S) (index_or_panic l i).
Proof. intros s. unfold index_or_panic. destruct (l !! i); discriminate. Qed.

Lemma terminates_insertIntoTable (addr : Address.t) : terminates (insertIntoTable addr).
Proof.
  intros s. unfold insertIntoTable, bind, get, index_or_panic.
  destruct (table s !! _); [|discriminate]. unfold pure.
  destruct (find_address _ _); [discriminate|].
  destruct (_ =? _); discriminate.
Qed.

Lemma terminates_Query (addr : Address.t) : terminates (Query addr).
Proof.
  intros s. unfold Query.
  destruct (Address_String addr) as [a [err|]]; [discriminate|].
  unfold bind at 1. unfold get.
  destruct (select_entry_by_address _ _) as [row|]; [|discriminate].
  destruct (DecodeAddress _) as [d [err|]]; [discriminate|].
  destruct (addSeedToEntry _ _ _) as [e [err|]]; [discriminate|].
  apply terminates_bind; [apply terminates_insertIntoTable|].
  intros _. apply terminates_pure.
Qed.

Lemma terminates_FindClosest_range (b : Slice.t) (n pos : nat) (ret : list (option Entry.t)) :
  terminates (FindClosest_range b n pos ret).
Proof.
  revert pos ret. induction n as [|n IH]; intros pos ret; [apply terminates_pure|].
  simpl. apply terminates_bind; [discriminate|]. intros ndb.
  apply terminates_bind; [apply terminates_index|]. intros i.
  destruct (len ret >=? BucketSize); [apply terminates_pure|].
  apply terminates_bind; [apply terminates_Query|].
  intros [[kv id] [err|]]; apply IH.
Qed.

Lemma terminates_queryAddresses_range (b : Slice.t) (n pos : nat)
    (ret : list (option Entry.t)) :
  terminates (queryAddresses_range b n pos ret).
Proof.
  revert pos ret. induction n as [|n IH]; intros pos ret; [apply terminates_pure|].
  simpl. apply terminates_bind; [discriminate|]. intros ndb.
  apply terminates_bind; [apply terminates_index|]. intros i.
  apply terminates_bind; [apply terminates_Query|].
  intros [[kv id] [err|]]; apply IH.
Qed.

(** The fuel given to the outer loop is enough: the loop stops once [i]
    exceeds both [index] and the number of address bits minus [index]. *)
Lemma terminates_FindClosest_loop (fuel : nat) (addr : Address.t) (index i : Z)
    (ret : list (option Entry.t)) :
  0 <= index -> 0 <= i ->
  index + len (Address.Raw addr) * 8 + 1 <= Z.of_nat fuel + i ->
  terminates (FindClosest_loop fuel addr index i ret).
Proof.
  revert i ret. induction fuel as [|fuel IH]; intros i ret Hidx Hi Hfuel.
  - simpl. assert (Hlen : 0 <= len (Address.Raw addr)) by (unfold len; lia).
    replace ((index - i >=? 0) || (index + i <=? len (Address.Raw addr) * 8)) with false.
    + apply terminates_pure.
    + symmetry. apply orb_false_iff. rewrite Z.geb_leb. split.
      * apply Z.leb_gt. lia.
      * apply Z.leb_gt. lia.
  - simpl. destruct (_ && _); [|apply terminates_pure].
    apply terminates_bind.
    { destruct (index - i >=? 0); [|apply terminates_pure].
      apply terminates_bind; [discriminate|]. intros ndb.
      apply terminates_bind; [apply terminates_index|]. intros b.
      apply terminates_FindClosest_range. }
    intros ret1. apply terminates_bind.
    { destruct (index + i <? _); [|apply terminates_pure].
      apply terminates_bind; [discriminate|]. intros ndb.
      apply terminates_bind; [apply terminates_index|]. intros b.
      apply terminates_FindClosest_range. }
    intros ret2. apply IH; lia.
Qed.

(** [FindClosest] never runs out of fuel. *)
Lemma terminates_FindClosest (addr : Address.t) : terminates (FindClosest addr).
Proof.
  unfold FindClosest. apply terminates_bind; [discriminate|]. intros ndb.
  apply terminates_bind; [apply terminates_index|]. intros b.
  destruct (_ =? _).
  - apply terminates_bind; [apply terminates_queryAddresses_range|].
    intros r. apply terminates_pure.
  - apply terminates_bind; [|intros r; apply terminates_pure].
    apply terminates_FindClosest_loop; unfold len; lia.
Qed.

Lemma FindClosest_range_length (b : Slice.t) (n pos : nat) (ret r : list (option Entry.t))
    (s s' : NetDB.t) :
  len ret <= BucketSize ->
  FindClosest_range b n pos ret s = Done r s' ->
  len r <= BucketSize.
Proof.
  revert pos ret s. induction n as [|n IH]; intros pos ret s Hret Hrun.
  - simpl in Hrun. injection Hrun as <- _. exact Hret.
  - simpl in Hrun. unfold bind, get, index_or_panic in Hrun.
    destruct (default [] (store s !! Slice.array b) !! pos) as [i|]; [|discriminate].
    unfold pure in Hrun.
    destruct (len ret >=? BucketSize) eqn:Hfull.
    + injection Hrun as <- _. exact Hret.
    + rewrite Z.geb_leb in Hfull. apply Z.leb_gt in Hfull.
      destruct (Query i s) as [[[kv id] [err|]] s1| |]; try discriminate.
      * eapply IH; [|exact Hrun]. exact Hret.
      * eapply IH; [|exact Hrun]. unfold len in *. rewrite length_app. simpl.
        unfold BucketSize in *. lia.
Qed.

Lemma queryAddresses_range_length (b : Slice.t) (n pos : nat)
    (ret r : list (option Entry.t)) (s s' : NetDB.t) :
  queryAddresses_range b n pos ret s = Done r s' ->
  len r <= len ret + Z.of_nat n.
Proof.
  revert pos ret s. induction n as [|n IH]; intros pos ret s Hrun.
  - simpl in Hrun. injection Hrun as <- _. lia.
  - simpl in Hrun. unfold bind, get, index_or_panic in Hrun.
    destruct (default [] (store s !! Slice.array b) !! pos) as [i|]; [|discriminate].
    unfold pure in Hrun.
    destruct (Query i s) as [[[kv id] [err|]] s1| |]; try discriminate.
    + apply IH in Hrun. lia.
    + apply IH in Hrun. unfold len in *. rewrite length_app in Hrun. simpl in Hrun. lia.
Qed.

Lemma FindClosest_loop_length (fuel : nat) (addr : Address.t) (index i : Z)
    (ret r : list (option Entry.t)) (s s' : NetDB.t) :
  len ret <= BucketSize ->
  FindClosest_loop fuel addr index i ret s = Done r s' ->
  len r <= BucketSize.
Proof.
  revert i ret s. induction fuel as [|fuel IH]; intros i ret s Hret Hrun.
  - simpl in Hrun. destruct (_ && _); [discriminate|].
    injection Hrun as <- _. exact Hret.
  - simpl in Hrun. destruct (_ && _).
    2:{ injection Hrun as <- _. exact Hret. }
    unfold bind at 1 in Hrun.
    match type of Hrun with
    | match ?c with _ => _ end = _ =>
        destruct c as [ret1 s1| |] eqn:H1; try discriminate
    end.
    assert (Hret1 : len ret1 <= BucketSize).
    { destruct (index - i >=? 0).
      - unfold bind, get, index_or_panic in H1.
        destruct (table s !! _) as [b|]; [|discriminate].
        eapply FindClosest_range_length; [exact Hret | exact H1].
      - injection H1 as <- _. exact Hret. }
    unfold bind at 1 in Hrun.
    match type of Hrun with
    | match ?c with _ => _ end = _ =>
        destruct c as [ret2 s2| |] eqn:H2; try discriminate
    end.
    assert (Hret2 : len ret2 <= BucketSize).
    { destruct (index + i <? _).
      - unfold bind, get, index_or_panic in H2.
        destruct (table s1 !! _) as [b|]; [|discriminate].
        eapply FindClosest_range_length; [exact Hret1 | exact H2].
      - injection H2 as <- _. exact Hret1. }
    eapply IH; [exact Hret2 | exact Hrun].
Qed.

(** [FindClosest] returns at most [BucketSize] entries. *)
Lemma FindClosest_length (addr : Address.t) (s s' : NetDB.t)
    (r : list (option Entry.t)) (err : option error) :
  FindClosest addr s = Done (r, err) s' -> len r <= BucketSize.
Proof.
  unfold FindClosest, bind at 1, get. unfold bind at 1, index_or_panic.
  destruct (table s !! _) as [b|]; [|discriminate]. unfold pure at 1.
  destruct (Z.of_nat (Slice.length b) =? BucketSize) eqn:Hfull.
  - apply Z.eqb_eq in Hfull. unfold bind, queryAddresses.
    destruct (queryAddresses_range _ _ _ _ _) as [r1 s1| |] eqn:Hq; try discriminate.
    intros [= <- _ _]. apply queryAddresses_range_length in Hq.
    unfold len in Hq at 2. simpl in Hq. lia.
  - unfold bind.
    destruct (FindClosest_loop _ _ _ _ _ _) as [r1 s1| |] eqn:Hq; try discriminate.
    intros [= <- _ _]. eapply FindClosest_loop_length; [|exact Hq].
    unfold len, BucketSize. simpl. lia.
Qed.

End WithExternals.

End FindClosestFacts.

Module InsertFacts.
Import NetDB NetDBSpec NetDBFacts TableFacts.



Lemma addresses_update (e : Entry.t) (a : string) (rows : list Row.t) :
  List.map Row.address
    (List.map (fun r => if String.eqb (Row.address r) a then update_row e r else r) rows)
  = List.map Row.address rows.
Proof.
  induction rows as [|r rows IH]; [reflexivity|]. simpl. rewrite IH.
  now destruct (String.eqb (Row.address r) a).
Qed.

Lemma matching_rows_nonneg (a : string) (rows : list Row.t) : 0 <= matching_rows a rows.
Proof. unfold matching_rows, len. lia. Qed.

Lemma select_None_matching (a : string) (rows : list Row.t) :
  select_entry_by_address rows a = None <-> matching_rows a rows = 0.
Proof.
  unfold select_entry_by_address, matching_rows, len.
  induction rows as [|r rows IH]; simpl; [tauto|].
  destruct (String.eqb (Row.address r) a); simpl; [|exact IH].
  split; [discriminate | lia].
Qed.

Lemma select_None_not_in (a : string) (rows : list Row.t) :
  select_entry_by_address rows a = None -> a ∉ List.map Row.address rows.
Proof.
  unfold select_entry_by_address. induction rows as [|r rows IH]; simpl.
  - intros _. apply not_elem_of_nil.
  - destruct (String.eqb (Row.address r) a) eqn:Hr; [discriminate|].
    intros Hf. apply not_elem_of_cons. split; [|now apply IH].
    apply String.eqb_neq in Hr. congruence.
Qed.


Lemma matching_rows_unique (a : string) (rows : list Row.t) :
  NoDup (List.map Row.address rows) -> matching_rows a rows <= 1.
Proof.
  unfold matching_rows, len. induction rows as [|r rows IH]; simpl; [lia|].
  intros Hnd. apply NoDup_cons in Hnd as [Hr Hnd]. specialize (IH Hnd).
  destruct (String.eqb (Row.address r) a) eqn:Hra; [|exact IH].
  apply String.eqb_eq in Hra. subst a. simpl.
  assert (Hnone : select_entry_by_address rows (Row.address r) = None).
  { unfold select_entry_by_address.
    destruct (List.find _ rows) as [r'|] eqn:Hf; [|reflexivity].
    apply List.find_some in Hf as [Hin Heq]. apply String.eqb_eq in Heq.
    exfalso. apply Hr. rewrite <- Heq. apply list_elem_of_In, in_map. exact Hin. }
  apply select_None_matching in Hnone. unfold matching_rows, len in Hnone. lia.
Qed.

Section WithExternals.
Context `{X : Externals}.

(** [InsertSeed] only changes the [seed] table. *)
Lemma InsertSeed_frame (entry seed : Address.t) (s : NetDB.t) :
  exists err s', InsertSeed entry seed s = Done err s' /\
    table s' = table s /\ store s' = store s /\ NetDB.addr s' = NetDB.addr s /\
    entry_rows s' = entry_rows s.
Proof.
  unfold InsertSeed.
  destruct (Address_String entry) as [ea err0].
  destruct (Address_String seed) as [sa [err|]]; [now eexists _, _|].
  unfold bind, get.
  destruct (select_entry_by_address _ ea) as [er|]; [|now eexists _, _].
  destruct (select_entry_by_address _ sa) as [sr|]; [|now eexists _, _].
  now eexists _, _.
Qed.

Lemma InsertSeed_each_frame (f : Address.t -> Address.t * Address.t) (l : list bytes)
    (s : NetDB.t) :
  exists err s', InsertSeed_each f l s = Done err s' /\
    table s' = table s /\ store s' = store s /\ NetDB.addr s' = NetDB.addr s /\
    entry_rows s' = entry_rows s.
Proof.
  revert s. induction l as [|i l IH]; intros s; [now eexists _, _|].
  simpl. unfold bind.
  destruct (InsertSeed_frame (f (Address.Build i)).1 (f (Address.Build i)).2 s)
    as (err & s1 & -> & Ht & Hs & Ha & Hr).
  destruct err as [err|]; [now eexists _, _|].
  destruct (IH s1) as (err2 & s2 & -> & Ht2 & Hs2 & Ha2 & Hr2).
  eexists _, _. split; [reflexivity|]. repeat split; congruence.
Qed.

Lemma insertEntrySeeds_frame (entry : Entry.t) (s : NetDB.t) :
  exists err s', insertEntrySeeds entry s = Done err s' /\
    table s' = table s /\ store s' = store s /\ NetDB.addr s' = NetDB.addr s /\
    entry_rows s' = entry_rows s.
Proof.
  unfold insertEntrySeeds, bind.
  destruct (InsertSeed_each_frame (fun peer => (peer, Entry.Address entry))
              (Entry.Seeding entry) s) as (err & s1 & -> & Ht & Hs & Ha & Hr).
  destruct err as [err|]; [now eexists _, _|].
  destruct (InsertSeed_each_frame (fun peer => (Entry.Address entry, peer))
              (Entry.Seeds entry) s1) as (err2 & s2 & -> & Ht2 & Hs2 & Ha2 & Hr2).
  eexists _, _. split; [reflexivity|]. repeat split; congruence.
Qed.

Lemma Update_run (e : Entry.t) (a : string) (s : NetDB.t) :
  Entry.Verify (Some e) = None ->
  Address_String (Entry.Address e) = (a, None) ->
  Update e s =
    Done (matching_rows a (entry_rows s), None)
         (set_entry_rows
            (List.map (fun r => if String.eqb (Row.address r) a then update_row e r else r)
               (entry_rows s)) s).
Proof. intros Hv Ha. unfold Update. now rewrite Hv, Ha. Qed.



End WithExternals.

End InsertFacts.

Module NetDBClaims.
Import NetDB NetDBSpec NetDBFacts TableFacts BucketFacts InsertFacts.

(** C5. Every bucket of a reachable routing table holds at most 20 addresses,
    none twice, and [insertIntoTable] keeps it so: an address already in its
    bucket is moved to the front, a full bucket loses its last address before
    the new one is put at the front, and otherwise the address is put at the
    front; the other buckets are left as they are. *)
Theorem insertIntoTable_keeps_buckets (self : Address.t) (ndb : NetDB.t) (addr : Address.t) :
  reachable self ndb ->
  (index_of ndb addr < 160)%nat ->
  (forall i, bucket_ok (bucket ndb i)) /\
  exists ndb',
    insertIntoTable addr ndb = Done tt ndb' /\
    (forall i, bucket_ok (bucket ndb' i)) /\
    (forall j, j <> index_of ndb addr -> bucket ndb' j = bucket ndb j) /\
    let old := bucket ndb (index_of ndb addr) in
    let new := bucket ndb' (index_of ndb addr) in
    (addr ∈ old ->
       new = addr :: List.filter (fun x => negb (bool_decide (x = addr))) old) /\
    (addr ∉ old -> len old = BucketSize -> new = addr :: removelast old) /\
    (addr ∉ old -> len old < BucketSize -> new = addr :: old).
Proof.
  intros Hreach Hidx.
  destruct (reachable_invariant self ndb Hreach) as [Hwf Hok].
  split; [exact Hok|].
  destruct (insertIntoTable_spec ndb addr Hwf Hidx)
    as (ndb' & Hrun & _ & _ & _ & _ & _ & Hb & Ho).
  exists ndb'. split; [exact Hrun|]. split; [|split; [exact Ho|]].
  - apply (reachable_invariant self). econstructor 2; eauto.
  - cbv zeta. rewrite Hb, touched_computed by apply Hok. unfold touched.
    split; [|split].
    + intros Hin. now rewrite decide_True by assumption.
    + intros Hin Hfull. rewrite decide_False by assumption.
      now rewrite decide_True by assumption.
    + intros Hin Hlt. rewrite decide_False by assumption.
      rewrite decide_False by lia. reflexivity.
Qed.

Lemma insertIntoTable_keeps_buckets_witness :
  exists ndb',
    insertIntoTable (Sample.address_of_byte x01) (NewNetDB Scenario.self0) = Done tt ndb' /\
    bucket ndb' (index_of (NewNetDB Scenario.self0) (Sample.address_of_byte x01))
      = [Sample.address_of_byte x01].
Proof.
  destruct (insertIntoTable_keeps_buckets Scenario.self0 (NewNetDB Scenario.self0)
              (Sample.address_of_byte x01))
    as (_ & ndb' & Hrun & _ & _ & _ & _ & Hnew).
  - constructor.
  - vm_compute. lia.
  - exists ndb'. split; [exact Hrun|].
    cbv zeta in Hnew. rewrite NewNetDB_bucket in Hnew. apply Hnew.
    + apply not_elem_of_nil.
    + vm_compute. reflexivity.
Defined.

(** C1. [FindClosest] returns the entries in the order in which it visits
    the buckets and never sorts them by distance.  With [entry_far] (distance
    60 00.. to the target) in bucket 1 and [entry_near] (distance 30 00..) in
    bucket 3, the lookup for a target of bucket 2 returns
    [entry_far; entry_near]; and an entry in the target's own bucket is
    returned twice, since that bucket is visited as [index-0] and as
    [index+0]. *)
Theorem FindClosest_not_sorted_by_distance :
  returned (Scenario.closest_of_two (X := Sample.externals) (NewNetDB Scenario.self0))
    = Some ([Some Scenario.entry_far; Some Scenario.entry_near], None)
  /\ Address.Less (Address.Xor (Entry.Address Scenario.entry_near) Scenario.target)
                  (Address.Xor (Entry.Address Scenario.entry_far) Scenario.target) = true
  /\ strictly_ascending
       (distances Scenario.target [Some Scenario.entry_far; Some Scenario.entry_near])
     = false
  /\ returned (Scenario.closest_of_one (X := Sample.externals) (NewNetDB Scenario.self0))
     = Some ([Some Scenario.entry_same_bucket; Some Scenario.entry_same_bucket], None).
Proof. repeat split; vm_compute; reflexivity. Qed.

(** While [FindClosest] ranges over a bucket, the [Query] of its first
    element moves that element to the front by shifting the rest of the array
    down in place, so the range skips the element that followed it and reads
    the last one twice: from the bucket [30.., 31.., 32..] the first pass
    reads [30.., 32.., 32..], and the second pass, over the bucket as the first
    left it, reads [32.., 31.., 31..]. *)
Lemma FindClosest_reads_the_shifted_array :
  returned (Scenario.closest_of_three (X := Sample.externals) (NewNetDB Scenario.self0))
  = Some [Some x30; Some x32; Some x32; Some x32; Some x31; Some x31].
Proof. vm_compute. reflexivity. Qed.


Section WithExternals.
Context `{X : Externals}.


End WithExternals.


End NetDBClaims.

Module ClientFacts.
Import Client.

Lemma Conn_Read_length (size : nat) (c : Conn.t) :
  len (Conn.Read size c).1.1 <= Z.of_nat size.
Proof.
  unfold Conn.Read, len. destruct (Conn.incoming c) as [|p rest]; simpl; [lia|].
  rewrite length_take. lia.
Qed.

(** One read through the limiter takes at most [N] bytes, none when [N] is
    not positive, and leaves what it did not take. *)
Lemma LimitedReader_Read_budget (size : nat) (N : Z) (R : Conn.t) :
  let '(p, _, N', _) := LimitedReader_Read size N R in
  len p <= Z.max 0 N /\ N' = N - len p.
Proof.
  unfold LimitedReader_Read. destruct (N <=? 0) eqn:HN.
  - apply Z.leb_le in HN. unfold len. simpl. lia.
  - apply Z.leb_gt in HN.
    set (size' := if Z.of_nat size >? N then Z.to_nat N else size).
    assert (Hsize : Z.of_nat size' <= N).
    { unfold size'. destruct (Z.of_nat size >? N) eqn:Hgt.
      - lia.
      - rewrite Z.gtb_ltb in Hgt. apply Z.ltb_ge in Hgt. exact Hgt. }
    pose proof (Conn_Read_length size' R) as Hlen.
    destruct (Conn.Read size' R) as [[p err] R']. simpl in Hlen. lia.
Qed.

(** A whole decoding takes at most the budget it starts with. *)
Lemma run_decoding_budget {A} (d : decoding A) (N : Z) (R : Conn.t) :
  let '(_, consumed, N', _) := run_decoding d N R in
  0 <= consumed <= Z.max 0 N /\ N' = N - consumed.
Proof.
  revert N R. induction d as [a|err|size k IH]; intros N R; simpl; [lia | lia |].
  pose proof (LimitedReader_Read_budget size N R) as Hr.
  destruct (LimitedReader_Read size N R) as [[[p err] N1] R1].
  destruct Hr as [Hp HN1].
  specialize (IH p err N1 R1).
  destruct (run_decoding (k p err) N1 R1) as [[[r consumed] N2] R2].
  destruct IH as [Hc HN2]. unfold len in *. lia.
Qed.

Section WithLimit.
Variable MaxMessageSize : Z.

(** The budget of a reachable client never exceeds [MaxMessageSize]. *)
Lemma reachable_budget (c : Client.t) :
  reachable MaxMessageSize c ->
  match limiter c with
  | None => True
  | Some N => N <= MaxMessageSize
  end.
Proof.
  induction 1 as [conn|conn|decode c Hc IH|A decode c r Hc IH Hd]; simpl; try lia.
  - unfold ReadMessage.
    destruct (run_decoding decode _ (conn c)) as [[[r consumed] N'] R'].
    destruct r; simpl; lia.
  - unfold Decode in Hd. destruct (decoder c); [|discriminate].
    destruct (limiter c) as [N|]; [|discriminate].
    pose proof (run_decoding_budget decode N (conn c)) as Hb.
    destruct (run_decoding decode N (conn c)) as [[[r' consumed] N'] R'].
    injection Hd as <-. simpl. lia.
Qed.

End WithLimit.

End ClientFacts.

Module ClientClaims.
Import Client ClientFacts.

(** C6. For every message read by [ReadMessage], whatever the decoder does
    and whether it succeeds or fails, at most [MaxMessageSize] bytes are taken
    from the connection, and the call leaves the budget of the limiter at
    [MaxMessageSize], so that the next message has the full budget again. *)
Theorem ReadMessage_within_budget (MaxMessageSize : Z) (c : Client.t)
    (decode : decoding Message.t) :
  0 <= MaxMessageSize ->
  reachable MaxMessageSize c ->
  let '(msg, err, consumed, c') := ReadMessage MaxMessageSize decode c in
  0 <= consumed <= MaxMessageSize /\
  limiter c' = Some MaxMessageSize /\
  (msg = None <-> err <> None).
Proof.
  intros Hmax Hc. apply reachable_budget in Hc. unfold ReadMessage.
  set (N := match limiter c with Some N => N | None => MaxMessageSize end).
  assert (HN : N <= MaxMessageSize) by (unfold N; destruct (limiter c); lia).
  pose proof (run_decoding_budget decode N (conn c)) as Hb.
  destruct (run_decoding decode N (conn c)) as [[[r consumed] N'] R'].
  destruct r as [m|e]; simpl; (split; [lia|]); (split; [reflexivity|]);
    split; congruence.
Qed.

(** A limit of 4 bytes, a client on a connection with 5 bytes to deliver,
    and a decoder that asks for 10 bytes. *)
Lemma ReadMessage_within_budget_witness :
  let '(msg, err, consumed, c') :=
    ReadMessage 4
      (ReadCall 10 (fun _ _ => Decoded (Message.Build ProtoOk PNil)))
      (fst (NewClient 4 (Conn.Build [repeat x00 5]))) in
  0 <= consumed <= 4 /\
  limiter c' = Some 4 /\
  (msg = None <-> err <> None).
Proof.
  apply (ReadMessage_within_budget 4
           (fst (NewClient 4 (Conn.Build [repeat x00 5])))
           (ReadCall 10 (fun _ _ => Decoded (Message.Build ProtoOk PNil)))).
  - lia.
  - constructor.
Defined.

End ClientClaims.

Module ProtocolClaims.
Import Server.

Section WithExternals.
Context `{X : Externals} `{P : Msgpack}.

(** C7. When the server handles a [dht.query] for an address that is not the
    local one and has no row in its NetDB, and msgpack encodes a [nil] pointer
    without error, [HandleQuery] writes the [no] message and then, for lack of
    a [return], goes on to write a [dht.query] message whose content is the
    encoded [nil] entry: two messages, not one.  The client's [Query] reads
    the first of them and fails with "Peer returned no". *)
Theorem HandleQuery_miss_writes_two_messages (l : LocalPeer.t) (address : Address.t)
    (a : string) :
  Address.Equals address (LocalPeer.address l) = false ->
  Address_String address = (a, None) ->
  NetDB.select_entry_by_address (NetDB.entry_rows (LocalPeer.DHT l)) a = None ->
  Marshal_error PNil = None ->
  Marshal_error (PAddress address) = None ->
  HandleQuery (Message.Build ProtoDhtQuery (PAddress address)) (Build l [])
    = Done None (Build l [Message.Build ProtoNo PUnset; Message.Build ProtoDhtQuery PNil])
  /\ Request.Query address (replies l)
     = (None, Some (errors_New "Peer returned no")).
Proof.
  intros Hne Ha Hrow Hnil Haddr.
  assert (Hrun : HandleQuery (Message.Build ProtoDhtQuery (PAddress address)) (Build l [])
            = Done None (Build l [Message.Build ProtoNo PUnset;
                                  Message.Build ProtoDhtQuery PNil])).
  { unfold HandleQuery. simpl. unfold bind at 1, get. simpl. rewrite Hne.
    unfold bind at 1, on_lp, LocalPeer.DHT_Query. simpl.
    unfold bind at 1, LocalPeer.on_DHT, NetDB.Query. rewrite Ha.
    unfold bind at 1, get. rewrite Hrow. unfold pure at 1. simpl.
    unfold Protocol.Message_Write. rewrite Hnil. simpl.
    destruct l; reflexivity. }
  split; [exact Hrun|].
  unfold Request.Query, Protocol.Message_Write. rewrite Haddr. simpl.
  unfold replies. simpl. rewrite Hrun. reflexivity.
Qed.

End WithExternals.

(** The server of a peer with an empty NetDB, asked for [Scenario.target]. *)
Lemma HandleQuery_miss_writes_two_messages_witness :
  HandleQuery (X := Sample.externals) (P := Sample.msgpack)
    (Message.Build ProtoDhtQuery (PAddress Scenario.target))
    (Build (ResolveScenario.empty_node ResolveScenario.entry_A) [])
    = Done None
        (Build (ResolveScenario.empty_node ResolveScenario.entry_A)
           [Message.Build ProtoNo PUnset; Message.Build ProtoDhtQuery PNil])
  /\ Request.Query (X := Sample.externals) (P := Sample.msgpack) Scenario.target
       (replies (X := Sample.externals) (P := Sample.msgpack)
          (ResolveScenario.empty_node ResolveScenario.entry_A))
     = (None, Some (errors_New "Peer returned no")).
Proof.
  apply (HandleQuery_miss_writes_two_messages (X := Sample.externals)
           (P := Sample.msgpack)
           (ResolveScenario.empty_node ResolveScenario.entry_A) Scenario.target
           (string_of_list_byte (Address.Raw Scenario.target)));
    reflexivity.
Defined.

End ProtocolClaims.

Module ResolveFacts.
Import PeerManager.

Section WithExternals.
Context `{X : Externals} `{P : Msgpack}.

(** [Query] returns an entry or an error, never both and never neither. *)
Lemma Request_Query_shape (address : Address.t) (stream : Stream) :
  (exists e, Request.Query address stream = (Some e, None)) \/
  (exists err, Request.Query address stream = (None, Some err)).
Proof.
  unfold Request.Query.
  destruct (Protocol.Message_Write _ _) as [msg [err|]]; [right; eauto|].
  destruct (Request.receive (stream msg)) as [[er|] [err|]]; try (right; eauto; fail).
  destruct (String.eqb _ _); [right; eauto|].
  destruct (Protocol.Message_Read_Entry er) as [entry [err|]]; [right; eauto|].
  destruct (Entry.Verify (Some entry)); [right; eauto | left; eauto].
Qed.

(** [resolveStep] never reaches its call of [FindClosest]: a query that does
    not fail gives a non-nil [kv], which is returned at once.  So one call
    spends one unit of [depth] on one peer and follows no chain. *)
Lemma resolveStep_direct (fuel : nat) (net : Network.t) (e : Entry.t)
    (addr : Address.t) (depth : Z) :
  resolveStep (S fuel) net (Some e) addr depth =
    if depth =? 0 then Done (None, Some RecursionLimit) depth
    else Done (resolve_direct net e addr) (depth - 1).
Proof.
  simpl. unfold bind at 1, get. destruct (depth =? 0); [reflexivity|].
  unfold bind at 1, put. unfold resolve_direct, Peer_Query.
  destruct (Network.connect net e); [reflexivity|].
  destruct (Network.OpenStream net e) as [stream|err]; [|reflexivity].
  destruct (Request_Query_shape addr stream) as [[en ->]|[err ->]]; reflexivity.
Qed.

(** The fuel that [Resolve] gives to [resolveStep] is enough. *)
Lemma resolveStep_fuel (net : Network.t) (i : option Entry.t) (addr : Address.t)
    (depth : Z) :
  0 <= depth ->
  resolveStep (Z.to_nat depth) net i addr depth <> OutOfFuel.
Proof.
  intros Hd. destruct (Z.to_nat depth) as [|fuel] eqn:Hf.
  - assert (depth = 0) by lia. subst depth. discriminate.
  - destruct i as [e|].
    + rewrite resolveStep_direct. destruct (depth =? 0); discriminate.
    + simpl. unfold bind at 1, get. destruct (depth =? 0); discriminate.
Qed.

End WithExternals.

End ResolveFacts.

Module ResolveClaims.
Import PeerManager ResolveScenario.

(** C2. The resolver follows no chain, and its depth is a budget of six
    queries shared by the entries of the first [FindClosest].  In the network
    [chain] the target is two hops away (the local peer knows [A], [A] answers
    [no] and its [FindClosest] gives [B], [B] has the target's entry), yet
    [Resolve] fails with "Address could not be resolved".  In the network
    [strangers], where seven known peers each answer [no], [Resolve] fails
    with [RecursionLimit] at the seventh, though no path is longer than one
    hop. *)
Theorem Resolve_follows_no_chain :
  returned (Resolve (X := Sample.externals) (P := Sample.msgpack)
              chain Scenario.target local)
    = Some (None, Some (errors_New "Address could not be resolved"))
  /\ List.map Message.Header
       (Server.replies (X := Sample.externals) (P := Sample.msgpack) node_A
          (Message.Build ProtoDhtQuery (PAddress Scenario.target)))
     = [ProtoNo; ProtoDhtQuery]
  /\ In (Some entry_B)
       (fst (Request.FindClosest (P := Sample.msgpack)
               Scenario.target
               (Server.replies (X := Sample.externals) (P := Sample.msgpack) node_A)))
  /\ Request.Query (X := Sample.externals) (P := Sample.msgpack) Scenario.target
       (Server.replies (X := Sample.externals) (P := Sample.msgpack) node_B)
     = (Some entry_T, None)
  /\ returned (Resolve (X := Sample.externals) (P := Sample.msgpack)
                 strangers unknown_address local7)
     = Some (None, Some RecursionLimit).
Proof.
  split; [vm_compute; reflexivity|].
  split; [vm_compute; reflexivity|].
  split; [vm_compute; left; reflexivity|].
  split; vm_compute; reflexivity.
Qed.

End ResolveClaims.

Module ManagerFacts.
Import Manager.



End ManagerFacts.

Module ManagerClaims.
Import Manager EvictionScenario.

(** C8. With [maxPeers = 2], [P1] and [P2] last seen at times 0 and 1, and
    [P3] connecting at time 2, [SetPeer] evicts the peer that the iteration
    over [peerSeen] yields last, whatever the times: with the items yielded in
    the order [P1, P2, P3] it terminates and removes [P3], the most recently
    seen peer, and keeps [P1]; with [P1, P3, P2] it removes [P2]; only when
    [P1] is yielded last is [P1] the one removed. *)
Theorem SetPeer_evicts_last_iterated :
  evicted_and_kept (connect_P3 (fun m => m)) = Some ([x03], [x01; x02])
  /\ evicted_and_kept (connect_P3 swap_last_two) = Some ([x02], [x01; x03])
  /\ evicted_and_kept (connect_P3 (@rev _)) = Some ([x01], [x02; x03]).
Proof. repeat split; vm_compute; reflexivity. Qed.

End ManagerClaims.

Module EntryMoreFacts.
Import Entry EntrySpec EntryFacts EntryMore.

Lemma swap_Permutation {A} (i j : nat) (l l' : list A) :
  swap i j l = Some l' -> l' ≡ₚ l.
Proof.
  unfold swap. destruct (l !! i) as [x|] eqn:Hi; [|discriminate].
  destruct (l !! j) as [y|] eqn:Hj; [|discriminate]. intros [= <-].
  destruct (decide (i = j)) as [->|Hne].
  - rewrite Hi in Hj. injection Hj as <-.
    rewrite list_insert_insert_eq. now rewrite list_insert_id.
  - revert i j Hi Hj Hne. induction l as [|a l IH]; intros i j Hi Hj Hne; [discriminate|].
    destruct i as [|i], j as [|j]; simpl in *; try congruence.
    + injection Hi as ->. clear IH.
      rewrite <- (take_drop_middle l j y Hj) at 2.
      rewrite insert_take_drop by (eapply lookup_lt_Some; eauto).
      rewrite <- !Permutation_middle. apply perm_swap.
    + injection Hj as ->. clear IH.
      rewrite <- (take_drop_middle l i x Hi) at 2.
      rewrite insert_take_drop by (eapply lookup_lt_Some; eauto).
      rewrite <- !Permutation_middle. apply perm_swap.
    + constructor. apply IH; congruence.
Qed.

Lemma swap_length {A} (i j : nat) (l l' : list A) :
  swap i j l = Some l' -> List.length l' = List.length l.
Proof.
  unfold swap. destruct (l !! i); [|discriminate]. destruct (l !! j); [|discriminate].
  intros [= <-]. now rewrite !length_insert.
Qed.

Lemma swap_in_range {A} (i j : nat) (l : list A) :
  (i < List.length l)%nat -> (j < List.length l)%nat -> is_Some (swap i j l).
Proof.
  intros Hi Hj. unfold swap.
  destruct (lookup_lt_is_Some_2 l i Hi) as [x ->].
  destruct (lookup_lt_is_Some_2 l j Hj) as [y ->]. eauto.
Qed.

Lemma ShuffleEntries_from_spec {A} (rand_Intn : nat -> nat) (n i : nat) (l : list A) :
  (forall k, rand_Intn k <= k)%nat ->
  (i + n = List.length l)%nat ->
  exists l', ShuffleEntries_from rand_Intn n i l = Some l' /\ l' ≡ₚ l.
Proof.
  intros Hr. revert i l. induction n as [|n IH]; intros i l Hn; simpl.
  - eauto.
  - destruct (swap_in_range i (rand_Intn i) l) as [l1 H1]; [lia | specialize (Hr i); lia |].
    rewrite H1. destruct (IH (S i) l1) as (l2 & H2 & Hp).
    + rewrite (swap_length _ _ _ _ H1). lia.
    + exists l2. split; [exact H2|]. rewrite Hp. eapply swap_Permutation; eauto.
Qed.

End EntryMoreFacts.

Module EntryMoreClaims.
Import Entry EntrySpec EntryFacts EntryMore EntryMoreFacts.

Section WithExternals.
Context `{X : Externals}.


(** X2. The canonical bytes do not mark where the name ends and the
    description begins: moving the end of the name to the front of the
    description leaves them unchanged. *)
Theorem Bytes_do_not_separate_name_and_desc (e : Entry.t) (n1 n2 d : string) :
  Bytes (with_Name_Desc (n1 ++ n2) d e) = Bytes (with_Name_Desc n1 (n2 ++ d) e).
Proof.
  unfold Bytes, String. simpl.
  destruct (Address_String (Address e)) as [a [err|]]; [reflexivity|].
  rewrite !fold_seeding. simpl. now rewrite !string_app_assoc.
Qed.

(** X3. A port that is no Unicode code point enters the canonical bytes as
    U+FFFD, whatever its value: two such ports give the same canonical bytes,
    and when both are negative or in the surrogate range 55296..57343, the
    same result of [Verify]. *)
Theorem Bytes_same_for_ports_that_are_no_code_point (e : Entry.t) (p q : Z) :
  not_a_code_point p ->
  not_a_code_point q ->
  Bytes (with_Port p e) = Bytes (with_Port q e) /\
  (p <= 65535 -> q <= 65535 ->
   Verify (Some (with_Port p e)) = Verify (Some (with_Port q e))).
Proof.
  intros Hp Hq.
  assert (Hs : forall i, not_a_code_point i -> string_of_int i = string_of_int (-1)).
  { intros i Hi. unfold string_of_int. f_equal. unfold utf8_EncodeRune.
    destruct Hi as [Hi|[Hi|Hi]].
    - replace (0 <=? i) with false by (symmetry; apply Z.leb_gt; lia). simpl.
      replace (i <? 0) with true by (symmetry; apply Z.ltb_lt; lia). reflexivity.
    - replace (i <=? 127) with false by (symmetry; apply Z.leb_gt; lia).
      replace (i <=? 2047) with false by (symmetry; apply Z.leb_gt; lia).
      rewrite !andb_false_r.
      replace (1114111 <? i) with true by (symmetry; apply Z.ltb_lt; lia).
      rewrite orb_true_r. reflexivity.
    - replace (i <=? 127) with false by (symmetry; apply Z.leb_gt; lia).
      replace (i <=? 2047) with false by (symmetry; apply Z.leb_gt; lia).
      rewrite !andb_false_r.
      replace (55296 <=? i) with true by (symmetry; apply Z.leb_le; lia).
      replace (i <=? 57343) with true by (symmetry; apply Z.leb_le; lia).
      rewrite orb_true_r. reflexivity. }
  assert (Hb : Bytes (with_Port p e) = Bytes (with_Port q e)).
  { unfold Bytes, String. simpl. now rewrite (Hs p Hp), (Hs q Hq). }
  split; [exact Hb|]. intros Hp' Hq'.
  unfold Verify. rewrite Hb. simpl.
  replace (p >? 65535) with false by (symmetry; rewrite Z.gtb_ltb; apply Z.ltb_ge; lia).
  replace (q >? 65535) with false by (symmetry; rewrite Z.gtb_ltb; apply Z.ltb_ge; lia).
  reflexivity.
Qed.

End WithExternals.

Lemma Bytes_same_for_ports_that_are_no_code_point_witness :
  Bytes (X := Sample.externals) (with_Port 55296 Sample.entry1)
    = Bytes (X := Sample.externals) (with_Port 57000 Sample.entry1) /\
  (55296 <= 65535 -> 57000 <= 65535 ->
   Verify (X := Sample.externals) (Some (with_Port 55296 Sample.entry1))
   = Verify (X := Sample.externals) (Some (with_Port 57000 Sample.entry1))).
Proof.
  apply (Bytes_same_for_ports_that_are_no_code_point (X := Sample.externals)
           Sample.entry1 55296 57000); unfold not_a_code_point; lia.
Defined.

(** X4. Whatever [rand.Intn] gives within its range, [ShuffleEntries] does
    not panic and leaves a permutation of the entries it was given. *)
Theorem ShuffleEntries_permutes (rand_Intn : nat -> nat) (slice : list (option Entry.t)) :
  (forall i, rand_Intn i <= i)%nat ->
  exists shuffled,
    ShuffleEntries rand_Intn slice = Some shuffled /\ shuffled ≡ₚ slice.
Proof.
  intros Hr. apply ShuffleEntries_from_spec; [exact Hr | reflexivity].
Qed.

Lemma ShuffleEntries_permutes_witness :
  exists shuffled,
    ShuffleEntries (fun _ => 0%nat) [Some Sample.entry1; None; Some Sample.entry_port_minus_1]
      = Some shuffled /\
    shuffled ≡ₚ [Some Sample.entry1; None; Some Sample.entry_port_minus_1].
Proof.
  apply (ShuffleEntries_permutes (fun _ => 0%nat)). intros i. lia.
Defined.

End EntryMoreClaims.

Module TableMoreFacts.
Import NetDB NetDBSpec NetDBFacts TableFacts BucketFacts TableMore.

Lemma fold_left_sizes (l : list Slice.t) (acc : Z) :
  fold_left (fun size i => size + Z.of_nat (Slice.length i)) l acc
  = acc + fold_right Z.add 0 (List.map (fun i => Z.of_nat (Slice.length i)) l).
Proof.
  revert acc. induction l as [|s l IH]; intros acc; simpl; [lia|]. rewrite IH. lia.
Qed.

Lemma Slice_length_bucket (ndb : NetDB.t) (i : nat) (s : Slice.t) :
  well_formed ndb -> table ndb !! i = Some s ->
  Slice.length s = List.length (bucket ndb i).
Proof.
  intros (_ & _ & Harr) Hs. rewrite (bucket_lookup ndb i s Hs).
  destruct (Harr i s Hs) as (arr & Ha & Hle).
  unfold elements. rewrite Ha. simpl. rewrite length_take. lia.
Qed.

Lemma TableLen_buckets (ndb : NetDB.t) :
  well_formed ndb -> TableLen ndb = buckets_total ndb.
Proof.
  intros Hwf. unfold TableLen, buckets_total. rewrite fold_left_sizes, Z.add_0_l.
  f_equal. apply list_eq. intros i. rewrite !list_lookup_fmap.
  pose proof Hwf as (Hl & _ & _).
  destruct (table ndb !! i) as [s|] eqn:Hs.
  - assert (i < 160)%nat by (apply lookup_lt_Some in Hs; lia).
    rewrite lookup_seq_lt by assumption. simpl. unfold len.
    now rewrite (Slice_length_bucket ndb i s Hwf Hs).
  - apply lookup_ge_None in Hs. rewrite lookup_seq_ge by lia. reflexivity.
Qed.

Lemma sum_bounded (f : nat -> Z) (b : Z) (l : list nat) :
  (forall i, 0 <= f i <= b) ->
  0 <= fold_right Z.add 0 (List.map f l) <= b * Z.of_nat (List.length l).
Proof.
  intros Hf. induction l as [|i l IH]; simpl; [lia|]. specialize (Hf i). lia.
Qed.

Lemma sum_one_differs (f g : nat -> Z) (k : nat) (l : list nat) :
  NoDup l -> k ∈ l ->
  (forall i, i <> k -> f i = g i) ->
  fold_right Z.add 0 (List.map f l) = fold_right Z.add 0 (List.map g l) + f k - g k.
Proof.
  intros Hnd Hk Hfg. induction l as [|i l IH]; [now apply elem_of_nil in Hk|].
  apply NoDup_cons in Hnd as [Hi Hnd]. simpl.
  destruct (decide (i = k)) as [->|Hne].
  - assert (Hsame : List.map f l = List.map g l).
    { apply map_ext_in. intros j Hj. apply Hfg. intros ->.
      apply Hi. now apply list_elem_of_In. }
    rewrite Hsame. lia.
  - apply elem_of_cons in Hk as [Hk|Hk]; [congruence|].
    rewrite (IH Hnd Hk), (Hfg i Hne). lia.
Qed.

(** The addresses of a reachable table sit in the bucket of their index. *)
Lemma reachable_indexed (self : Address.t) (ndb : NetDB.t) :
  reachable self ndb ->
  NetDB.addr ndb = self /\
  forall i a, a ∈ bucket ndb i -> index_of ndb a = i /\ (i < 160)%nat.
Proof.
  induction 1 as [|ndb addr ndb' Hr [Hself IH] Hins|ndb es ss fs Hr [Hself IH]].
  - split; [reflexivity|]. intros i a Hin. rewrite NewNetDB_bucket in Hin.
    now apply elem_of_nil in Hin.
  - destruct (reachable_invariant self ndb Hr) as [Hwf Hok].
    destruct (decide (index_of ndb addr < 160)%nat) as [Hlt|Hge].
    2:{ exfalso. unfold insertIntoTable, bind, get, index_or_panic in Hins.
        fold (index_of ndb addr) in Hins. destruct Hwf as (Hl & _ & _).
        rewrite (lookup_ge_None_2 (table ndb)) in Hins by lia. discriminate. }
    destruct (insertIntoTable_spec ndb addr Hwf Hlt)
      as (ndb2 & Hrun & _ & Haddr & _ & _ & _ & Hb & Ho).
    rewrite Hrun in Hins. injection Hins as <-.
    split; [congruence|]. intros i a Hin.
    assert (Hidx : forall x, index_of ndb2 x = index_of ndb x)
      by (intros x; unfold index_of; now rewrite Haddr).
    rewrite Hidx.
    destruct (decide (i = index_of ndb addr)) as [->|Hne].
    + rewrite Hb in Hin. apply elem_of_cons in Hin as [->|Hin]; [now split|].
      apply IH.
      destruct (find_address addr (bucket ndb (index_of ndb addr))) as [found|].
      * rewrite delete_take_drop in Hin. apply elem_of_app in Hin as [Hin|Hin].
        -- apply elem_of_take in Hin as (k & Hk & _). eapply list_elem_of_lookup_2; eauto.
        -- apply list_elem_of_lookup in Hin as [k Hk]. rewrite lookup_drop in Hk.
           eapply list_elem_of_lookup_2; eauto.
      * destruct (decide _); [|exact Hin].
        rewrite removelast_take in Hin.
        apply elem_of_take in Hin as (k & Hk & _). eapply list_elem_of_lookup_2; eauto.
    + rewrite Ho in Hin by assumption. now apply IH.
  - split; [exact Hself|]. exact IH.
Qed.

End TableMoreFacts.

Module TableMoreClaims.
Import NetDB NetDBSpec NetDBFacts TableFacts BucketFacts TableMore TableMoreFacts.

(** X5. In every reachable routing table an address sits in the bucket whose
    number is the count of leading zero bits of its distance to the local
    address, so no address is in two buckets. *)
Theorem table_addresses_in_their_bucket (self : Address.t) (ndb : NetDB.t)
    (i j : nat) (a : Address.t) :
  reachable self ndb ->
  a ∈ bucket ndb i ->
  i = Address.LeadingZeroes (Address.Xor a self) /\
  (a ∈ bucket ndb j -> j = i).
Proof.
  intros Hr Hi. destruct (reachable_indexed self ndb Hr) as [Hself Hidx].
  destruct (Hidx i a Hi) as [Hi' _]. unfold index_of in Hi'. rewrite Hself in Hi'.
  split; [congruence|]. intros Hj. destruct (Hidx j a Hj) as [Hj' _].
  unfold index_of in Hj'. rewrite Hself in Hj'. congruence.
Qed.

Lemma table_addresses_in_their_bucket_witness :
  7%nat = Address.LeadingZeroes
            (Address.Xor (Sample.address_of_byte x01) Scenario.self0) /\
  (Sample.address_of_byte x01 ∈ bucket one_address 3 -> 3%nat = 7%nat).
Proof.
  apply (table_addresses_in_their_bucket Scenario.self0 one_address
           7 3 (Sample.address_of_byte x01)).
  - apply (reachable_insert _ (NewNetDB Scenario.self0) (Sample.address_of_byte x01));
      [constructor | vm_compute; reflexivity].
  - vm_compute. left.
Defined.

(** X6. Inserting an address into the routing table a second time changes no
    bucket: the address is already at the front of its bucket. *)
Theorem insertIntoTable_twice (self : Address.t) (ndb : NetDB.t) (addr : Address.t) :
  reachable self ndb ->
  (index_of ndb addr < 160)%nat ->
  exists ndb1 ndb2,
    insertIntoTable addr ndb = Done tt ndb1 /\
    insertIntoTable addr ndb1 = Done tt ndb2 /\
    forall i, bucket ndb2 i = bucket ndb1 i.
Proof.
  intros Hr Hidx. destruct (reachable_invariant self ndb Hr) as [Hwf Hok].
  destruct (insertIntoTable_spec ndb addr Hwf Hidx)
    as (ndb1 & Hrun1 & Hwf1 & Haddr1 & _ & _ & _ & Hb1 & _).
  assert (Hr1 : reachable self ndb1) by (econstructor 2; eauto).
  destruct (reachable_invariant self ndb1 Hr1) as [_ Hok1].
  assert (Hidx1 : index_of ndb1 addr = index_of ndb addr)
    by (unfold index_of; now rewrite Haddr1).
  destruct (insertIntoTable_spec ndb1 addr Hwf1) as
    (ndb2 & Hrun2 & _ & _ & _ & _ & _ & Hb2 & Ho2); [lia|].
  exists ndb1, ndb2. split; [exact Hrun1|]. split; [exact Hrun2|].
  intros i. destruct (decide (i = index_of ndb1 addr)) as [->|Hne];
    [|now apply Ho2].
  rewrite Hb2. rewrite Hidx1 in *. rewrite Hb1.
  set (tl := match find_address addr (bucket ndb (index_of ndb addr)) with
             | Some found => delete found (bucket ndb (index_of ndb addr))
             | None => if decide (len (bucket ndb (index_of ndb addr)) = BucketSize)
                       then removelast (bucket ndb (index_of ndb addr))
                       else bucket ndb (index_of ndb addr)
             end).
  assert (Hfind : find_address addr (addr :: tl) = Some 0%nat).
  { unfold find_address. simpl.
    rewrite decide_True by (now apply Equals_true). reflexivity. }
  rewrite Hfind. reflexivity.
Qed.

Lemma insertIntoTable_twice_witness :
  exists ndb1 ndb2,
    insertIntoTable (Sample.address_of_byte x01) (NewNetDB Scenario.self0) = Done tt ndb1 /\
    insertIntoTable (Sample.address_of_byte x01) ndb1 = Done tt ndb2 /\
    forall i, bucket ndb2 i = bucket ndb1 i.
Proof.
  apply (insertIntoTable_twice Scenario.self0 (NewNetDB Scenario.self0)
           (Sample.address_of_byte x01)).
  - constructor.
  - vm_compute. lia.
Defined.

(** X7. [TableLen] of a reachable table is the number of addresses in its
    buckets and is at most 3200; inserting an address raises it by one, or
    leaves it unchanged when the address was in the table or its bucket was
    full. *)
Theorem TableLen_bounded (self : Address.t) (ndb : NetDB.t) (addr : Address.t) :
  reachable self ndb ->
  (index_of ndb addr < 160)%nat ->
  0 <= TableLen ndb <= 3200 /\
  TableLen ndb = buckets_total ndb /\
  exists ndb',
    insertIntoTable addr ndb = Done tt ndb' /\
    let old := bucket ndb (index_of ndb addr) in
    TableLen ndb' =
      if decide (addr ∈ old \/ len old = BucketSize) then TableLen ndb
      else TableLen ndb + 1.
Proof.
  intros Hr Hidx. destruct (reachable_invariant self ndb Hr) as [Hwf Hok].
  rewrite (TableLen_buckets ndb Hwf). split; [|split; [reflexivity|]].
  - unfold buckets_total.
    pose proof (sum_bounded (fun i => len (bucket ndb i)) 20 (seq 0 160)) as Hs.
    rewrite length_seq in Hs. apply Hs. intros i. destruct (Hok i) as [Hlen _].
    unfold len, BucketSize in *. lia.
  - destruct (insertIntoTable_spec ndb addr Hwf Hidx)
      as (ndb' & Hrun & Hwf' & _ & _ & _ & _ & Hb & Ho).
    exists ndb'. split; [exact Hrun|]. cbv zeta.
    rewrite (TableLen_buckets ndb' Hwf'). unfold buckets_total.
    rewrite (sum_one_differs (fun i => len (bucket ndb' i)) (fun i => len (bucket ndb i))
               (index_of ndb addr) (seq 0 160)).
    2:{ apply NoDup_seq. }
    2:{ apply elem_of_seq. lia. }
    2:{ intros i Hi. now rewrite Ho. }
    rewrite Hb, touched_computed by apply Hok. unfold touched.
    destruct (Hok (index_of ndb addr)) as [Hlen Hnd].
    set (old := bucket ndb (index_of ndb addr)) in *.
    destruct (decide (addr ∈ old)) as [Hin|Hin].
    + rewrite decide_True by tauto.
      destruct (find_address_elem addr old Hin) as [k Hk].
      apply find_address_Some in Hk as [Hk _].
      rewrite <- (delete_filter_ne addr old k Hnd Hk).
      unfold len. simpl. rewrite length_delete by eauto.
      apply lookup_lt_Some in Hk. lia.
    + destruct (decide (len old = BucketSize)) as [Hfull|Hfull].
      * rewrite decide_True by tauto. rewrite removelast_take.
        unfold len, BucketSize in *. simpl. rewrite length_take. lia.
      * rewrite decide_False by tauto. unfold len. simpl. lia.
Qed.

Lemma TableLen_bounded_witness :
  0 <= TableLen (NewNetDB Scenario.self0) <= 3200 /\
  TableLen (NewNetDB Scenario.self0) = buckets_total (NewNetDB Scenario.self0) /\
  exists ndb',
    insertIntoTable (Sample.address_of_byte x01) (NewNetDB Scenario.self0) = Done tt ndb' /\
    let old := bucket (NewNetDB Scenario.self0)
                 (index_of (NewNetDB Scenario.self0) (Sample.address_of_byte x01)) in
    TableLen ndb' =
      if decide (Sample.address_of_byte x01 ∈ old \/ len old = BucketSize)
      then TableLen (NewNetDB Scenario.self0)
      else TableLen (NewNetDB Scenario.self0) + 1.
Proof.
  apply (TableLen_bounded Scenario.self0 (NewNetDB Scenario.self0)
           (Sample.address_of_byte x01)).
  - constructor.
  - vm_compute. lia.
Defined.

End TableMoreClaims.

Module StoreMoreFacts.
Import NetDB NetDBSpec NetDBFacts TableFacts BucketFacts FindClosestFacts InsertFacts.
Import StoreMore.

Lemma preserves_bind {A B} (R : NetDB.t -> NetDB.t -> Prop)
    (c : M NetDB.t A) (k : A -> M NetDB.t B) :
  (forall s1 s2 s3, R s1 s2 -> R s2 s3 -> R s1 s3) ->
  preserves R c -> (forall a, preserves R (k a)) -> preserves R (bind c k).
Proof.
  intros Htrans Hc Hk s b s' Hrun. unfold bind in Hrun.
  destruct (c s) as [a s1| |] eqn:Hcs; try discriminate.
  eapply Htrans; [eapply Hc | eapply Hk]; eauto.
Qed.

Lemma preserves_pure {A} (R : NetDB.t -> NetDB.t -> Prop) (a : A) :
  (forall s, R s s) -> preserves R (pure a).
Proof. intros Hrefl s b s' [= _ <-]. apply Hrefl. Qed.

Lemma preserves_get (R : NetDB.t -> NetDB.t -> Prop) :
  (forall s, R s s) -> preserves R get.
Proof. intros Hrefl s b s' [= _ <-]. apply Hrefl. Qed.

Lemma preserves_index {A} (R : NetDB.t -> NetDB.t -> Prop) (l : list A) (i : nat) :
  (forall s, R s s) -> preserves R (index_or_panic l i).
Proof.
  intros Hrefl s b s'. unfold index_or_panic. destruct (l !! i); [|discriminate].
  intros [= _ <-]. apply Hrefl.
Qed.

Section Loops.
Context `{X : Externals}.
Variable R : NetDB.t -> NetDB.t -> Prop.
Hypothesis R_refl : forall s, R s s.
Hypothesis R_trans : forall s1 s2 s3, R s1 s2 -> R s2 s3 -> R s1 s3.
Hypothesis R_insertIntoTable : forall addr, preserves R (insertIntoTable addr).

Lemma preserves_Query (addr : Address.t) : preserves R (Query addr).
Proof.
  unfold Query. destruct (Address_String addr) as [a [err|]];
    [now apply preserves_pure|].
  apply preserves_bind; [exact R_trans | now apply preserves_get |]. intros ndb.
  destruct (select_entry_by_address _ _) as [row|]; [|now apply preserves_pure].
  destruct (DecodeAddress _) as [d [err|]]; [now apply preserves_pure|].
  destruct (addSeedToEntry _ _ _) as [e [err|]]; [now apply preserves_pure|].
  apply preserves_bind; [exact R_trans | apply R_insertIntoTable |].
  intros _. now apply preserves_pure.
Qed.

Lemma preserves_FindClosest_range (b : Slice.t) (n pos : nat) (ret : list (option Entry.t)) :
  preserves R (FindClosest_range b n pos ret).
Proof.
  revert pos ret. induction n as [|n IH]; intros pos ret; [now apply preserves_pure|].
  simpl. apply preserves_bind; [exact R_trans | now apply preserves_get |]. intros ndb.
  apply preserves_bind; [exact R_trans | now apply preserves_index |]. intros i.
  destruct (len ret >=? BucketSize); [now apply preserves_pure|].
  apply preserves_bind; [exact R_trans | apply preserves_Query |].
  intros [[kv id] [err|]]; apply IH.
Qed.

Lemma preserves_queryAddresses_range (b : Slice.t) (n pos : nat)
    (ret : list (option Entry.t)) :
  preserves R (queryAddresses_range b n pos ret).
Proof.
  revert pos ret. induction n as [|n IH]; intros pos ret; [now apply preserves_pure|].
  simpl. apply preserves_bind; [exact R_trans | now apply preserves_get |]. intros ndb.
  apply preserves_bind; [exact R_trans | now apply preserves_index |]. intros i.
  apply preserves_bind; [exact R_trans | apply preserves_Query |].
  intros [[kv id] [err|]]; apply IH.
Qed.

Lemma preserves_FindClosest_loop (fuel : nat) (addr : Address.t) (index i : Z)
    (ret : list (option Entry.t)) :
  preserves R (FindClosest_loop fuel addr index i ret).
Proof.
  revert i ret. induction fuel as [|fuel IH]; intros i ret; simpl.
  - destruct (_ && _); [intros s a s'; discriminate | now apply preserves_pure].
  - destruct (_ && _); [|now apply preserves_pure].
    apply preserves_bind; [exact R_trans | |].
    { destruct (index - i >=? 0); [|now apply preserves_pure].
      apply preserves_bind; [exact R_trans | now apply preserves_get |]. intros ndb.
      apply preserves_bind; [exact R_trans | now apply preserves_index |]. intros b.
      apply preserves_FindClosest_range. }
    intros ret1. apply preserves_bind; [exact R_trans | |].
    { destruct (index + i <? _); [|now apply preserves_pure].
      apply preserves_bind; [exact R_trans | now apply preserves_get |]. intros ndb.
      apply preserves_bind; [exact R_trans | now apply preserves_index |]. intros b.
      apply preserves_FindClosest_range. }
    intros ret2. apply IH.
Qed.

Lemma preserves_FindClosest (addr : Address.t) : preserves R (FindClosest addr).
Proof.
  unfold FindClosest.
  apply preserves_bind; [exact R_trans | now apply preserves_get |]. intros ndb.
  apply preserves_bind; [exact R_trans | now apply preserves_index |]. intros b.
  destruct (_ =? _).
  - apply preserves_bind; [exact R_trans | apply preserves_queryAddresses_range |].
    intros r. now apply preserves_pure.
  - apply preserves_bind; [exact R_trans | apply preserves_FindClosest_loop |].
    intros r. now apply preserves_pure.
Qed.

End Loops.

Lemma same_sql_refl (s : NetDB.t) : same_sql s s.
Proof. repeat split. Qed.

Lemma same_sql_trans (s1 s2 s3 : NetDB.t) :
  same_sql s1 s2 -> same_sql s2 s3 -> same_sql s1 s3.
Proof. unfold same_sql. intros (?&?&?&?) (?&?&?&?). repeat split; congruence. Qed.

Lemma insertIntoTable_same_sql (addr : Address.t) :
  preserves same_sql (insertIntoTable addr).
Proof.
  intros s a s'. unfold insertIntoTable, bind, get, index_or_panic.
  destruct (table s !! _); [|discriminate]. unfold pure.
  destruct (find_address _ _); [|destruct (_ =? _)]; intros [= _ <-]; repeat split.
Qed.

Section WithExternals.
Context `{X : Externals}.

Lemma FindClosest_same_sql (addr : Address.t) : preserves same_sql (FindClosest addr).
Proof.
  apply preserves_FindClosest;
    [apply same_sql_refl | apply same_sql_trans | apply insertIntoTable_same_sql].
Qed.

Lemma Query_same_sql (addr : Address.t) : preserves same_sql (Query addr).
Proof.
  apply preserves_Query;
    [apply same_sql_refl | apply same_sql_trans | apply insertIntoTable_same_sql].
Qed.

End WithExternals.

End StoreMoreFacts.
Module StoreOkFacts.
Import NetDB NetDBSpec NetDBFacts TableFacts BucketFacts FindClosestFacts InsertFacts.
Import StoreMore StoreMoreFacts.

Lemma fold_max_seq (a n : nat) :
  fold_right Z.max 0 (List.map Z.of_nat (seq a n))
  = if decide (n = 0%nat) then 0 else Z.of_nat (a + n - 1).
Proof.
  revert a. induction n as [|n IH]; intros a; [reflexivity|].
  simpl. rewrite IH. destruct (decide (n = 0%nat)); simpl; lia.
Qed.

Lemma next_id_ids_up_to (n : nat) : next_id (ids_up_to n) = Z.of_nat (S n).
Proof.
  unfold next_id, ids_up_to. rewrite fold_max_seq.
  destruct (decide (n = 0%nat)); lia.
Qed.

Lemma ids_up_to_S (n : nat) : ids_up_to (S n) = ids_up_to n ++ [Z.of_nat (S n)].
Proof. unfold ids_up_to. rewrite seq_S, map_app. reflexivity. Qed.

Lemma elem_ids_up_to (x : Z) (n : nat) : x ∈ ids_up_to n <-> 1 <= x <= Z.of_nat n.
Proof.
  unfold ids_up_to. rewrite list_elem_of_fmap. split.
  - intros (k & -> & Hk). apply elem_of_seq in Hk. lia.
  - intros Hx. exists (Z.to_nat x). split; [lia|]. apply elem_of_seq. lia.
Qed.

Lemma store_ok_ext (s s' : NetDB.t) :
  entry_rows s' = entry_rows s -> seed_rows s' = seed_rows s ->
  fts_rows s' = fts_rows s -> store_ok s -> store_ok s'.
Proof.
  intros He Hs Hf [H1 H2 H3 H4 H5 H6].
  constructor; unfold unique_addresses; rewrite ?He, ?Hs, ?Hf; assumption.
Qed.

Lemma store_ok_same_sql (s s' : NetDB.t) : same_sql s s' -> store_ok s -> store_ok s'.
Proof. intros (He & Hs & Hf & _). now apply store_ok_ext. Qed.

Lemma NewNetDB_store_ok (self : Address.t) : store_ok (NewNetDB self).
Proof.
  constructor; unfold unique_addresses; simpl; try reflexivity; constructor.
Qed.

Lemma select_Some_row (rows : list Row.t) (a : string) (r : Row.t) :
  select_entry_by_address rows a = Some r -> r ∈ rows /\ Row.address r = a.
Proof.
  unfold select_entry_by_address. intros Hf. apply List.find_some in Hf as [Hin Heq].
  split; [now apply list_elem_of_In | now apply String.eqb_eq].
Qed.

Lemma row_id_bounds (ndb : NetDB.t) (r : Row.t) :
  store_ok ndb -> r ∈ entry_rows ndb -> 1 <= Row.id r <= len (entry_rows ndb).
Proof.
  intros Hok Hin. apply elem_ids_up_to. rewrite <- (store_ids ndb Hok).
  apply list_elem_of_fmap. now exists r.
Qed.

Section WithExternals.
Context `{X : Externals}.

Lemma update_row_valid (e : Entry.t) (r : Row.t) :
  Entry.Verify (Some e) = None -> row_valid (update_row e r).
Proof.
  intros Hv. apply EntryFacts.Verify_accepts_iff in Hv
    as ((_ & Hn & Hd & Hs & Hk & Hg & _) & Hp & Hport).
  unfold row_valid. simpl. repeat split; try assumption; try lia.
  unfold len. lia.
Qed.

Lemma Update_store_ok (e : Entry.t) (s s' : NetDB.t) (r : Z * option error) :
  store_ok s -> Update e s = Done r s' -> store_ok s'.
Proof.
  intros Hok. unfold Update.
  destruct (Entry.Verify (Some e)) as [err|] eqn:Hv; [now intros [= _ <-]|].
  destruct (Address_String _) as [a [err|]]; [now intros [= _ <-]|].
  unfold bind, get, put, exec_update_entry. simpl. intros [= _ <-].
  destruct Hok as [H1 H2 H3 H4 H5 H6].
  constructor; unfold unique_addresses; simpl.
  - now rewrite addresses_update.
  - rewrite length_map, <- H2. rewrite List.map_map. apply map_ext.
    intros x. now destruct (String.eqb _ _).
  - apply Forall_fmap. eapply Forall_impl; [exact H3|].
    intros x Hx. simpl. destruct (String.eqb _ _); [now apply update_row_valid | exact Hx].
  - rewrite H4. rewrite List.map_map. apply map_ext.
    intros x. now destruct (String.eqb _ _).
  - unfold len. rewrite length_map. exact H5.
  - exact H6.
Qed.

Lemma existsb_docid_fresh (id : Z) (rows : list FtsRow.t) :
  id ∉ List.map FtsRow.docid rows ->
  existsb (fun r => FtsRow.docid r =? id) rows = false.
Proof.
  induction rows as [|r rows IH]; [reflexivity|]. simpl. intros Hn.
  apply not_elem_of_cons in Hn as [Hne Hn]. rewrite (IH Hn).
  replace (FtsRow.docid r =? id) with false; [reflexivity|].
  symmetry. apply Z.eqb_neq. congruence.
Qed.

Lemma insertIntoDB_store_ok (e : Entry.t) (s s' : NetDB.t) (r : Z * option error) :
  Entry.Verify (Some e) = None ->
  store_ok s -> insertIntoDB e s = Done r s' -> store_ok s'.
Proof.
  intros Hv Hok. unfold insertIntoDB.
  destruct (Address_String _) as [a [err|]]; [now intros [= _ <-]|].
  unfold bind at 1, get. unfold exec_insert_entry.
  destruct (select_entry_by_address (entry_rows s) a) as [row|] eqn:Hsel.
  - unfold bind, put. simpl. intros [= _ <-]. now apply (store_ok_ext s).
  - unfold bind, put, get. simpl. intros [= _ <-].
    pose proof Hok as [H1 H2 H3 H4 H5 H6].
    set (n := List.length (entry_rows s)) in *.
    assert (Hid : next_id (List.map Row.id (entry_rows s)) = Z.of_nat (S n))
      by (rewrite H2; apply next_id_ids_up_to).
    rewrite Hid.
    assert (Hfresh : Z.of_nat (S n) ∉ List.map FtsRow.docid (fts_rows s)).
    { rewrite H4, H2. rewrite elem_ids_up_to. lia. }
    unfold exec_insert_fts. rewrite (existsb_docid_fresh _ _ Hfresh).
    constructor; unfold unique_addresses; simpl.
    + rewrite map_app. simpl. apply NoDup_app. split; [exact H1|]. split.
      * intros x Hx Hx'. apply list_elem_of_singleton in Hx'. subst x.
        apply select_None_not_in in Hsel. contradiction.
      * apply NoDup_singleton.
    + rewrite map_app, length_app. simpl. rewrite H2. fold n.
      replace (n + 1)%nat with (S n) by lia. rewrite ids_up_to_S. reflexivity.
    + apply Forall_app. split; [exact H3|]. apply Forall_singleton.
      now apply update_row_valid.
    + rewrite !map_app. simpl. now rewrite H4.
    + eapply Forall_impl; [exact H5|]. unfold len. rewrite length_app. simpl.
      intros x. lia.
    + exact H6.
Qed.

Lemma existsb_pair_fresh (a b : Z) (rows : list SeedRow.t) :
  existsb (fun r => (SeedRow.seed r =? a) && (SeedRow.for_ r =? b)) rows = false ->
  (a, b) ∉ List.map (fun s => (SeedRow.seed s, SeedRow.for_ s)) rows.
Proof.
  induction rows as [|r rows IH]; simpl; [intros _; apply not_elem_of_nil|].
  intros Hf. apply orb_false_iff in Hf as [Hr Hf].
  apply not_elem_of_cons. split; [|now apply IH].
  intros [= -> ->]. rewrite !Z.eqb_refl in Hr. discriminate.
Qed.

Lemma InsertSeed_store_ok (entry seed : Address.t) (s s' : NetDB.t) (r : option error) :
  store_ok s -> InsertSeed entry seed s = Done r s' -> store_ok s'.
Proof.
  intros Hok. unfold InsertSeed.
  destruct (Address_String entry) as [ea err0].
  destruct (Address_String seed) as [sa [err|]]; [now intros [= _ <-]|].
  unfold bind, get.
  destruct (select_entry_by_address _ ea) as [er|] eqn:He; [|now intros [= _ <-]].
  destruct (select_entry_by_address _ sa) as [sr|] eqn:Hs; [|now intros [= _ <-]].
  unfold put. simpl. intros [= _ <-].
  apply select_Some_row in He as [He _]. apply select_Some_row in Hs as [Hs _].
  pose proof (row_id_bounds s er Hok He). pose proof (row_id_bounds s sr Hok Hs).
  destruct Hok as [H1 H2 H3 H4 H5 H6].
  unfold exec_insert_seed.
  destruct (existsb _ (seed_rows s)) eqn:Hex;
    constructor; unfold unique_addresses; simpl; try assumption.
  - apply Forall_app. split; [exact H5|]. apply Forall_singleton. simpl. lia.
  - rewrite map_app. simpl. apply NoDup_app. split; [exact H6|]. split.
    + intros x Hx Hx'. apply list_elem_of_singleton in Hx'. subst x.
      apply existsb_pair_fresh in Hex. contradiction.
    + apply NoDup_singleton.
Qed.

Lemma InsertSeed_each_store_ok (f : Address.t -> Address.t * Address.t) (l : list bytes)
    (s s' : NetDB.t) (r : option error) :
  store_ok s -> InsertSeed_each f l s = Done r s' -> store_ok s'.
Proof.
  revert s. induction l as [|i l IH]; intros s Hok; [now intros [= _ <-]|].
  simpl. unfold bind.
  destruct (InsertSeed _ _ s) as [err s1| |] eqn:H1; try discriminate.
  apply InsertSeed_store_ok in H1; [|exact Hok].
  destruct err as [err|]; [now intros [= _ <-]|]. now apply IH.
Qed.

Lemma insertEntrySeeds_store_ok (e : Entry.t) (s s' : NetDB.t) (r : option error) :
  store_ok s -> insertEntrySeeds e s = Done r s' -> store_ok s'.
Proof.
  intros Hok. unfold insertEntrySeeds, bind.
  destruct (InsertSeed_each _ (Entry.Seeding e) s) as [err s1| |] eqn:H1; try discriminate.
  apply InsertSeed_each_store_ok in H1; [|exact Hok].
  destruct err as [err|]; [now intros [= _ <-]|].
  now apply InsertSeed_each_store_ok.
Qed.

Lemma Insert_store_ok (e : Entry.t) (s s' : NetDB.t) (r : Z * option error) :
  store_ok s -> Insert e s = Done r s' -> store_ok s'.
Proof.
  intros Hok. unfold Insert.
  destruct (Entry.Verify (Some e)) as [err|] eqn:Hv; [now intros [= _ <-]|].
  unfold bind at 1.
  destruct (insertIntoTable _ s) as [[] s1| |] eqn:H1; try discriminate.
  apply insertIntoTable_same_sql in H1. apply (store_ok_same_sql _ _ H1) in Hok.
  unfold bind at 1.
  destruct (Update e s1) as [[affected err] s2| |] eqn:H2; try discriminate.
  apply Update_store_ok in H2; [|exact Hok].
  destruct err as [err|]; [now intros [= _ <-]|].
  destruct (affected >? 0); [now intros [= _ <-]|].
  unfold bind at 1.
  destruct (insertIntoDB e s2) as [[affected' err] s3| |] eqn:H3; try discriminate.
  apply insertIntoDB_store_ok in H3; [|exact Hv|exact H2].
  destruct err as [err|]; [now intros [= _ <-]|].
  unfold bind.
  destruct (insertEntrySeeds e s3) as [err s4| |] eqn:H4; try discriminate.
  apply insertEntrySeeds_store_ok in H4; [|exact H3].
  now intros [= _ <-].
Qed.

End WithExternals.

End StoreOkFacts.
Module StoreTableFacts.
Import NetDB NetDBSpec NetDBFacts TableFacts BucketFacts FindClosestFacts InsertFacts.
Import StoreMore StoreMoreFacts StoreOkFacts.

Lemma reachable_ext (self : Address.t) (s s' : NetDB.t) :
  reachable self s ->
  table s' = table s -> store s' = store s -> NetDB.addr s' = NetDB.addr s ->
  reachable self s'.
Proof.
  intros Hr Ht Hs Ha.
  assert (Heq : s' = set_fts_rows (fts_rows s')
                       (set_seed_rows (seed_rows s') (set_entry_rows (entry_rows s') s))).
  { destruct s, s'. simpl in *. subst. reflexivity. }
  rewrite Heq. now constructor.
Qed.

Lemma reachable_insertIntoTable (self : Address.t) (addr : Address.t) :
  preserves (fun s s' => reachable self s -> reachable self s') (insertIntoTable addr).
Proof. intros s [] s' Hrun Hr. econstructor 2; eauto. Qed.

Section WithExternals.
Context `{X : Externals}.

Lemma Update_same_table (e : Entry.t) (s s' : NetDB.t) (r : Z * option error) :
  Update e s = Done r s' ->
  table s' = table s /\ store s' = store s /\ NetDB.addr s' = NetDB.addr s.
Proof.
  unfold Update. destruct (Entry.Verify _); [now intros [= _ <-]|].
  destruct (Address_String _) as [a [err|]]; [now intros [= _ <-]|].
  unfold bind, get, put. simpl. now intros [= _ <-].
Qed.

Lemma insertIntoDB_same_table (e : Entry.t) (s s' : NetDB.t) (r : Z * option error) :
  insertIntoDB e s = Done r s' ->
  table s' = table s /\ store s' = store s /\ NetDB.addr s' = NetDB.addr s.
Proof.
  unfold insertIntoDB. destruct (Address_String _) as [a [err|]]; [now intros [= _ <-]|].
  unfold bind at 1, get. unfold exec_insert_entry.
  destruct (select_entry_by_address _ _); unfold bind, put, get; simpl;
    now intros [= _ <-].
Qed.

Lemma InsertSeed_same_table (entry seed : Address.t) (s s' : NetDB.t) (r : option error) :
  InsertSeed entry seed s = Done r s' ->
  table s' = table s /\ store s' = store s /\ NetDB.addr s' = NetDB.addr s.
Proof.
  intros Hrun. destruct (InsertSeed_frame entry seed s) as (err & s1 & H1 & Ht & Hs & Ha & _).
  rewrite H1 in Hrun. injection Hrun as _ <-. tauto.
Qed.

Lemma insertEntrySeeds_same_table (e : Entry.t) (s s' : NetDB.t) (r : option error) :
  insertEntrySeeds e s = Done r s' ->
  table s' = table s /\ store s' = store s /\ NetDB.addr s' = NetDB.addr s.
Proof.
  intros Hrun. destruct (insertEntrySeeds_frame e s) as (err & s1 & H1 & Ht & Hs & Ha & _).
  rewrite H1 in Hrun. injection Hrun as _ <-. tauto.
Qed.

Lemma Insert_reachable (self : Address.t) (e : Entry.t) (s s' : NetDB.t)
    (r : Z * option error) :
  reachable self s -> Insert e s = Done r s' -> reachable self s'.
Proof.
  intros Hr. unfold Insert.
  destruct (Entry.Verify (Some e)) as [err|] eqn:Hv; [now intros [= _ <-]|].
  unfold bind at 1.
  destruct (insertIntoTable _ s) as [[] s1| |] eqn:H1; try discriminate.
  assert (Hr1 : reachable self s1) by (econstructor 2; eauto).
  unfold bind at 1.
  destruct (Update e s1) as [[affected err] s2| |] eqn:H2; try discriminate.
  apply Update_same_table in H2 as (Ht2 & Hs2 & Ha2).
  assert (Hr2 : reachable self s2) by (now apply (reachable_ext self s1)).
  destruct err as [err|]; [now intros [= _ <-]|].
  destruct (affected >? 0); [now intros [= _ <-]|].
  unfold bind at 1.
  destruct (insertIntoDB e s2) as [[affected' err] s3| |] eqn:H3; try discriminate.
  apply insertIntoDB_same_table in H3 as (Ht3 & Hs3 & Ha3).
  assert (Hr3 : reachable self s3) by (now apply (reachable_ext self s2)).
  destruct err as [err|]; [now intros [= _ <-]|].
  unfold bind.
  destruct (insertEntrySeeds e s3) as [err s4| |] eqn:H4; try discriminate.
  apply insertEntrySeeds_same_table in H4 as (Ht4 & Hs4 & Ha4).
  intros [= _ <-]. now apply (reachable_ext self s3).
Qed.

Lemma Query_reachable (self addr : Address.t) :
  preserves (fun s s' => reachable self s -> reachable self s') (Query addr).
Proof.
  apply preserves_Query; [tauto | tauto | apply reachable_insertIntoTable].
Qed.

Lemma FindClosest_reachable (self addr : Address.t) :
  preserves (fun s s' => reachable self s -> reachable self s') (FindClosest addr).
Proof.
  apply preserves_FindClosest; [tauto | tauto | apply reachable_insertIntoTable].
Qed.

(** Every state that the exported methods lead to has a reachable routing
    table and SQL tables that satisfy [store_ok]. *)
Lemma api_reachable_invariant (self : Address.t) (ndb : NetDB.t) :
  api_reachable self ndb -> reachable self ndb /\ store_ok ndb.
Proof.
  induction 1 as [|ndb e r ndb' _ [Hr Hok] Hrun|ndb e r ndb' _ [Hr Hok] Hrun
                  |ndb en sd r ndb' _ [Hr Hok] Hrun|ndb a r ndb' _ [Hr Hok] Hrun
                  |ndb a r ndb' _ [Hr Hok] Hrun].
  - split; [constructor | apply NewNetDB_store_ok].
  - split; [eapply Insert_reachable | eapply Insert_store_ok]; eauto.
  - split; [|eapply Update_store_ok; eauto].
    apply Update_same_table in Hrun as (?&?&?). now apply (reachable_ext self ndb).
  - split; [|eapply InsertSeed_store_ok; eauto].
    apply InsertSeed_same_table in Hrun as (?&?&?). now apply (reachable_ext self ndb).
  - split; [eapply Query_reachable; eauto|].
    eapply store_ok_same_sql; [eapply Query_same_sql|]; eauto.
  - split; [eapply FindClosest_reachable; eauto|].
    eapply store_ok_same_sql; [eapply FindClosest_same_sql|]; eauto.
Qed.

End WithExternals.

End StoreTableFacts.
Module StoreMoreClaims.
Import NetDB NetDBSpec NetDBFacts TableFacts BucketFacts FindClosestFacts InsertFacts.
Import StoreMore StoreMoreFacts StoreOkFacts StoreTableFacts.




Lemma exec_insert_seed_twice (a b : Z) (rows : list SeedRow.t) :
  exec_insert_seed a b (exec_insert_seed a b rows) = exec_insert_seed a b rows.
Proof.
  unfold exec_insert_seed at 2 3.
  destruct (existsb _ rows) eqn:Hex.
  - unfold exec_insert_seed. now rewrite Hex.
  - unfold exec_insert_seed. rewrite existsb_app. simpl. rewrite !Z.eqb_refl. simpl.
    now rewrite orb_true_r.
Qed.

Lemma exec_insert_seed_length (a b : Z) (rows : list SeedRow.t) :
  len (exec_insert_seed a b rows) <= len rows + 1.
Proof.
  unfold exec_insert_seed, len. destruct (existsb _ rows); [lia|].
  rewrite length_app. simpl. lia.
Qed.

Section WithExternals.
Context `{X : Externals}.

(** X8. [FindClosest] never runs out of fuel, and when it returns it returns
    no error and at most 20 entries and has changed none of the SQL tables:
    it only reorders the routing table, through [Query]. *)
Theorem FindClosest_writes_no_row (addr : Address.t) (s : NetDB.t) :
  match FindClosest addr s with
  | Done (r, err) s' => err = None /\ len r <= BucketSize /\ same_sql s s'
  | Panic => True
  | OutOfFuel => False
  end.
Proof.
  destruct (FindClosest addr s) as [[r err] s'| |] eqn:Hrun; [|exact I|].
  - split; [|split].
    + revert Hrun. unfold FindClosest, bind, get, index_or_panic.
      destruct (table s !! _); [|discriminate]. unfold pure.
      destruct (_ =? _).
      * destruct (queryAddresses _ _); try discriminate. congruence.
      * destruct (FindClosest_loop _ _ _ _ _ _); try discriminate. congruence.
    + eapply FindClosest_length; eauto.
    + eapply FindClosest_same_sql; eauto.
  - now apply terminates_FindClosest in Hrun.
Qed.


(** X11. [InsertSeed] returns, and a second call with the same addresses
    returns the same and changes nothing; a call that returns an error changes
    nothing; a call adds at most one row to the seed table and leaves the entry
    table alone. *)
Theorem InsertSeed_twice (entry seed : Address.t) (s : NetDB.t) :
  exists err s1,
    InsertSeed entry seed s = Done err s1 /\
    InsertSeed entry seed s1 = Done err s1 /\
    (err <> None -> s1 = s) /\
    entry_rows s1 = entry_rows s /\
    len (seed_rows s) <= len (seed_rows s1) <= len (seed_rows s) + 1.
Proof.
  unfold InsertSeed.
  destruct (Address_String entry) as [ea err0].
  destruct (Address_String seed) as [sa [err|]].
  { eexists _, _. repeat split; lia. }
  unfold bind, get.
  destruct (select_entry_by_address (entry_rows s) ea) as [er|] eqn:He.
  2:{ exists (Some sql_ErrNoRows), s. rewrite He. repeat split; lia. }
  destruct (select_entry_by_address (entry_rows s) sa) as [sr|] eqn:Hs.
  2:{ exists (Some sql_ErrNoRows), s. rewrite He, Hs. repeat split; lia. }
  unfold put, pure. eexists _, _. split; [reflexivity|]. simpl. rewrite He, Hs.
  split. { unfold set_seed_rows. simpl. now rewrite exec_insert_seed_twice. }
  split; [congruence|]. split; [reflexivity|].
  split; [|apply exec_insert_seed_length].
  unfold exec_insert_seed, len. destruct (existsb _ _); [lia|].
  rewrite length_app. lia.
Qed.

Lemma addSeedToEntry_columns (ndb : NetDB.t) (e : Entry.t) (id : Z) :
  same_columns e (fst (addSeedToEntry ndb e id)) /\
  Entry.Address (fst (addSeedToEntry ndb e id)) = Entry.Address e.
Proof.
  unfold addSeedToEntry.
  destruct (querySeeds ndb id) as [seeds [err|]]; [repeat split|].
  destruct (querySeeding ndb id) as [seeding [err|]]; repeat split.
Qed.

Lemma QueryLatest_scan_spec (ndb : NetDB.t) (entries : list Row.t) (ret : list Entry.t) :
  let r := QueryLatest_scan ndb entries ret in
  (snd r = None ->
     exists l, fst r = ret ++ l /\
       List.map Entry.Name l = List.map Row.name entries /\
       Forall (fun e => Entry.Address e = Address.Build []) l) /\
  (snd r <> None -> fst r = []).
Proof.
  revert ret. induction entries as [|row entries IH]; intros ret; simpl.
  - split; [|congruence]. intros _. exists []. now rewrite app_nil_r.
  - match goal with |- context [addSeedToEntry ndb ?e0 ?i] =>
      pose proof (addSeedToEntry_columns ndb e0 i) as [(Hn & _) Ha];
      destruct (addSeedToEntry ndb e0 i) as [e [err|]]
    end; simpl in *.
    + split; congruence.
    + destruct (IH (ret ++ [e])) as [Hok Herr]. split; [|exact Herr].
      intros Hnone. destruct (Hok Hnone) as (l & Hl & Hnames & Haddr).
      exists (e :: l). rewrite Hl, <- app_assoc. split; [reflexivity|].
      split; [simpl; congruence|]. now constructor.
Qed.

(** X12. [QueryLatest] returns at most 20 entries, one for each of the rows
    with the greatest ids, and sets the address of none of them: the address
    column is scanned into a local variable that is never used, so every entry
    it returns is rejected by [Verify]. *)
Theorem QueryLatest_entries_have_no_address (ndb : NetDB.t) :
  len (fst (QueryLatest ndb)) <= 20 /\
  Forall (fun e => Entry.Address e = Address.Build [] /\
                   Entry.Verify (Some e) = Some (errors_New "Address size invalid"))
    (fst (QueryLatest ndb)) /\
  match snd (QueryLatest ndb) with
  | None => List.map Entry.Name (fst (QueryLatest ndb))
            = List.map Row.name (select_latest (entry_rows ndb))
  | Some _ => fst (QueryLatest ndb) = []
  end.
Proof.
  unfold QueryLatest.
  destruct (QueryLatest_scan_spec ndb (select_latest (entry_rows ndb)) []) as [Hok Herr].
  destruct (QueryLatest_scan _ _ _) as [r [err|]]; simpl in *.
  - rewrite Herr by discriminate. repeat split; [unfold len; simpl; lia | constructor].
  - destruct (Hok eq_refl) as (l & -> & Hnames & Haddr). simpl.
    split; [|split; [|exact Hnames]].
    + unfold len. rewrite <- (length_map Entry.Name), Hnames, length_map.
      unfold select_latest. rewrite length_take. lia.
    + eapply Forall_impl; [exact Haddr|]. intros e0 He. split; [exact He|].
      unfold Entry.Verify. now rewrite He.
Qed.

Lemma Insert_count (e : Entry.t) (s s' : NetDB.t) (n : Z) (err : option error) :
  unique_addresses s -> Insert e s = Done (n, err) s' -> n = 0 \/ n = 1.
Proof.
  intros Hu. unfold Insert.
  destruct (Entry.Verify (Some e)) as [ev|] eqn:Hv; [intros [= <- _ _]; now left|].
  unfold bind at 1.
  destruct (insertIntoTable _ s) as [[] s1| |] eqn:H1; try discriminate.
  apply insertIntoTable_same_sql in H1 as (Hrows & _).
  unfold bind at 1. unfold Update. rewrite Hv.
  destruct (Address_String _) as [a [ea|]] eqn:Ha.
  { intros [= <- _ _]. now left. }
  unfold bind at 1, get, put, exec_update_entry. simpl.
  fold (matching_rows a (entry_rows s1)). rewrite Hrows.
  pose proof (matching_rows_unique a (entry_rows s) Hu) as Hle.
  pose proof (matching_rows_nonneg a (entry_rows s)) as Hge.
  destruct (matching_rows a (entry_rows s) >? 0) eqn:Hpos.
  { intros [= <- _ _]. lia. }
  unfold bind at 1. unfold insertIntoDB. rewrite Ha.
  unfold bind at 1, get. unfold exec_insert_entry.
  destruct (select_entry_by_address _ a) as [row|].
  - unfold bind, put, pure. simpl.
    destruct (insertEntrySeeds e _) as [er s4| |]; try discriminate.
    intros [= <- _ _]. now left.
  - unfold bind, put, get, pure. simpl.
    destruct (insertEntrySeeds e _) as [er s4| |]; try discriminate.
    intros [= <- _ _]. now right.
Qed.

(** X13. In every state that [Insert], [Update], [InsertSeed], [Query] and
    [FindClosest] lead to from [NewNetDB], whatever they return: addresses in
    the entry table are unique, its ids are 1, 2, ... in insertion order, every
    row is within the limits of [Verify] and has its full-text row, the seed
    table relates existing rows and holds no pair twice, every bucket holds at
    most 20 addresses, none twice; and [Insert] reports 0 rows or 1. *)
Theorem api_reachable_store (self : Address.t) (ndb : NetDB.t) :
  api_reachable self ndb ->
  store_ok ndb /\
  (forall i, bucket_ok (bucket ndb i)) /\
  (forall e n err ndb', Insert e ndb = Done (n, err) ndb' -> n = 0 \/ n = 1).
Proof.
  intros Hr. apply api_reachable_invariant in Hr as [Hr Hok].
  split; [exact Hok|]. split; [apply (reachable_invariant self ndb Hr)|].
  intros e n err ndb'. apply Insert_count, Hok.
Qed.

End WithExternals.

Lemma api_reachable_store_witness :
  store_ok one_entry /\
  (forall i, bucket_ok (bucket one_entry i)) /\
  (forall e n err ndb',
     Insert (X := Sample.externals) e one_entry = Done (n, err) ndb' -> n = 0 \/ n = 1).
Proof.
  apply (api_reachable_store (X := Sample.externals) Scenario.self0 one_entry).
  apply (api_Insert (X := Sample.externals) _ (NewNetDB Scenario.self0) Sample.entry1
           (1, None)); [constructor | vm_compute; reflexivity].
Defined.

End StoreMoreClaims.
Module RoundTripFacts.
Import NetDB NetDBSpec NetDBFacts TableFacts BucketFacts FindClosestFacts InsertFacts.
Import StoreMore StoreMoreFacts StoreOkFacts StoreTableFacts.




Section WithExternals.
Context `{X : Externals}.


Lemma select_seeds_decodable (ndb : NetDB.t) (id : Z) :
  decodable ndb -> Forall (fun a => snd (DecodeAddress a) = None) (select_seeds ndb id).
Proof.
  intros Hd. unfold select_seeds. apply Forall_forall. intros a Ha.
  apply list_elem_of_In, in_flat_map in Ha as (s & _ & Ha).
  destruct (SeedRow.for_ s =? id); [|contradiction].
  apply in_map_iff in Ha as (r & <- & Hr). apply filter_In in Hr as [Hr _].
  unfold decodable in Hd. rewrite Forall_forall in Hd. apply Hd.
  now apply list_elem_of_In.
Qed.

Lemma select_seeding_decodable (ndb : NetDB.t) (id : Z) :
  decodable ndb -> Forall (fun a => snd (DecodeAddress a) = None) (select_seeding ndb id).
Proof.
  intros Hd. unfold select_seeding. apply Forall_forall. intros a Ha.
  apply list_elem_of_In, in_flat_map in Ha as (s & _ & Ha).
  destruct (SeedRow.seed s =? id); [|contradiction].
  apply in_map_iff in Ha as (r & <- & Hr). apply filter_In in Hr as [Hr _].
  unfold decodable in Hd. rewrite Forall_forall in Hd. apply Hd.
  now apply list_elem_of_In.
Qed.



End WithExternals.

End RoundTripFacts.

Module RoundTripClaims.
Import NetDB NetDBSpec NetDBFacts TableFacts BucketFacts FindClosestFacts InsertFacts.
Import StoreMore StoreMoreFacts StoreOkFacts StoreTableFacts StoreMoreClaims RoundTripFacts.

Section WithExternals.
Context `{X : Externals}.


End WithExternals.


End RoundTripClaims.

Module FindClosestMoreFacts.
Import NetDB NetDBSpec NetDBFacts TableFacts BucketFacts FindClosestFacts InsertFacts.
Import StoreMore StoreMoreFacts StoreOkFacts StoreTableFacts StoreMoreClaims.
Import FindClosestMore.

Lemma safe_bind {A B} (c : M NetDB.t A) (k : A -> M NetDB.t B) (s : NetDB.t)
    (Q : B -> NetDB.t -> Prop) :
  safe c s (fun a s' => safe (k a) s' Q) -> safe (bind c k) s Q.
Proof. unfold safe, bind. now destruct (c s). Qed.

Lemma safe_mono {A} (c : M NetDB.t A) (s : NetDB.t) (Q Q' : A -> NetDB.t -> Prop) :
  (forall a s', Q a s' -> Q' a s') -> safe c s Q -> safe c s Q'.
Proof. unfold safe. intros HQ. destruct (c s); auto. Qed.

Lemma grows_refl (s : NetDB.t) : grows s s.
Proof. intros k arr Hk. now exists arr. Qed.

Lemma grows_trans (s1 s2 s3 : NetDB.t) : grows s1 s2 -> grows s2 s3 -> grows s1 s3.
Proof.
  intros H12 H23 k arr Hk. destruct (H12 k arr Hk) as (arr2 & Hk2 & Hl2).
  destruct (H23 k arr2 Hk2) as (arr3 & Hk3 & Hl3). exists arr3. split; [exact Hk3|lia].
Qed.

Lemma step_ok_refl (s : NetDB.t) : well_formed s -> step_ok s s.
Proof. intros Hwf. split; [exact Hwf|]. split; [apply grows_refl | apply same_sql_refl]. Qed.

Lemma step_ok_trans (s1 s2 s3 : NetDB.t) : step_ok s1 s2 -> step_ok s2 s3 -> step_ok s1 s3.
Proof.
  intros (_ & Hg1 & Hs1) (Hwf & Hg2 & Hs2). split; [exact Hwf|].
  split; [eapply grows_trans | eapply same_sql_trans]; eauto.
Qed.

(** [insertIntoTable] keeps the length of every backing array. *)
Lemma insertIntoTable_grows (addr : Address.t) (s s' : NetDB.t) :
  well_formed s -> insertIntoTable addr s = Done tt s' -> grows s s'.
Proof.
  intros (Hl & Hnd & Harr). unfold insertIntoTable, bind, get, index_or_panic.
  destruct (table s !! _) as [b|] eqn:Hb; [|discriminate]. unfold pure.
  destruct (Harr _ b Hb) as (arrb & Harrb & Hle).
  destruct (find_address addr (elements (store s) b)) as [found|] eqn:Hfind.
  - intros [= <-] k arr Hk. simpl.
    assert (Hk' : (k < List.length (store s))%nat) by (eapply lookup_lt_Some; eauto).
    rewrite lookup_app_l by (now rewrite length_alter).
    destruct (decide (k = Slice.array b)) as [->|Hne].
    + rewrite list_lookup_alter, Hk. simpl. rewrite decide_True by reflexivity.
      eexists. split; [reflexivity|].
      assert (arr = arrb) by congruence. subst arr.
      apply length_shift_down; [|exact Hle].
      apply find_address_Some in Hfind as [Hf _]. apply lookup_lt_Some in Hf.
      unfold elements in Hf. rewrite length_take in Hf. lia.
    + rewrite list_lookup_alter_ne by congruence. now exists arr.
  - destruct (_ =? _); intros [= <-] k arr Hk; simpl;
      (rewrite lookup_app_l by (eapply lookup_lt_Some; eauto)); now exists arr.
Qed.

Lemma insertIntoTable_safe (addr : Address.t) (s : NetDB.t) :
  well_formed s -> (index_of s addr < 160)%nat ->
  safe (insertIntoTable addr) s (fun _ s' => step_ok s s').
Proof.
  intros Hwf Hidx. unfold safe.
  destruct (insertIntoTable_spec s addr Hwf Hidx) as (s' & Hrun & Hwf' & _).
  rewrite Hrun. split; [exact Hwf'|].
  split; [now apply (insertIntoTable_grows addr) | now apply (insertIntoTable_same_sql addr s tt)].
Qed.

Section WithExternals.
Context `{X : Externals}.

Lemma rows_indexable_same_sql (s s' : NetDB.t) :
  same_sql s s' -> rows_indexable s -> rows_indexable s'.
Proof.
  intros (Hr & _ & _ & Ha). unfold rows_indexable, index_of. now rewrite Hr, Ha.
Qed.

Lemma Query_safe (addr : Address.t) (s : NetDB.t) :
  well_formed s -> rows_indexable s ->
  safe (Query addr) s (fun _ s' => step_ok s s').
Proof.
  intros Hwf Hidx. unfold Query.
  destruct (Address_String addr) as [a [err|]]; [now apply step_ok_refl|].
  unfold safe, bind at 1, get.
  destruct (select_entry_by_address (entry_rows s) a) as [row|] eqn:Hsel;
    [|now apply step_ok_refl].
  apply select_Some_row in Hsel as [Hin _].
  unfold rows_indexable in Hidx. rewrite Forall_forall in Hidx. specialize (Hidx row Hin).
  destruct (DecodeAddress (Row.address row)) as [d [err|]]; [now apply step_ok_refl|].
  simpl in Hidx.
  match goal with |- context [addSeedToEntry s ?e0 ?i] =>
    pose proof (addSeedToEntry_columns s e0 i) as [_ Hadr];
    destruct (addSeedToEntry s e0 i) as [ret [err|]]
  end; [now apply step_ok_refl|].
  simpl in Hadr. rewrite Hadr.
  match goal with |- match ?c s with _ => _ end =>
    change (safe c s (fun _ s' => step_ok s s'))
  end.
  apply safe_bind. eapply safe_mono; [|now apply insertIntoTable_safe].
  intros u s' Hs'. exact Hs'.
Qed.

Lemma array_after (s s' : NetDB.t) (k n : nat) :
  grows s s' ->
  (exists arr, store s !! k = Some arr /\ (n <= List.length arr)%nat) ->
  exists arr, store s' !! k = Some arr /\ (n <= List.length arr)%nat.
Proof.
  intros Hg (arr & Hk & Hn). destruct (Hg k arr Hk) as (arr' & Hk' & Hl).
  exists arr'. split; [exact Hk'|lia].
Qed.

Lemma FindClosest_range_safe (b : Slice.t) (n pos : nat) (ret : list (option Entry.t))
    (s : NetDB.t) :
  well_formed s -> rows_indexable s ->
  (exists arr, store s !! Slice.array b = Some arr /\ (pos + n <= List.length arr)%nat) ->
  safe (FindClosest_range b n pos ret) s (fun _ s' => step_ok s s').
Proof.
  revert pos ret s. induction n as [|n IH]; intros pos ret s Hwf Hidx Harr.
  - now apply step_ok_refl.
  - simpl. unfold safe, bind at 1, get. unfold bind at 1, index_or_panic.
    destruct Harr as (arr & Hk & Hn). rewrite Hk. simpl.
    destruct (lookup_lt_is_Some_2 arr pos) as [i Hi]; [lia|]. rewrite Hi. unfold pure at 1.
    destruct (len ret >=? BucketSize); [now apply step_ok_refl|].
    match goal with |- match ?c s with _ => _ end =>
      change (safe c s (fun _ s' => step_ok s s'))
    end.
    apply safe_bind. eapply safe_mono; [|now apply Query_safe].
    intros [[kv id] err] s1 Hs1. simpl.
    assert (Hnext : safe (FindClosest_range b n (S pos)
                            (match err with Some _ => ret | None => ret ++ [kv] end))
                      s1 (fun _ s' => step_ok s1 s')).
    { destruct Hs1 as (Hwf1 & Hg1 & Hsql1). apply IH; [exact Hwf1| |].
      - now apply (rows_indexable_same_sql s).
      - apply (array_after s s1 _ _ Hg1). exists arr. split; [exact Hk|lia]. }
    destruct err; (eapply safe_mono; [|exact Hnext]);
      intros u s2 Hs2; eapply step_ok_trans; eauto.
Qed.

Lemma queryAddresses_range_safe (b : Slice.t) (n pos : nat) (ret : list (option Entry.t))
    (s : NetDB.t) :
  well_formed s -> rows_indexable s ->
  (exists arr, store s !! Slice.array b = Some arr /\ (pos + n <= List.length arr)%nat) ->
  safe (queryAddresses_range b n pos ret) s (fun _ s' => step_ok s s').
Proof.
  revert pos ret s. induction n as [|n IH]; intros pos ret s Hwf Hidx Harr.
  - now apply step_ok_refl.
  - simpl. unfold safe, bind at 1, get. unfold bind at 1, index_or_panic.
    destruct Harr as (arr & Hk & Hn). rewrite Hk. simpl.
    destruct (lookup_lt_is_Some_2 arr pos) as [i Hi]; [lia|]. rewrite Hi. unfold pure at 1.
    match goal with |- match ?c s with _ => _ end =>
      change (safe c s (fun _ s' => step_ok s s'))
    end.
    apply safe_bind. eapply safe_mono; [|now apply Query_safe].
    intros [[kv id] err] s1 Hs1. simpl.
    assert (Hnext : safe (queryAddresses_range b n (S pos)
                            (match err with Some _ => ret | None => ret ++ [kv] end))
                      s1 (fun _ s' => step_ok s1 s')).
    { destruct Hs1 as (Hwf1 & Hg1 & Hsql1). apply IH; [exact Hwf1| |].
      - now apply (rows_indexable_same_sql s).
      - apply (array_after s s1 _ _ Hg1). exists arr. split; [exact Hk|lia]. }
    destruct err; (eapply safe_mono; [|exact Hnext]);
      intros u s2 Hs2; eapply step_ok_trans; eauto.
Qed.

(** Reading bucket [k] of a well-formed table and ranging over it. *)
Lemma bucket_range_safe (k : nat) (ret : list (option Entry.t)) (s : NetDB.t) :
  well_formed s -> rows_indexable s -> (k < 160)%nat ->
  safe (do ndb <- get;
        do bucket <- index_or_panic (table ndb) k;
        FindClosest_range bucket (Slice.length bucket) 0 ret)
    s (fun _ s' => step_ok s s').
Proof.
  intros Hwf Hidx Hk. pose proof Hwf as (Hl & _ & Harr).
  destruct (lookup_lt_is_Some_2 (table s) k) as [b Hb]; [lia|].
  unfold safe, bind at 1, get. unfold bind at 1, index_or_panic. rewrite Hb.
  unfold pure at 1.
  apply FindClosest_range_safe; [exact Hwf | exact Hidx |].
  destruct (Harr k b Hb) as (arr & Ha & Hle). exists arr. split; [exact Ha|lia].
Qed.

Lemma FindClosest_loop_safe (fuel : nat) (addr : Address.t) (index i : Z)
    (ret : list (option Entry.t)) (s : NetDB.t) :
  well_formed s -> rows_indexable s ->
  0 <= i -> index < 160 -> len (Address.Raw addr) * 8 <= 160 ->
  safe (FindClosest_loop fuel addr index i ret) s (fun _ s' => step_ok s s').
Proof.
  revert i ret s. induction fuel as [|fuel IH]; intros i ret s Hwf Hidx Hi Hindex Hlen; simpl.
  - destruct (_ && _); [exact I | now apply step_ok_refl].
  - destruct (_ && _); [|now apply step_ok_refl].
    apply safe_bind.
    assert (H1 : safe (if index - i >=? 0
                       then do ndb <- get;
                            do bucket <- index_or_panic (table ndb) (Z.to_nat (index - i));
                            FindClosest_range bucket (Slice.length bucket) 0 ret
                       else pure ret) s (fun _ s' => step_ok s s')).
    { destruct (index - i >=? 0) eqn:Hge; [|now apply step_ok_refl].
      apply bucket_range_safe; [exact Hwf | exact Hidx | lia]. }
    eapply safe_mono; [|exact H1]. intros ret1 s1 Hs1. simpl.
    pose proof Hs1 as (Hwf1 & _ & Hsql1).
    assert (Hidx1 : rows_indexable s1) by (now apply (rows_indexable_same_sql s)).
    apply safe_bind.
    assert (H2 : safe (if index + i <? len (Address.Raw addr) * 8
                       then do ndb <- get;
                            do bucket <- index_or_panic (table ndb) (Z.to_nat (index + i));
                            FindClosest_range bucket (Slice.length bucket) 0 ret1
                       else pure ret1) s1 (fun _ s' => step_ok s1 s')).
    { destruct (index + i <? _) eqn:Hlt; [|now apply step_ok_refl].
      apply Z.ltb_lt in Hlt.
      apply bucket_range_safe; [exact Hwf1 | exact Hidx1 | lia]. }
    eapply safe_mono; [|exact H2]. intros ret2 s2 Hs2. simpl.
    pose proof Hs2 as (Hwf2 & _ & Hsql2).
    assert (Hidx2 : rows_indexable s2) by (now apply (rows_indexable_same_sql s1)).
    eapply safe_mono; [|apply IH; [exact Hwf2 | exact Hidx2 | lia | lia | lia]].
    intros r s3 Hs3. eapply step_ok_trans; [exact Hs1|].
    eapply step_ok_trans; [exact Hs2 | exact Hs3].
Qed.

Lemma FindClosest_no_error (addr : Address.t) (s s' : NetDB.t)
    (r : list (option Entry.t)) (err : option error) :
  FindClosest addr s = Done (r, err) s' -> err = None.
Proof.
  unfold FindClosest, bind, get, index_or_panic.
  destruct (table s !! _); [|discriminate]. unfold pure.
  destruct (_ =? _).
  - destruct (queryAddresses _ _); try discriminate. congruence.
  - destruct (FindClosest_loop _ _ _ _ _ _); try discriminate. congruence.
Qed.

Lemma FindClosest_safe (addr : Address.t) (s : NetDB.t) :
  well_formed s -> rows_indexable s ->
  (index_of s addr < 160)%nat -> len (Address.Raw addr) * 8 <= 160 ->
  safe (FindClosest addr) s (fun _ s' => step_ok s s').
Proof.
  intros Hwf Hidx Hindex Hlen. pose proof Hwf as (Hl & _ & Harr).
  unfold FindClosest, safe, bind at 1, get. unfold bind at 1, index_or_panic.
  fold (index_of s addr). rewrite Nat2Z.id.
  destruct (lookup_lt_is_Some_2 (table s) (index_of s addr)) as [b Hb]; [lia|].
  rewrite Hb. unfold pure at 1.
  destruct (_ =? _).
  - match goal with |- match ?c s with _ => _ end =>
      change (safe c s (fun _ s' => step_ok s s'))
    end.
    apply safe_bind. eapply safe_mono;
      [|apply queryAddresses_range_safe; [exact Hwf | exact Hidx |]].
    + intros r s' Hs'. exact Hs'.
    + destruct (Harr _ b Hb) as (arr & Ha & Hle). exists arr. split; [exact Ha|lia].
  - match goal with |- match ?c s with _ => _ end =>
      change (safe c s (fun _ s' => step_ok s s'))
    end.
    apply safe_bind. eapply safe_mono;
      [|apply FindClosest_loop_safe; [exact Hwf | exact Hidx | lia | lia | exact Hlen]].
    intros r s' Hs'. exact Hs'.
Qed.

End WithExternals.

End FindClosestMoreFacts.

Module FindClosestMoreClaims.
Import NetDB NetDBSpec NetDBFacts TableFacts BucketFacts FindClosestFacts InsertFacts.
Import StoreMore StoreMoreFacts StoreOkFacts StoreTableFacts FindClosestMore.
Import FindClosestMoreFacts.

Section WithExternals.
Context `{X : Externals}.

(** X14. On a reachable routing table, [FindClosest] of an address of at
    most 20 bytes that has a bucket returns: it does not index a bucket or a
    backing array out of range, although [Query] shifts the arrays it ranges
    over.  It returns at most 20 entries and no error, and leaves a reachable
    table and the same SQL tables.  The addresses stored in the entry table
    have to decode to addresses that have a bucket. *)
Theorem FindClosest_returns (self addr : Address.t) (ndb : NetDB.t) :
  reachable self ndb ->
  rows_indexable ndb ->
  (index_of ndb addr < 160)%nat ->
  len (Address.Raw addr) <= 20 ->
  exists r ndb',
    FindClosest addr ndb = Done (r, None) ndb' /\
    len r <= BucketSize /\ same_sql ndb ndb' /\ reachable self ndb'.
Proof.
  intros Hr Hrows Hidx Hlen.
  destruct (reachable_invariant self ndb Hr) as [Hwf _].
  pose proof (FindClosest_safe addr ndb Hwf Hrows Hidx) as Hsafe.
  pose proof (terminates_FindClosest addr ndb) as Hterm.
  unfold safe in Hsafe.
  destruct (FindClosest addr ndb) as [[r err] ndb'| |] eqn:Hrun.
  - pose proof (FindClosest_no_error _ _ _ _ _ Hrun). subst err. exists r, ndb'.
    split; [reflexivity|]. split; [eapply FindClosest_length; eauto|].
    split; [eapply FindClosest_same_sql; eauto|].
    eapply FindClosest_reachable; eauto.
  - exfalso. apply Hsafe. lia.
  - congruence.
Qed.

End WithExternals.

Lemma FindClosest_returns_witness :
  exists r ndb',
    FindClosest (X := Sample.externals) Scenario.target one_entry = Done (r, None) ndb' /\
    len r <= BucketSize /\ same_sql one_entry ndb' /\ reachable Scenario.self0 ndb'.
Proof.
  apply (FindClosest_returns (X := Sample.externals) Scenario.self0 Scenario.target one_entry).
  - apply (Insert_reachable (X := Sample.externals) Scenario.self0 Sample.entry1
             (NewNetDB Scenario.self0) one_entry (1, None));
      [constructor | vm_compute; reflexivity].
  - repeat constructor.
  - vm_compute. lia.
  - vm_compute. discriminate.
Defined.

End FindClosestMoreClaims.

Module AnnounceFacts.
Import NetDB NetDBSpec NetDBFacts TableFacts BucketFacts FindClosestFacts InsertFacts.
Import StoreMore StoreMoreFacts StoreOkFacts StoreTableFacts StoreMoreClaims RoundTripFacts.
Import Server ServerMore RequestMore.



Section WithExternals.
Context `{X : Externals}.




End WithExternals.

End AnnounceFacts.

Module AnnounceClaims.
Import NetDB NetDBSpec NetDBFacts TableFacts BucketFacts FindClosestFacts InsertFacts.
Import StoreMore StoreMoreFacts StoreOkFacts StoreTableFacts StoreMoreClaims RoundTripFacts.
Import Server ServerMore RequestMore AnnounceFacts.

Section WithExternals.
Context `{X : Externals} `{P : Msgpack}.


End WithExternals.

End AnnounceClaims.
Module RemoteFacts.
Import NetDB NetDBSpec NetDBFacts TableFacts BucketFacts FindClosestFacts InsertFacts.
Import StoreMore StoreMoreFacts StoreOkFacts StoreTableFacts StoreMoreClaims RoundTripFacts.
Import Server ServerMore RequestMore AnnounceFacts.

Section WithExternals.
Context `{X : Externals}.


End WithExternals.

Section WithMsgpack.
Context `{X : Externals} `{P : Msgpack}.


End WithMsgpack.

End RemoteFacts.

Module RemoteClaims.
Import NetDB NetDBSpec NetDBFacts TableFacts BucketFacts FindClosestFacts InsertFacts.
Import StoreMore StoreMoreFacts StoreOkFacts StoreTableFacts StoreMoreClaims RoundTripFacts.
Import FindClosestMoreFacts.
Import Server ServerMore RequestMore AnnounceFacts RemoteFacts.

Section WithExternals.
Context `{X : Externals} `{P : Msgpack}.




End WithExternals.

End RemoteClaims.
Module BootstrapClaims.
Import Server ServerMore RequestMore BootstrapSpec.

Section WithExternals.
Context `{X : Externals} `{P : Msgpack}.


Lemma Bootstrap_range_nil (address : Address.t) (pre rest : list (option Entry.t))
    (l : LocalPeer.t) :
  None ∉ pre ->
  Bootstrap_range address (pre ++ None :: rest) l =
    match Insert_each (List.filter (accepted address) pre) l with
    | Done None _ => Panic
    | r => r
    end.
Proof.
  revert l. induction pre as [|i pre IH]; intros l Hpre; [reflexivity|].
  apply not_elem_of_cons in Hpre as [Hi Hpre]. destruct i as [i|]; [|congruence].
  cbn [Bootstrap_range List.filter accepted app].
  destruct (Address.Equals (Entry.Address i) address); cbn [negb andb]; [now apply IH|].
  destruct (Entry.Verify (Some i)); [now apply IH|]. cbn [Insert_each].
  unfold bind. destruct (LocalPeer.DHT_Insert i l) as [[n [err|]] l'| |]; try reflexivity.
  now apply IH.
Qed.

(** X19. [Bootstrap] reads [i.Address] before it compares [i] with [nil]:
    when the list that the peer returns holds a [nil] entry, [Bootstrap]
    panics on reaching it, unless an [Insert] of an earlier entry returned an
    error first. *)
Theorem Bootstrap_panics_on_nil_entry (stream : Stream) (address : Address.t)
    (pre rest : list (option Entry.t)) (l : LocalPeer.t) :
  Request.FindClosest address stream = (pre ++ None :: rest, None) ->
  None ∉ pre ->
  Bootstrap stream address l =
    match Insert_each (List.filter (accepted address) pre) l with
    | Done None _ => Panic
    | r => r
    end.
Proof.
  intros Hreply Hpre. unfold Bootstrap. rewrite Hreply. now apply Bootstrap_range_nil.
Qed.


End WithExternals.

End BootstrapClaims.
Module RemoteWitnesses.
Import NetDB NetDBSpec BucketFacts StoreMore.
Import Server ServerMore RequestMore BootstrapSpec.
Import AnnounceClaims RemoteClaims BootstrapClaims.

#[local] Existing Instance Sample.externals.
#[local] Existing Instance Sample.msgpack.





Lemma Bootstrap_panics_on_nil_entry_witness :
  Bootstrap RemoteScenario.nil_reply Scenario.self0 ResolveScenario.local =
    match Insert_each (List.filter (accepted Scenario.self0) []) ResolveScenario.local with
    | Done None _ => Panic
    | r => r
    end.
Proof.
  apply (Bootstrap_panics_on_nil_entry RemoteScenario.nil_reply Scenario.self0 [] []
           ResolveScenario.local).
  - reflexivity.
  - apply not_elem_of_nil.
Defined.


End RemoteWitnesses.

Module ResolveMoreClaims.
Import PeerManager ResolveSpec ResolveFacts FindClosestFacts InsertFacts.

Section WithExternals.
Context `{X : Externals} `{P : Msgpack}.

Lemma scan_take (net : Network.t) (addr : Address.t) (closest : list (option Entry.t))
    (budget : nat) (l : LocalPeer.t) :
  scan net addr closest budget l = scan net addr (take (S budget) closest) budget l.
Proof.
  revert budget l. induction closest as [|i rest IH]; intros budget l; [reflexivity|].
  destruct budget as [|budget]; [reflexivity|].
  change (take (S (S budget)) (i :: rest)) with (i :: take (S budget) rest).
  cbn [scan]. destruct i as [e|]; [|reflexivity].
  destruct (resolve_direct net e addr) as [[entry|] [err|]].
  - destruct (is_RecursionLimit err); [reflexivity | apply IH].
  - destruct (Address.Equals _ _); [reflexivity | apply IH].
  - destruct (is_RecursionLimit err); [reflexivity | apply IH].
  - apply IH.
Qed.

Lemma Resolve_range_scan (net : Network.t) (addr : Address.t)
    (closest : list (option Entry.t)) (depth : Z) (l : LocalPeer.t) :
  0 <= depth ->
  Resolve_range net addr closest depth l = scan net addr closest (Z.to_nat depth) l.
Proof.
  revert depth l. induction closest as [|i rest IH]; intros depth l Hd; [reflexivity|].
  cbn [Resolve_range scan].
  destruct (Z.to_nat depth) as [|budget] eqn:Hb.
  - assert (depth = 0) by lia. subst depth. reflexivity.
  - destruct i as [e|].
    + rewrite resolveStep_direct.
      replace (depth =? 0) with false by (symmetry; apply Z.eqb_neq; lia).
      assert (Hb' : Z.to_nat (depth - 1) = budget) by lia.
      destruct (resolve_direct net e addr) as [[entry|] [err|]].
      * destruct (is_RecursionLimit err); [reflexivity|]. rewrite IH by lia. now rewrite Hb'.
      * destruct (Address.Equals _ _); [reflexivity|]. rewrite IH by lia. now rewrite Hb'.
      * destruct (is_RecursionLimit err); [reflexivity|]. rewrite IH by lia. now rewrite Hb'.
      * rewrite IH by lia. now rewrite Hb'.
    + cbn [resolveStep]. unfold bind at 1, get.
      replace (depth =? 0) with false by (symmetry; apply Z.eqb_neq; lia).
      reflexivity.
Qed.

Lemma terminates_Insert (e : Entry.t) : terminates (NetDB.Insert e).
Proof.
  unfold NetDB.Insert. destruct (Entry.Verify (Some e)); [apply terminates_pure|].
  apply terminates_bind; [apply terminates_insertIntoTable|]. intros _.
  apply terminates_bind.
  { intros s. unfold NetDB.Update. destruct (Entry.Verify (Some e)); [discriminate|].
    destruct (Address_String _) as [a [err|]]; discriminate. }
  intros [affected [err|]]; [apply terminates_pure|].
  destruct (affected >? 0); [apply terminates_pure|].
  apply terminates_bind.
  { intros s. unfold NetDB.insertIntoDB.
    destruct (Address_String _) as [a [err|]]; [discriminate|].
    unfold bind at 1, get. destruct (NetDB.exec_insert_entry _ _ _) as [[rows aff] id].
    unfold bind, put. destruct (aff =? 0); discriminate. }
  intros [affected' [err|]]; [apply terminates_pure|].
  apply terminates_bind; [|intros r; apply terminates_pure].
  intros s. destruct (insertEntrySeeds_frame e s) as (err & s' & -> & _). discriminate.
Qed.

Lemma scan_terminates (net : Network.t) (addr : Address.t) (closest : list (option Entry.t))
    (budget : nat) :
  terminates (scan net addr closest budget).
Proof.
  revert budget. induction closest as [|i rest IH]; intros budget; [apply terminates_pure|].
  destruct budget as [|budget]; [apply terminates_pure|].
  cbn [scan]. destruct i as [e|]; [|discriminate].
  destruct (resolve_direct net e addr) as [[entry|] [err|]].
  - destruct (is_RecursionLimit err); [apply terminates_pure | apply IH].
  - destruct (Address.Equals _ _); [|apply IH].
    apply terminates_bind; [|intros r; apply terminates_pure].
    intros l. unfold LocalPeer.DHT_Insert, LocalPeer.on_DHT.
    pose proof (terminates_Insert entry (LocalPeer.DHT l)).
    destruct (NetDB.Insert entry (LocalPeer.DHT l)); congruence.
  - destruct (is_RecursionLimit err); [apply terminates_pure | apply IH].
  - apply IH.
Qed.

(** X21. The loop of [Resolve] is a linear scan: it sends one query to each
    entry of the list in turn and follows no answer further, it stops with
    [RecursionLimit] at the entry after the [depth]-th, so only the first
    [depth + 1] entries matter, and it never runs out of fuel. *)
Theorem Resolve_range_is_a_scan (net : Network.t) (addr : Address.t)
    (closest : list (option Entry.t)) (depth : Z) (l : LocalPeer.t) :
  0 <= depth ->
  Resolve_range net addr closest depth l = scan net addr closest (Z.to_nat depth) l /\
  Resolve_range net addr closest depth l
    = Resolve_range net addr (take (S (Z.to_nat depth)) closest) depth l /\
  Resolve_range net addr closest depth l <> OutOfFuel.
Proof.
  intros Hd. split; [now apply Resolve_range_scan|]. split.
  - rewrite !Resolve_range_scan by exact Hd. apply scan_take.
  - rewrite Resolve_range_scan by exact Hd. apply scan_terminates.
Qed.

End WithExternals.

Lemma Resolve_range_is_a_scan_witness :
  Resolve_range (X := Sample.externals) (P := Sample.msgpack) ResolveScenario.strangers
    ResolveScenario.unknown_address (List.map Some ResolveScenario.seven_entries) 6
    ResolveScenario.local7
  = scan (X := Sample.externals) (P := Sample.msgpack) ResolveScenario.strangers
      ResolveScenario.unknown_address (List.map Some ResolveScenario.seven_entries)
      (Z.to_nat 6) ResolveScenario.local7 /\
  Resolve_range (X := Sample.externals) (P := Sample.msgpack) ResolveScenario.strangers
    ResolveScenario.unknown_address (List.map Some ResolveScenario.seven_entries) 6
    ResolveScenario.local7
  = Resolve_range (X := Sample.externals) (P := Sample.msgpack) ResolveScenario.strangers
      ResolveScenario.unknown_address
      (take (S (Z.to_nat 6)) (List.map Some ResolveScenario.seven_entries)) 6
      ResolveScenario.local7 /\
  Resolve_range (X := Sample.externals) (P := Sample.msgpack) ResolveScenario.strangers
    ResolveScenario.unknown_address (List.map Some ResolveScenario.seven_entries) 6
    ResolveScenario.local7 <> OutOfFuel.
Proof.
  apply (Resolve_range_is_a_scan (X := Sample.externals) (P := Sample.msgpack)). lia.
Defined.

End ResolveMoreClaims.
Module ManagerMoreFacts.
Import Manager ManagerSpec ManagerFacts.




Lemma Get_key {V} (k : string) (m : cmap.t V) :
  k ∈ List.map fst m -> exists v, cmap.Get k m = Some v.
Proof.
  intros Hk. unfold cmap.Get. destruct (List.find _ m) as [[k' v']|] eqn:Hf; [now eexists|].
  exfalso. apply list_elem_of_fmap in Hk as ([k' v'] & -> & Hin).
  apply list_elem_of_In in Hin.
  pose proof (List.find_none _ _ Hf _ Hin) as Hn. simpl in Hn.
  now rewrite String.eqb_refl in Hn.
Qed.

Lemma Has_false_keys {V} (k : string) (m : cmap.t V) :
  cmap.Has k m = false -> k ∉ List.map fst m.
Proof.
  unfold cmap.Has. intros Hh Hk. destruct (Get_key k m Hk) as [v Hv].
  now rewrite Hv in Hh.
Qed.

Lemma Count_Remove_le {V} (k : string) (m : cmap.t V) :
  cmap.Count (cmap.Remove k m) <= cmap.Count m.
Proof.
  unfold cmap.Count, cmap.Remove, len.
  pose proof (List.filter_length_le (fun kv : string * V => negb (String.eqb (fst kv) k)) m).
  lia.
Qed.





Section WithEnvironment.
Variable maxPeers : Z.
Variable IterBuffered : cmap.t Z -> list (string * Z).
Variable now_at_round : nat -> Z.
Hypothesis maxPeers_nonneg : 0 <= maxPeers.
Hypothesis IterBuffered_items : forall m, IterBuffered m ≡ₚ m.


End WithEnvironment.

End ManagerMoreFacts.

Module ManagerMoreClaims.
Import Manager ManagerSpec ManagerFacts ManagerMoreFacts.



End ManagerMoreClaims.

Module PreambleFacts.
Import Preamble.

Lemma Read_data (size : nat) (c : Conn.t) :
  (0 < size)%nat ->
  match Conn.incoming c with
  | [] => Conn.Read size c = ([], Some io_EOF, c)
  | q :: rest =>
      exists p c', Conn.Read size c = (p, None, c') /\
        p ++ data c' = data c /\ (List.length p <= size)%nat /\
        (List.length (Conn.incoming c') <= List.length (Conn.incoming c))%nat /\
        (p = [] -> (List.length (Conn.incoming c') < List.length (Conn.incoming c))%nat)
  end.
Proof.
  intros Hs. unfold Conn.Read, data. destruct (Conn.incoming c) as [|q rest]; [reflexivity|].
  eexists _, _. split; [reflexivity|]. simpl.
  split; [|split; [|split]].
  - destruct (decide (drop size q = [])) as [Hd|Hd]; simpl.
    + rewrite <- (take_drop size q) at 2. now rewrite Hd, app_nil_r.
    + now rewrite app_assoc, take_drop.
  - rewrite length_take. lia.
  - destruct (decide _); simpl; lia.
  - intros Hp. destruct q as [|b q]; [|destruct size; [lia|discriminate]].
    rewrite drop_nil. simpl. lia.
Qed.

(** The loop of [io.ReadAtLeast] on a connection that delivers [data c] and
    then [io.EOF]. *)
Lemma ReadAtLeast_loop_spec (fuel n : nat) (got : bytes) (c : Conn.t) :
  (List.length got <= n)%nat ->
  (n - List.length got + List.length (Conn.incoming c) < fuel)%nat ->
  exists got' err c',
    ReadAtLeast_loop fuel n got None c = Some (got', err, c') /\
    got' ++ data c' = got ++ data c /\
    (List.length got' <= n)%nat /\
    ((n <= List.length (got ++ data c))%nat -> List.length got' = n) /\
    ((List.length (got ++ data c) < n)%nat -> err = Some io_EOF /\ data c' = []).
Proof.
  revert got c. induction fuel as [|fuel IH]; intros got c Hgot Hfuel; [lia|].
  cbn [ReadAtLeast_loop]. destruct (List.length got <? n)%nat eqn:Hlt; cbn [andb].
  2:{ apply Nat.ltb_ge in Hlt. exists got, None, c. split; [reflexivity|].
      split; [reflexivity|]. split; [exact Hgot|]. split; [lia|].
      rewrite length_app. lia. }
  apply Nat.ltb_lt in Hlt.
  pose proof (Read_data (n - List.length got) c) as Hread.
  destruct (Conn.incoming c) as [|q rest] eqn:Hinc.
  - rewrite Hread by lia.
    assert (Hd : data c = []) by (unfold data; now rewrite Hinc).
    destruct fuel as [|fuel'].
    + exists (got ++ []), (Some io_EOF), c. cbn [ReadAtLeast_loop].
      rewrite andb_false_r. split; [reflexivity|]. rewrite Hd, !app_nil_r.
      repeat split; try lia; reflexivity.
    + exists (got ++ []), (Some io_EOF), c. cbn [ReadAtLeast_loop].
      rewrite andb_false_r. split; [reflexivity|]. rewrite Hd, !app_nil_r.
      repeat split; try lia; reflexivity.
  - destruct Hread as (p & c' & Hr & Hdata & Hp & Hinc' & Hempty); [lia|].
    rewrite Hr.
    destruct (IH (got ++ p) c') as (got' & err & c'' & Hrun & Hd' & Hl' & Hfull & Hshort).
    + rewrite length_app. lia.
    + rewrite length_app. simpl in Hfuel. destruct p as [|b p].
      * specialize (Hempty eq_refl). simpl in *. lia.
      * simpl in *. lia.
    + exists got', err, c''. split; [exact Hrun|].
      rewrite <- app_assoc, Hdata in Hd', Hfull, Hshort. tauto.
Qed.

Lemma ReadFull_spec (n : nat) (c : Conn.t) :
  exists got err c',
    ReadFull n c = Some (got, err, c') /\
    got = take n (data c) /\
    data c' = drop n (data c) /\
    (err = None <-> (n <= List.length (data c))%nat).
Proof.
  unfold ReadFull.
  destruct (ReadAtLeast_loop_spec (n + List.length (Conn.incoming c) + 1) n [] c)
    as (got & err & c' & -> & Hd & Hl & Hfull & Hshort); [simpl; lia | simpl; lia |].
  simpl in Hd, Hfull, Hshort.
  eexists _, _, _. split; [reflexivity|].
  destruct (decide (n <= List.length (data c))%nat) as [Hn|Hn].
  - specialize (Hfull Hn).
    assert (Hgot : got = take n (data c)).
    { rewrite <- Hd. rewrite take_app_length'; [reflexivity | now symmetry]. }
    split; [exact Hgot|]. split.
    + rewrite <- Hd. rewrite drop_app_length'; [reflexivity | now symmetry].
    + replace (n <=? List.length got)%nat with true
        by (symmetry; apply Nat.leb_le; lia). tauto.
  - destruct Hshort as [-> Hnil]; [lia|].
    rewrite Hnil, app_nil_r in Hd. subst got.
    split; [symmetry; apply take_ge; lia|].
    split; [rewrite Hnil; symmetry; apply drop_ge; lia|].
    replace (n <=? List.length (data c))%nat with false
      by (symmetry; apply Nat.leb_gt; lia).
    split; [|lia]. destruct (0 <? List.length (data c))%nat; discriminate.
Qed.

Lemma byte_of_to_N (b : byte) (k : N) :
  Byte.to_N b = k -> Byte.of_N k = Some b.
Proof. intros <-. apply Byte.of_to_N. Qed.

Lemma int16_of_bytes_zif (b0 b1 : byte) :
  int16_of_bytes [b0; b1] = ProtoZif <-> b0 = x7a /\ b1 = x66.
Proof.
  unfold int16_of_bytes, ProtoZif. simpl.
  pose proof (Byte.to_N_bounded b0) as Hb0. pose proof (Byte.to_N_bounded b1) as Hb1.
  split.
  - intros Hz.
    assert (Byte.to_N b0 = 122%N /\ Byte.to_N b1 = 102%N) as [H0 H1].
    { destruct (_ <? 32768); lia. }
    apply byte_of_to_N in H0, H1. simpl in H0, H1. split; congruence.
  - intros [-> ->]. reflexivity.
Qed.

Lemma int16_of_bytes_version (b0 b1 : byte) :
  int16_of_bytes [b0; b1] = ProtoVersion <-> b0 = x00 /\ b1 = x00.
Proof.
  unfold int16_of_bytes, ProtoVersion. simpl.
  pose proof (Byte.to_N_bounded b0) as Hb0. pose proof (Byte.to_N_bounded b1) as Hb1.
  split.
  - intros Hz.
    assert (Byte.to_N b0 = 0%N /\ Byte.to_N b1 = 0%N) as [H0 H1].
    { destruct (_ <? 32768); lia. }
    apply byte_of_to_N in H0, H1. simpl in H0, H1. split; congruence.
  - intros [-> ->]. reflexivity.
Qed.

Lemma take_2_cases (l : bytes) :
  (2 <= List.length l)%nat -> exists b0 b1, take 2 l = [b0; b1].
Proof. destruct l as [|b0 [|b1 l]]; simpl; try lia. intros _. now eexists _, _. Qed.

End PreambleFacts.

Module PreambleClaims.
Import Preamble PreambleFacts.

(** X23. The accept loop of [Listen] hands a connection to [Handshake]
    exactly when its first two bytes are 7A 66 and the two bytes after them
    are 00 00 or do not arrive: the errors of [binary.Read] are not looked at,
    and a version that was not read is 0, the expected one.  The preamble that
    [handleConnection] writes is accepted in whatever pieces it arrives, and
    nothing after it is read. *)
Theorem Listen_accepts_iff (conn : Conn.t) :
  exists b conn',
    Listen_accepts conn = Some (b, conn') /\
    (b = true <->
       take 2 (data conn) = [x7a; x66] /\
       (take 2 (drop 2 (data conn)) = [x00; x00] \/ len (data conn) < 4)) /\
    (take 4 (data conn) = handleConnection_writes ->
       b = true /\ data conn' = drop 4 (data conn)).
Proof.
  unfold Listen_accepts, binary_Read_int16.
  destruct (ReadFull_spec 2 conn) as (got & err & c1 & -> & Hgot & Hd1 & Herr).
  destruct err as [e|].
  - (* the magic could not be read *)
    assert (Hshort : (List.length (data conn) < 2)%nat).
    { destruct (decide (2 <= List.length (data conn))%nat) as [Hn|Hn]; [|lia].
      apply Herr in Hn. discriminate. }
    exists false, c1. split; [reflexivity|]. split.
    + split; [discriminate|]. intros [Ht _].
      apply (f_equal (@List.length byte)) in Ht. rewrite length_take in Ht. cbn [List.length] in Ht. lia.
    + intros Ht. apply (f_equal (@List.length byte)) in Ht.
      rewrite length_take in Ht.
      change (List.length handleConnection_writes) with 4%nat in Ht. lia.
  - assert (Hlong : (2 <= List.length (data conn))%nat) by (now apply Herr).
    destruct (take_2_cases _ Hlong) as (b0 & b1 & Ht). rewrite Ht in Hgot. subst got.
    rewrite Ht.
    destruct (int16_of_bytes [b0; b1] =? ProtoZif) eqn:Hzif; cbn [negb].
    2:{ exists false, c1. split; [reflexivity|]. apply Z.eqb_neq in Hzif.
        rewrite int16_of_bytes_zif in Hzif. split.
        - split; [discriminate|]. intros [[= -> ->] _]. tauto.
        - intros H4. exfalso. apply Hzif.
          assert (Ht2 : take 2 (take 4 (data conn)) = [b0; b1]).
          { rewrite take_take. exact Ht. }
          rewrite H4 in Ht2. injection Ht2 as <- <-. split; reflexivity. }
    apply Z.eqb_eq, int16_of_bytes_zif in Hzif as [-> ->].
    destruct (ReadFull_spec 2 c1) as (got2 & err2 & c2 & -> & Hgot2 & Hd2 & Herr2).
    rewrite Hd1 in Hgot2, Hd2, Herr2. rewrite drop_drop in Hd2. simpl in Hd2.
    rewrite length_drop in Herr2.
    destruct err2 as [e2|].
    + (* the version could not be read: it stays 0 *)
      assert (Hshort : (List.length (data conn) < 4)%nat).
      { destruct (decide (4 <= List.length (data conn))%nat) as [Hn|Hn]; [|lia].
        assert (None = Some e2 :> option error) by (symmetry; apply Herr2; lia).
        discriminate. }
      exists true, c2. split; [reflexivity|]. split.
      * split; [|reflexivity]. intros _. split; [reflexivity|]. right. unfold len. lia.
      * intros H4. apply (f_equal (@List.length byte)) in H4.
        rewrite length_take in H4.
        change (List.length handleConnection_writes) with 4%nat in H4. lia.
    + assert (Hlong2 : (4 <= List.length (data conn))%nat).
      { assert (2 <= List.length (data conn) - 2)%nat by (now apply Herr2). lia. }
      destruct (take_2_cases (drop 2 (data conn))) as (v0 & v1 & Hv).
      { rewrite length_drop. lia. }
      rewrite Hv in Hgot2. subst got2. rewrite Hv.
      destruct (int16_of_bytes [v0; v1] =? ProtoVersion) eqn:Hver; cbn [negb].
      * apply Z.eqb_eq, int16_of_bytes_version in Hver as [-> ->].
        exists true, c2. split; [reflexivity|]. split.
        -- split; [|reflexivity]. intros _. split; [reflexivity|]. now left.
        -- intros _. split; [reflexivity | exact Hd2].
      * apply Z.eqb_neq in Hver. rewrite int16_of_bytes_version in Hver.
        exists false, c2. split; [reflexivity|]. split.
        -- split; [discriminate|]. intros [_ [[= -> ->]|Hl]]; [tauto|].
           unfold len in Hl. lia.
        -- intros H4. exfalso. apply Hver.
           assert (Hv2 : take 2 (drop 2 (take 4 (data conn))) = [v0; v1]).
           { change 4%nat with (2 + 2)%nat. rewrite <- take_drop_commute, take_take.
             exact Hv. }
           rewrite H4 in Hv2. injection Hv2 as <- <-. split; reflexivity.
Qed.

End PreambleClaims.
Module StreamManagerFacts.
Import StreamManager.

Lemma clients_length_shift_down (i len : nat) (arr : list Client) :
  (i < len)%nat -> (len <= List.length arr)%nat ->
  List.length (shift_down i len arr) = List.length arr.
Proof.
  intros Hi Hl. unfold shift_down. rewrite !length_app, !length_take, !length_drop. lia.
Qed.

Lemma shift_down_lookup_ge (i len p : nat) (arr : list Client) :
  (i < len)%nat -> (len <= List.length arr)%nat -> (len - 1 <= p)%nat ->
  shift_down i len arr !! p = arr !! p.
Proof.
  intros Hi Hl Hp. unfold shift_down.
  rewrite lookup_app_r by (rewrite length_take; lia).
  rewrite lookup_app_r by (rewrite !length_take, length_drop; lia).
  rewrite lookup_drop, !length_take, length_drop. f_equal. lia.
Qed.

Lemma shift_down_lookup_mid (i len p : nat) (arr : list Client) :
  (i <= p)%nat -> (p < len - 1)%nat -> (len <= List.length arr)%nat ->
  shift_down i len arr !! p = arr !! S p.
Proof.
  intros Hi Hp Hl. unfold shift_down.
  rewrite lookup_app_r by (rewrite length_take; lia).
  rewrite lookup_app_l by (rewrite !length_take, length_drop; lia).
  rewrite lookup_take_lt by (rewrite length_take; lia).
  rewrite lookup_drop, length_take. f_equal. lia.
Qed.

Lemma clients_take_shift_down (pre post : list Client) (c : Client) :
  take (List.length (pre ++ c :: post) - 1)
       (shift_down (List.length pre) (List.length (pre ++ c :: post)) (pre ++ c :: post))
  = pre ++ post.
Proof.
  unfold shift_down. rewrite length_app. simpl.
  rewrite take_app_length.
  replace (S (List.length pre)) with (List.length (pre ++ [c]))
    by (rewrite length_app; simpl; lia).
  replace (pre ++ c :: post) with ((pre ++ [c]) ++ post) by (now rewrite <- app_assoc).
  rewrite drop_app_length.
  replace (List.length pre + S (List.length post) - List.length pre - 1)%nat
    with (List.length post) by lia.
  rewrite firstn_all.
  rewrite app_assoc. rewrite take_app_length'; [reflexivity|].
  rewrite length_app. lia.
Qed.

(** The range passes over positions that hold no stream of the id. *)
Lemma range_no_match (id : Z) (n i : nat) (arr : list Client) (len : nat) :
  (i + n <= List.length arr)%nat ->
  (forall j c, (i <= j < i + n)%nat -> arr !! j = Some c -> StreamID (conn c) <> id) ->
  RemoveStream_range id n i arr len = Some (arr, len).
Proof.
  revert i. induction n as [|n IH]; intros i Hlen Hno; [reflexivity|].
  cbn [RemoveStream_range].
  destruct (lookup_lt_is_Some_2 arr i) as [c Hc]; [lia|]. rewrite Hc.
  replace (StreamID (conn c) =? id) with false
    by (symmetry; apply Z.eqb_neq; apply (Hno i); [lia | exact Hc]).
  apply IH; [lia|]. intros j c' Hj. apply Hno. lia.
Qed.

Lemma range_skip (id : Z) (a b i : nat) (arr : list Client) (len : nat) :
  (i + a <= List.length arr)%nat ->
  (forall j c, (i <= j < i + a)%nat -> arr !! j = Some c -> StreamID (conn c) <> id) ->
  RemoveStream_range id (a + b) i arr len = RemoveStream_range id b (i + a) arr len.
Proof.
  revert i. induction a as [|a IH]; intros i Hlen Hno.
  - simpl. now rewrite Nat.add_0_r.
  - cbn [Nat.add RemoveStream_range].
    destruct (lookup_lt_is_Some_2 arr i) as [c Hc]; [lia|]. rewrite Hc.
    replace (StreamID (conn c) =? id) with false
      by (symmetry; apply Z.eqb_neq; apply (Hno i); [lia | exact Hc]).
    rewrite IH; [f_equal; lia | lia |]. intros j c' Hj. apply Hno. lia.
Qed.

(** Once the slice is shorter than the range, the range panics at the last
    position at the latest, if the stream there has the id. *)
Lemma range_after_removal (id : Z) (b : Client) (n m i : nat) (arr : list Client)
    (len : nat) :
  StreamID (conn b) = id ->
  (i + m = n)%nat -> (1 <= m)%nat -> (len <= n - 1)%nat ->
  List.length arr = n -> arr !! (n - 1)%nat = Some b ->
  RemoveStream_range id m i arr len = None.
Proof.
  intros Hb. revert i arr len. induction m as [|m IH]; intros i arr len Him Hm Hlen Harr Hlast;
    [lia|].
  cbn [RemoveStream_range].
  destruct (lookup_lt_is_Some_2 arr i) as [c Hc]; [lia|]. rewrite Hc.
  destruct m as [|m].
  - assert (i = n - 1)%nat by lia. subst i.
    assert (c = b) by congruence. subst c. rewrite Hb, Z.eqb_refl.
    replace (n - 1 + 1 <=? len)%nat with false by (symmetry; apply Nat.leb_gt; lia).
    reflexivity.
  - destruct (StreamID (conn c) =? id).
    + destruct (i + 1 <=? len)%nat eqn:Hil; [|reflexivity]. apply Nat.leb_le in Hil.
      apply IH; try lia.
      * rewrite clients_length_shift_down; lia.
      * rewrite shift_down_lookup_ge; [exact Hlast | lia | lia | lia].
    + apply IH; try lia; assumption.
Qed.

Lemma range_before_removal (id : Z) (a b : Client) (clients : list Client) (k m i : nat) :
  StreamID (conn a) = id -> StreamID (conn b) = id ->
  clients !! k = Some a -> (k < List.length clients - 1)%nat ->
  clients !! (List.length clients - 1)%nat = Some b ->
  (i + m = List.length clients)%nat -> (i <= k)%nat ->
  RemoveStream_range id m i clients (List.length clients) = None.
Proof.
  intros Ha Hb Hk Hkn Hlast. revert i. induction m as [|m IH]; intros i Him Hik; [lia|].
  cbn [RemoveStream_range].
  destruct (lookup_lt_is_Some_2 clients i) as [c Hc]; [lia|]. rewrite Hc.
  destruct (StreamID (conn c) =? id) eqn:Hm.
  - replace (i + 1 <=? List.length clients)%nat with true
      by (symmetry; apply Nat.leb_le; lia).
    apply (range_after_removal id b (List.length clients)); try lia; try assumption.
    + rewrite clients_length_shift_down; lia.
    + rewrite shift_down_lookup_ge; [exact Hlast | lia | lia | lia].
  - apply IH; [lia|]. destruct (decide (i = k)) as [->|Hne]; [|lia].
    assert (c = a) by congruence. subst c. rewrite Ha, Z.eqb_refl in Hm. discriminate.
Qed.

Lemma filter_no_match (id : Z) (l : list Client) :
  id ∉ List.map (fun c => StreamID (conn c)) l ->
  List.filter (fun c => negb (StreamID (conn c) =? id)) l = l.
Proof.
  induction l as [|c l IH]; [reflexivity|]. simpl. intros Hn.
  apply not_elem_of_cons in Hn as [Hc Hn].
  replace (StreamID (conn c) =? id) with false by (symmetry; apply Z.eqb_neq; congruence).
  simpl. now rewrite IH.
Qed.

Lemma no_match_lookup (id : Z) (l : list Client) (j : nat) (c : Client) :
  id ∉ List.map (fun c => StreamID (conn c)) l -> l !! j = Some c ->
  StreamID (conn c) <> id.
Proof.
  intros Hn Hj Heq. apply Hn. apply list_elem_of_fmap. exists c. split; [now symmetry|].
  eapply list_elem_of_lookup_2; eauto.
Qed.

End StreamManagerFacts.

Module StreamManagerClaims.
Import StreamManager StreamManagerFacts.

Section WithSessions.
Variable Session : Type.
Variable yamux_Client yamux_Server : option Session * option error.

(** X24. A stream manager never holds a client session and a server session
    at once: once [ConnectServer] has left a session, [ConnectClient] returns
    the error that a server is connected and changes nothing, and the other
    way round; a second [ConnectClient] or [ConnectServer] returns the session
    of the first. *)
Theorem StreamManager_has_one_role (sm : StreamManager.t Session) :
  reachable yamux_Client yamux_Server sm ->
  (server sm = None \/ client sm = None) /\
  (forall s, server sm = Some s ->
     ConnectServer yamux_Server sm = (Some s, None, sm) /\
     ConnectClient yamux_Client sm =
       (None, Some (errors_New "There is already a server connected to that socket"), sm)) /\
  (forall c, client sm = Some c ->
     ConnectClient yamux_Client sm = (Some c, None, sm) /\
     ConnectServer yamux_Server sm =
       (None, Some (errors_New "There is already a client connected to that socket"), sm)).
Proof.
  intros Hr.
  assert (Hrole : server sm = None \/ client sm = None).
  { induction Hr as [sm|sm Hr IH|sm Hr IH|conn sm Hr IH|conn sm sm' Hr IH Hrun].
    - now left.
    - unfold ConnectClient. destruct (client sm) as [c|] eqn:Hc.
      { simpl. destruct IH as [IH|IH]; [now left | discriminate]. }
      destruct (server sm) as [s|] eqn:Hs; [simpl; now right|].
      destruct yamux_Client as [c [err|]]; simpl; [now left | now left].
    - unfold ConnectServer. destruct (server sm) as [s|] eqn:Hs.
      { simpl. destruct IH as [IH|IH]; [discriminate | now right]. }
      destruct (client sm) as [c|] eqn:Hc; [simpl; now left|].
      destruct yamux_Server as [s [err|]]; simpl; [now right | now right].
    - exact IH.
    - unfold RemoveStream in Hrun. destruct (RemoveStream_range _ _ _ _ _) as [[arr len]|];
        [|discriminate]. injection Hrun as <-. exact IH. }
  split; [exact Hrole|]. split.
  - intros s Hs. unfold ConnectServer, ConnectClient. rewrite Hs.
    destruct Hrole as [Hn|Hn]; [congruence|]. now rewrite Hn.
  - intros c Hc. unfold ConnectServer, ConnectClient. rewrite Hc.
    destruct Hrole as [Hn|Hn]; [|congruence]. now rewrite Hn.
Qed.

(** X25. When no two streams of the manager have the same id,
    [RemoveStream] returns and leaves the streams of another id, in their
    order. *)
Theorem RemoveStream_removes_the_stream (conn : Stream) (sm : StreamManager.t Session) :
  NoDup (List.map (fun c => StreamID (StreamManager.conn c)) (clients sm)) ->
  RemoveStream conn sm =
    Done tt (Build (server sm) (client sm)
               (List.filter (fun c => negb (StreamID (StreamManager.conn c) =? StreamID conn))
                  (clients sm))).
Proof.
  intros Hnd. unfold RemoveStream. set (id := StreamID conn).
  destruct (decide (id ∈ List.map (fun c => StreamID (StreamManager.conn c)) (clients sm)))
    as [Hin|Hin].
  - apply list_elem_of_fmap in Hin as (c & Hc & Hin).
    apply list_elem_of_split in Hin as (pre & post & Hsplit). rewrite Hsplit in *.
    rewrite map_app in Hnd. simpl in Hnd. apply NoDup_app in Hnd as (_ & Hpre & Hpost).
    apply NoDup_cons in Hpost as [Hpost _].
    assert (Hpre' : id ∉ List.map (fun c => StreamID (StreamManager.conn c)) pre).
    { intros Hx. apply (Hpre id Hx). rewrite Hc. left. }
    rewrite <- Hc in Hpost.
    set (arr := pre ++ c :: post).
    assert (Hlen : List.length arr = (List.length pre + S (List.length post))%nat)
      by (unfold arr; rewrite length_app; reflexivity).
    rewrite Hlen at 1.
    rewrite (range_skip id (List.length pre) (S (List.length post)) 0 arr);
      [|lia|].
    2:{ intros j c' Hj Hl. apply (no_match_lookup id pre j c' Hpre').
        unfold arr in Hl. rewrite lookup_app_l in Hl by lia. exact Hl. }
    cbn [Nat.add RemoveStream_range].
    assert (Hat : arr !! List.length pre = Some c).
    { unfold arr. rewrite lookup_app_r by lia. now rewrite Nat.sub_diag. }
    rewrite Hat.
    replace (StreamID (StreamManager.conn c) =? id) with true
      by (symmetry; apply Z.eqb_eq; now symmetry).
    replace (List.length pre + 1 <=? List.length arr)%nat with true
      by (symmetry; apply Nat.leb_le; lia).
    rewrite range_no_match.
    + unfold arr. rewrite clients_take_shift_down. f_equal. f_equal.
      rewrite List.filter_app. simpl.
      replace (StreamID (StreamManager.conn c) =? id) with true
        by (symmetry; apply Z.eqb_eq; now symmetry).
      simpl. now rewrite !filter_no_match.
    + rewrite clients_length_shift_down; lia.
    + intros j c' Hj Hl.
      destruct (decide (j < List.length arr - 1)%nat) as [Hlt|Hge].
      * rewrite shift_down_lookup_mid in Hl by lia.
        unfold arr in Hl. rewrite lookup_app_r in Hl by lia.
        replace (S j - List.length pre)%nat with (S (j - List.length pre)) in Hl by lia.
        simpl in Hl. exact (no_match_lookup id post _ c' Hpost Hl).
      * rewrite shift_down_lookup_ge in Hl by lia.
        unfold arr in Hl. rewrite lookup_app_r in Hl by lia.
        replace (j - List.length pre)%nat with (S (j - List.length pre - 1)) in Hl by lia.
        simpl in Hl. exact (no_match_lookup id post _ c' Hpost Hl).
  - rewrite range_no_match; [|lia|].
    + rewrite firstn_all. now rewrite filter_no_match.
    + intros j c Hj Hl. now apply (no_match_lookup id (clients sm) j c).
Qed.

(** X26. When the last stream of the manager and a stream before it have
    the id, as after two calls of [AddStream] for one stream, [RemoveStream]
    panics: the range goes on over the slice as it was, and [sm.clients[i+1:]]
    is taken beyond the length of the slice that the first removal left. *)
Theorem RemoveStream_panics_on_a_repeated_stream (conn : Stream) (sm : StreamManager.t Session)
    (pre mid : list Client) (a b : Client) :
  clients sm = pre ++ a :: mid ++ [b] ->
  StreamID (StreamManager.conn a) = StreamID conn ->
  StreamID (StreamManager.conn b) = StreamID conn ->
  RemoveStream conn sm = Panic.
Proof.
  intros Hc Ha Hb. unfold RemoveStream.
  assert (Hlen : List.length (clients sm) = (List.length pre + S (List.length mid + 1))%nat).
  { rewrite Hc, length_app. simpl. rewrite length_app. simpl. lia. }
  rewrite (range_before_removal (StreamID conn) a b (clients sm) (List.length pre)
             (List.length (clients sm)) 0 Ha Hb); [reflexivity| | | |lia|lia].
  - rewrite Hc, lookup_app_r by lia. now rewrite Nat.sub_diag.
  - lia.
  - rewrite Hlen, Hc. rewrite lookup_app_r by lia.
    replace (List.length pre + S (List.length mid + 1) - 1 - List.length pre)%nat
      with (S (List.length mid)) by lia.
    simpl. rewrite lookup_app_r by lia. now rewrite Nat.sub_diag.
Qed.

End WithSessions.

Lemma StreamManager_has_one_role_witness :
  (server with_server = None \/ client with_server = None) /\
  (forall s, server with_server = Some s ->
     ConnectServer (Some tt, None) with_server = (Some s, None, with_server) /\
     ConnectClient (Some tt, None) with_server =
       (None, Some (errors_New "There is already a server connected to that socket"),
        with_server)) /\
  (forall c, client with_server = Some c ->
     ConnectClient (Some tt, None) with_server = (Some c, None, with_server) /\
     ConnectServer (Some tt, None) with_server =
       (None, Some (errors_New "There is already a client connected to that socket"),
        with_server)).
Proof.
  apply StreamManager_has_one_role.
  apply reachable_ConnectServer, reachable_Setup.
Defined.

Lemma RemoveStream_removes_the_stream_witness :
  RemoveStream (Build_Stream 3)
    (Build (Session := unit) None None [Build_Client (Build_Stream 1); Build_Client (Build_Stream 3);
                          Build_Client (Build_Stream 5)]) =
  Done tt (Build (Session := unit) None None
             (List.filter (fun c => negb (StreamID (StreamManager.conn c) =? 3))
                [Build_Client (Build_Stream 1); Build_Client (Build_Stream 3);
                 Build_Client (Build_Stream 5)])).
Proof.
  apply RemoveStream_removes_the_stream.
  simpl. apply NoDup_ListNoDup. repeat constructor; simpl; intuition discriminate.
Defined.

Lemma RemoveStream_panics_on_a_repeated_stream_witness :
  RemoveStream (Build_Stream 3)
    (AddStream (Build_Stream 3)
       (AddStream (Build_Stream 3) (Setup (Build (Session := unit) None None [])))) = Panic.
Proof.
  apply RemoveStream_panics_on_a_repeated_stream
    with (pre := []) (mid := []) (a := Build_Client (Build_Stream 3))
         (b := Build_Client (Build_Stream 3)); reflexivity.
Defined.

End StreamManagerClaims.

Module AddPeerFacts.
Import NetDB NetDBSpec NetDBFacts TableFacts BucketFacts FindClosestFacts InsertFacts.
Import StoreMore StoreMoreFacts StoreOkFacts StoreTableFacts StoreMoreClaims RoundTripFacts.

Lemma insertIntoTable_again (a : Address.t) (s s1 : NetDB.t) :
  insertIntoTable a s = Done tt s1 -> exists s2, insertIntoTable a s1 = Done tt s2.
Proof.
  unfold insertIntoTable, bind, get, index_or_panic.
  destruct (table s !! _) as [b|] eqn:Hb; [|discriminate]. unfold pure.
  assert (Hlt : (Address.LeadingZeroes (Address.Xor a (NetDB.addr s))
                 < List.length (table s))%nat) by (eapply lookup_lt_Some; eauto).
  intros Hrun.
  assert (Hs1 : NetDB.addr s1 = NetDB.addr s /\ List.length (table s1) = List.length (table s)).
  { destruct (find_address _ _); [|destruct (_ =? _)]; injection Hrun as <-; simpl;
      (split; [reflexivity | apply length_insert]). }
  destruct Hs1 as [Ha Hl]. rewrite Ha.
  destruct (lookup_lt_is_Some_2 (table s1) (Address.LeadingZeroes (Address.Xor a (NetDB.addr s))))
    as [b1 Hb1]; [lia|].
  rewrite Hb1. unfold put. clear Hrun.
  destruct (find_address _ _); [|destruct (_ =? _)]; eexists; reflexivity.
Qed.

Section WithExternals.
Context `{X : Externals}.

(** What a [Query] that returns an entry has found and done. *)
Lemma Query_Some (addr : Address.t) (s s1 : NetDB.t) (e : Entry.t) (id : Z) :
  Query addr s = Done (Some e, id, None) s1 ->
  exists a row,
    Address_String addr = (a, None) /\
    select_entry_by_address (entry_rows s) a = Some row /\
    insertIntoTable (Entry.Address e) s = Done tt s1.
Proof.
  unfold Query. destruct (Address_String addr) as [a [err|]]; [discriminate|].
  unfold bind at 1, get.
  destruct (select_entry_by_address (entry_rows s) a) as [row|] eqn:Hsel; [|discriminate].
  destruct (DecodeAddress _) as [d [err|]]; [discriminate|].
  destruct (addSeedToEntry _ _ _) as [ret [err|]]; [discriminate|].
  unfold bind.
  destruct (insertIntoTable (Entry.Address ret) s) as [[] s'| |] eqn:Hins; try discriminate.
  intros [= <- _ <-]. now exists a, row.
Qed.

(** [Insert] of an entry whose address already has a row ends after the
    [UPDATE]: the seed table is not written. *)
Lemma Insert_existing (e : Entry.t) (a : string) (s : NetDB.t) :
  Address_String (Entry.Address e) = (a, None) ->
  0 < matching_rows a (entry_rows s) ->
  (exists s', insertIntoTable (Entry.Address e) s = Done tt s') ->
  exists r s',
    Insert e s = Done r s' /\
    seed_rows s' = seed_rows s /\ fts_rows s' = fts_rows s /\
    List.map Row.id (entry_rows s') = List.map Row.id (entry_rows s) /\
    List.map Row.address (entry_rows s') = List.map Row.address (entry_rows s).
Proof.
  intros Ha Hm [s1 Hins]. unfold Insert.
  destruct (Entry.Verify (Some e)) as [err|] eqn:Hv; [now eexists _, _|].
  unfold bind at 1. rewrite Hins.
  pose proof (insertIntoTable_same_sql _ _ _ _ Hins) as (Hrows & Hseed & Hfts & _).
  unfold bind at 1. rewrite (Update_run e a s1 Hv Ha). rewrite Hrows.
  replace (matching_rows a (entry_rows s) >? 0) with true
    by (symmetry; rewrite Z.gtb_ltb; now apply Z.ltb_lt).
  eexists _, _. split; [reflexivity|]. simpl.
  split; [exact Hseed|]. split; [exact Hfts|]. split.
  - rewrite List.map_map. apply map_ext. intros x. now destruct (String.eqb _ _).
  - apply addresses_update.
Qed.

End WithExternals.

End AddPeerFacts.

Module AddPeerClaims.
Import NetDB NetDBSpec InsertFacts StoreMore StoreMoreFacts StoreOkFacts.
Import Server AddPeer AddPeerFacts.

Section WithExternals.
Context `{X : Externals} `{P : Msgpack}.
Variable Address_Bytes : Address.t -> bytes * option error.
Variable SaveEntry : M LocalPeer.t (option error).

(** X27. A request to be added as a seed of an entry that the NetDB holds,
    other than the local one, is answered "ok", yet the seed is not recorded:
    [Insert] of the entry with the longer seed list ends after its [UPDATE],
    which matches the row, so the seed table is left as it was (only the seed
    count of the row changes), and so are the ids and addresses of the entry
    table.  The address of the entry has to have the display form of the
    requested address. *)
Theorem HandleAddPeer_does_not_record_the_seed (from address : Address.t)
    (msg : Message.t) (l : LocalPeer.t) (w : list Message.t)
    (entry : Entry.t) (id : Z) (s1 : NetDB.t) :
  Message.Content msg = PAddress address ->
  Address.Equals address (LocalPeer.address l) = false ->
  Query address (LocalPeer.DHT l) = Done (Some entry, id, None) s1 ->
  Address_String (Entry.Address entry) = Address_String address ->
  exists l',
    HandleAddPeer Address_Bytes SaveEntry from msg (Build l w)
      = Done None (Build l' (w ++ [Message.Build ProtoOk PUnset])) /\
    seed_rows (LocalPeer.DHT l') = seed_rows (LocalPeer.DHT l) /\
    List.map Row.id (entry_rows (LocalPeer.DHT l'))
      = List.map Row.id (entry_rows (LocalPeer.DHT l)) /\
    List.map Row.address (entry_rows (LocalPeer.DHT l'))
      = List.map Row.address (entry_rows (LocalPeer.DHT l)).
Proof.
  intros Hmsg Hne Hq Hdisplay.
  destruct (Query_Some _ _ _ _ _ Hq) as (a & row & Ha & Hsel & Hins).
  pose proof (Query_same_sql _ _ _ _ Hq) as (Hrows & Hseed & Hfts & _).
  set (entry' := Entry.with_Seeds (Entry.Seeds entry ++ [fst (Address_Bytes from)]) entry).
  destruct (Insert_existing entry' a s1) as (r & s2 & Hinsert & Hseed2 & _ & Hid2 & Haddr2).
  { unfold entry'. simpl. now rewrite Hdisplay. }
  { rewrite Hrows. destruct (select_None_matching a (entry_rows (LocalPeer.DHT l))) as [_ Hz].
    pose proof (matching_rows_nonneg a (entry_rows (LocalPeer.DHT l))).
    destruct (decide (matching_rows a (entry_rows (LocalPeer.DHT l)) = 0)) as [Hz0|Hz0];
      [|lia].
    rewrite (Hz Hz0) in Hsel. discriminate. }
  { unfold entry'. simpl. now apply (insertIntoTable_again _ (LocalPeer.DHT l)). }
  exists (LocalPeer.set_DHT s2 (LocalPeer.set_DHT s1 l)).
  split; [|split; [|split]]; simpl.
  - unfold HandleAddPeer, Protocol.Message_Read_Address. rewrite Hmsg.
    cbv [bind get on_lp lp written LocalPeer.DHT_Query LocalPeer.on_DHT].
    rewrite Hne, Hq.
    cbv [bind get pure on_lp lp written LocalPeer.DHT_Insert LocalPeer.on_DHT].
    fold entry'. simpl. rewrite Hinsert. reflexivity.
  - now rewrite Hseed2, Hseed.
  - now rewrite Hid2, Hrows.
  - now rewrite Haddr2, Hrows.
Qed.

End WithExternals.

Lemma HandleAddPeer_does_not_record_the_seed_witness :
  exists l',
    HandleAddPeer (X := Sample.externals) (fun a => (Address.Raw a, None)) (pure None)
      ResolveScenario.address_B
      (Message.Build "add_peer.request" (PAddress ResolveScenario.address_A))
      (Build ResolveScenario.local [])
      = Done None (Build l' ([] ++ [Message.Build ProtoOk PUnset])) /\
    seed_rows (LocalPeer.DHT l') = seed_rows (LocalPeer.DHT ResolveScenario.local) /\
    List.map Row.id (entry_rows (LocalPeer.DHT l'))
      = List.map Row.id (entry_rows (LocalPeer.DHT ResolveScenario.local)) /\
    List.map Row.address (entry_rows (LocalPeer.DHT l'))
      = List.map Row.address (entry_rows (LocalPeer.DHT ResolveScenario.local)).
Proof.
  eapply (HandleAddPeer_does_not_record_the_seed (X := Sample.externals)).
  - reflexivity.
  - vm_compute. reflexivity.
  - vm_compute. reflexivity.
  - reflexivity.
Defined.

End AddPeerClaims.
Module ResolveShapeClaims.
Import PeerManager ResolveSpec ResolveFacts FindClosestFacts ResolveMoreClaims.

Section WithExternals.
Context `{X : Externals} `{P : Msgpack}.

Lemma scan_shape (net : Network.t) (addr : Address.t) (closest : list (option Entry.t))
    (budget : nat) (l l' : LocalPeer.t) (r : option Entry.t * option error) :
  scan net addr closest budget l = Done r l' ->
  (exists e, r = (Some e, None)) \/ (exists err, r = (None, Some err)).
Proof.
  revert budget l. induction closest as [|i rest IH]; intros budget l.
  - intros [= <- _]. right. eauto.
  - destruct budget as [|budget]; [intros [= <- _]; right; eauto|].
    cbn [scan]. destruct i as [e|]; [|discriminate].
    destruct (resolve_direct net e addr) as [[entry|] [err|]].
    + destruct (is_RecursionLimit err); [intros [= <- _]; right; eauto | apply IH].
    + destruct (Address.Equals _ _); [|apply IH].
      unfold bind. destruct (LocalPeer.DHT_Insert entry l); try discriminate.
      intros [= <- _]. left. eauto.
    + destruct (is_RecursionLimit err); [intros [= <- _]; right; eauto | apply IH].
    + apply IH.
Qed.

(** X28. [Resolve] of an address other than the local one never runs out of
    fuel, and when it returns it returns an entry and no error, or no entry
    and an error: never both [nil] and never both set. *)
Theorem Resolve_returns_an_entry_or_an_error (net : Network.t) (addr : Address.t)
    (l : LocalPeer.t) :
  Address.Equals addr (LocalPeer.address l) = false ->
  match Resolve net addr l with
  | Done (Some _, None) _ => True
  | Done (None, Some _) _ => True
  | Done _ _ => False
  | Panic => True
  | OutOfFuel => False
  end.
Proof.
  intros Hne. unfold Resolve, bind at 1, get. rewrite Hne.
  unfold bind at 1, LocalPeer.DHT_Query, bind at 1, LocalPeer.on_DHT.
  pose proof (terminates_Query addr (LocalPeer.DHT l)) as Hq.
  destruct (NetDB.Query addr (LocalPeer.DHT l)) as [[[kv id] err] s1| |];
    [|exact I|congruence].
  unfold pure at 1.
  destruct err as [[]|]; try exact I.
  - destruct kv as [kv|]; [exact I|].
    unfold bind, LocalPeer.DHT_FindClosest, LocalPeer.on_DHT. simpl.
    pose proof (terminates_FindClosest addr s1) as Hf.
    destruct (NetDB.FindClosest addr s1) as [[closest [err|]] s2| |];
      [exact I| |exact I|congruence].
    rewrite Resolve_range_scan by lia.
    pose proof (scan_terminates net addr closest (Z.to_nat 6)
                  (LocalPeer.set_DHT s2 (LocalPeer.set_DHT s1 l))) as Hs.
    destruct (scan net addr closest (Z.to_nat 6) _) as [r l'| |] eqn:Hscan;
      [|exact I|congruence].
    destruct (scan_shape _ _ _ _ _ _ _ Hscan) as [[e ->]|[e ->]]; exact I.
  - destruct kv as [kv|]; [exact I|].
    unfold bind, LocalPeer.DHT_FindClosest, LocalPeer.on_DHT. simpl.
    pose proof (terminates_FindClosest addr s1) as Hf.
    destruct (NetDB.FindClosest addr s1) as [[closest [err|]] s2| |];
      [exact I| |exact I|congruence].
    rewrite Resolve_range_scan by lia.
    pose proof (scan_terminates net addr closest (Z.to_nat 6)
                  (LocalPeer.set_DHT s2 (LocalPeer.set_DHT s1 l))) as Hs.
    destruct (scan net addr closest (Z.to_nat 6) _) as [r l'| |] eqn:Hscan;
      [|exact I|congruence].
    destruct (scan_shape _ _ _ _ _ _ _ Hscan) as [[e ->]|[e ->]]; exact I.
Qed.

End WithExternals.

Lemma Resolve_returns_an_entry_or_an_error_witness :
  match Resolve (X := Sample.externals) (P := Sample.msgpack) ResolveScenario.chain
          Scenario.target ResolveScenario.local with
  | Done (Some _, None) _ => True
  | Done (None, Some _) _ => True
  | Done _ _ => False
  | Panic => True
  | OutOfFuel => False
  end.
Proof.
  apply (Resolve_returns_an_entry_or_an_error (X := Sample.externals) (P := Sample.msgpack)).
  vm_compute. reflexivity.
Defined.

End ResolveShapeClaims.

Module AnnounceTwiceClaims.
Import NetDB NetDBSpec NetDBFacts TableFacts BucketFacts InsertFacts.
Import StoreMore StoreMoreFacts.
Import Server ServerMore.

Section WithExternals.
Context `{X : Externals} `{P : Msgpack}.




End WithExternals.


(** The first announce of [entry_seeding_stranger] to a server with an empty
    NetDB is answered "no". *)
Lemma first_announce_is_refused :
  returned (serve (X := Sample.externals) (P := Sample.msgpack)
              (Message.Build ProtoDhtAnnounce (PEntry AnnounceScenario.entry_seeding_stranger))
              (ResolveScenario.empty_node ResolveScenario.entry_self))
  = Some [Message.Build ProtoNo PUnset].
Proof. vm_compute. reflexivity. Qed.

End AnnounceTwiceClaims.

Module SeedTableClaims.
Import NetDB NetDBSpec InsertFacts StoreMore StoreOkFacts RoundTripFacts.

Section WithExternals.
Context `{X : Externals}.

Lemma decode_addresses_all (l : list string) (ret : list Address.t) :
  Forall (fun a => snd (DecodeAddress a) = None) l ->
  decode_addresses l ret = (ret ++ List.map (fun a => fst (DecodeAddress a)) l, None).
Proof.
  revert ret. induction l as [|a l IH]; intros ret Hl; simpl.
  - now rewrite app_nil_r.
  - apply Forall_cons in Hl as [Ha Hl].
    destruct (DecodeAddress a) as [d err] eqn:Hd. simpl in Ha. subst err.
    rewrite IH by exact Hl. now rewrite <- app_assoc.
Qed.

Lemma exec_insert_seed_elem (a b : Z) (rows : list SeedRow.t) :
  exists r, r ∈ exec_insert_seed a b rows /\ SeedRow.seed r = a /\ SeedRow.for_ r = b.
Proof.
  unfold exec_insert_seed. destruct (existsb _ rows) eqn:Hex.
  - apply existsb_exists in Hex as (r & Hin & Hr). apply andb_true_iff in Hr as [H1 H2].
    exists r. split; [now apply list_elem_of_In|]. split; now apply Z.eqb_eq.
  - eexists. split; [apply elem_of_app; right; apply list_elem_of_singleton; reflexivity|].
    split; reflexivity.
Qed.

(** X30. After [InsertSeed(entry, seed)] has returned [nil], [querySeeds] of
    the row of [entry] gives the address of [seed], and [querySeeding] of the
    row of [seed] gives the address of [entry], provided the stored addresses
    decode. *)
Theorem InsertSeed_then_querySeeds (entry seed : Address.t) (s s' : NetDB.t) :
  decodable s ->
  InsertSeed entry seed s = Done None s' ->
  exists er sr,
    select_entry_by_address (entry_rows s) (fst (Address_String entry)) = Some er /\
    select_entry_by_address (entry_rows s) (fst (Address_String seed)) = Some sr /\
    snd (querySeeds s' (Row.id er)) = None /\
    fst (DecodeAddress (fst (Address_String seed))) ∈ fst (querySeeds s' (Row.id er)) /\
    snd (querySeeding s' (Row.id sr)) = None /\
    fst (DecodeAddress (fst (Address_String entry))) ∈ fst (querySeeding s' (Row.id sr)).
Proof.
  intros Hdec. unfold InsertSeed.
  destruct (Address_String entry) as [ea err0].
  destruct (Address_String seed) as [sa [err|]]; [discriminate|].
  unfold bind, get. simpl.
  destruct (select_entry_by_address (entry_rows s) ea) as [er|] eqn:He; [|discriminate].
  destruct (select_entry_by_address (entry_rows s) sa) as [sr|] eqn:Hs; [|discriminate].
  unfold put, pure. intros [= <-].
  exists er, sr. split; [reflexivity|]. split; [reflexivity|].
  set (s' := set_seed_rows _ s).
  assert (Hdec' : decodable s') by exact Hdec.
  destruct (exec_insert_seed_elem (Row.id sr) (Row.id er) (seed_rows s))
    as (r & Hr & Hrs & Hrf).
  apply select_Some_row in He as [Her Hea]. apply select_Some_row in Hs as [Hsr Hsa].
  unfold querySeeds, querySeeding.
  rewrite !decode_addresses_all
    by (apply select_seeds_decodable || apply select_seeding_decodable; exact Hdec').
  simpl. split; [reflexivity|]. split; [|split; [reflexivity|]].
  - apply list_elem_of_fmap. exists sa. split; [reflexivity|].
    unfold select_seeds. apply list_elem_of_In, in_flat_map. exists r.
    split; [now apply list_elem_of_In|].
    rewrite Hrf, Z.eqb_refl. apply in_map_iff. exists sr. split; [exact Hsa|].
    apply filter_In. split; [now apply list_elem_of_In|]. rewrite Hrs. apply Z.eqb_refl.
  - apply list_elem_of_fmap. exists ea. split; [reflexivity|].
    unfold select_seeding. apply list_elem_of_In, in_flat_map. exists r.
    split; [now apply list_elem_of_In|].
    rewrite Hrs, Z.eqb_refl. apply in_map_iff. exists er. split; [exact Hea|].
    apply filter_In. split; [now apply list_elem_of_In|]. rewrite Hrf. apply Z.eqb_refl.
Qed.

End WithExternals.

Lemma InsertSeed_then_querySeeds_witness :
  exists er sr,
    select_entry_by_address (entry_rows SeedScenario.two_entries)
      (fst (Address_String (Externals := Sample.externals)
              (Entry.Address Scenario.entry_far))) = Some er /\
    select_entry_by_address (entry_rows SeedScenario.two_entries)
      (fst (Address_String (Externals := Sample.externals)
              (Entry.Address Scenario.entry_near))) = Some sr /\
    snd (querySeeds (X := Sample.externals) SeedScenario.with_seed (Row.id er)) = None /\
    fst (DecodeAddress (Externals := Sample.externals)
           (fst (Address_String (Externals := Sample.externals)
                   (Entry.Address Scenario.entry_near))))
      ∈ fst (querySeeds (X := Sample.externals) SeedScenario.with_seed (Row.id er)) /\
    snd (querySeeding (X := Sample.externals) SeedScenario.with_seed (Row.id sr)) = None /\
    fst (DecodeAddress (Externals := Sample.externals)
           (fst (Address_String (Externals := Sample.externals)
                   (Entry.Address Scenario.entry_far))))
      ∈ fst (querySeeding (X := Sample.externals) SeedScenario.with_seed (Row.id sr)).
Proof.
  apply (InsertSeed_then_querySeeds (X := Sample.externals)
           (Entry.Address Scenario.entry_far) (Entry.Address Scenario.entry_near)
           SeedScenario.two_entries SeedScenario.with_seed).
  - repeat constructor.
  - vm_compute. reflexivity.
Defined.

End SeedTableClaims.
